(** * phprtc/clientside: the websocket client, its event emitter and its rooms

    A shallow embedding of the TypeScript sources
    - [src/index.ts]            (classes RTC_EventEmitter, RTC_Room, RTC_Websocket),
    - [src/src/Websocket.ts]    (classes Event, and the later RTC_EventEmitter,
                                 RTC_Room, RTC_Websocket with server ping and
                                 [conn.rejected]),
    followed by the properties of the connection life cycle, the listener
    registry and the room registry.

    Conventions of the embedding.
    - A method is a function in a state-and-exception monad over the object it
      mutates; a JavaScript [throw] is the outcome [Thrown], and what was
      written before the throw stays written.
    - A JavaScript object used as a dictionary is a [gmap string _] of its own
      properties; a read of a name that the object does not own falls through
      to [Object.prototype] ([inherited]).
    - The browser's [WebSocket], the timers, [setImmediate] and the promise job
      queue are part of the state; what they do later reaches the object as an
      input of the step function.
    - Callbacks supplied by the application are opaque: an invocation is
      recorded in the trace, returns normally and does not call back into the
      connection. *)

From Stdlib Require Import ZArith Lia.
From stdpp Require Import base option list strings gmap.

Open Scope string_scope.
Open Scope list_scope.

(** ** Outcomes and the state-and-exception monad *)

Inductive exn : Type :=
| TypeError          (* property read on [undefined] *)
| SyntaxError        (* [JSON.parse] on text that is not JSON *)
| InvalidStateError. (* [WebSocket.send] on a socket that is not open *)

Inductive outcome (A : Type) : Type :=
| Returned (a : A)
| Thrown (e : exn).
Arguments Returned {A} a.
Arguments Thrown {A} e.

Definition M (S A : Type) : Type := S -> S * outcome A.

Definition ret {S A} (a : A) : M S A := fun s => (s, Returned a).
Definition throw {S A} (e : exn) : M S A := fun s => (s, Thrown e).
Definition bind {S A B} (m : M S A) (k : A -> M S B) : M S B :=
  fun s => match m s with
           | (s', Returned a) => k a s'
           | (s', Thrown e) => (s', Thrown e)
           end.
Definition modify {S} (f : S -> S) : M S unit := fun s => (f s, Returned tt).
Definition gets {S A} (f : S -> A) : M S A := fun s => (s, Returned (f s)).

Declare Scope js_scope.
Delimit Scope js_scope with js.
Notation "'let*' x ':=' m 'in' k" := (bind m (fun x => k))
  (at level 10, x name, m at level 100, k at level 200) : js_scope.
Notation "m ';;;' k" := (bind m (fun _ => k))
  (at level 100, k at level 200, right associativity) : js_scope.

(** [Array.prototype.forEach] over a snapshot of the array: the callbacks of
    the model never grow the array they are called from. *)
Fixpoint forEach {S L} (f : L -> M S unit) (ls : list L) : M S unit :=
  match ls with
  | [] => ret tt
  | l :: ls' => (f l ;;; forEach f ls')%js
  end.

(** [try { m } catch (error) { h error }] *)
Definition try_catch {S A} (m : M S A) (h : exn -> M S A) : M S A :=
  fun s => match m s with
           | (s', Thrown e) => h e s'
           | r => r
           end.

Definition state_of {S A} (r : S * outcome A) : S := fst r.
Definition threw {S A} (r : S * outcome A) : bool :=
  match snd r with Thrown _ => true | Returned _ => false end.

(** ** The listener registry

    [listeners = {'on': {}, 'once': {}}]: two dictionaries from an event name to
    the array of its listeners. *)

Record emitter (L : Type) : Type := Emitter {
  on_ : gmap string (list L);
  once_ : gmap string (list L)
}.
Arguments Emitter {L} _ _.
Arguments on_ {L} _.
Arguments once_ {L} _.

Definition new_emitter {L} : emitter L := Emitter ∅ ∅.

(** The dictionaries are object literals [{}]: a name that one of them does not
    own is looked up in [Object.prototype]. These are its properties; each of
    them is truthy and has no [push]. *)
Definition inherited (name : string) : bool :=
  existsb (String.eqb name)
    ["constructor"; "hasOwnProperty"; "isPrototypeOf"; "propertyIsEnumerable";
     "toLocaleString"; "toString"; "valueOf"; "__proto__";
     "__defineGetter__"; "__defineSetter__"; "__lookupGetter__"; "__lookupSetter__"].

(** The value of [dictionary[name]]. *)
Inductive property (L : Type) : Type :=
| Own (ls : list L)   (* an array that [on] or [once] stored *)
| Inherited           (* a property of [Object.prototype] *)
| Undefined.
Arguments Own {L} ls.
Arguments Inherited {L}.
Arguments Undefined {L}.

Definition read {L} (dictionary : gmap string (list L)) (name : string) : property L :=
  match dictionary !! name with
  | Some ls => Own ls
  | None => if inherited name then Inherited else Undefined
  end.

(** A method of an object that the state holds behind [get]/[set]. *)
Definition within {S T A} (get : S -> T) (set : T -> S -> S) (m : M T A) : M S A :=
  fun s => let '(t, r) := m (get s) in (set t s, r).

(** How a listener is called: [listener(...data)] for the persistent ones,
    [listener(data)] for the one-shot ones. *)
Inductive convention : Type := Spread | Aggregate.

(** The emitter after [on(name, l)], respectively [once(name, l)], of
    RTC_EventEmitter has returned (see [on_returns] and [once_returns]). *)
Definition pushed_on {L} (name : string) (l : L) (em : emitter L) : emitter L :=
  Emitter (<[name := default [] (on_ em !! name) ++ [l]]> (on_ em)) (once_ em).
Definition pushed_once {L} (name : string) (l : L) (em : emitter L) : emitter L :=
  Emitter (on_ em) (<[name := default [] (once_ em !! name) ++ [l]]> (once_ em)).

Module RTC_EventEmitter.
Section Emitter.
Context {L : Type}.

(** [on(name, listener)]: the array is created when [listeners['on'][name]] is
    falsy, which an inherited property is not; [push] on anything but an
    array of the dictionary is a TypeError. *)
Definition on (name : string) (l : L) : M (emitter L) unit := fun em =>
  let em1 := match read (on_ em) name with
             | Undefined => Emitter (<[name := []]> (on_ em)) (once_ em)
             | _ => em
             end in
  match read (on_ em1) name with
  | Own ls => (Emitter (<[name := ls ++ [l]]> (on_ em1)) (once_ em1), Returned tt)
  | _ => (em1, Thrown TypeError)
  end.

(** [once(name, listener)] *)
Definition once (name : string) (l : L) : M (emitter L) unit := fun em =>
  let em1 := match read (once_ em) name with
             | Undefined => Emitter (on_ em) (<[name := []]> (once_ em))
             | _ => em
             end in
  match read (once_ em1) name with
  | Own ls => (Emitter (on_ em1) (<[name := ls ++ [l]]> (once_ em1)), Returned tt)
  | _ => (em1, Thrown TypeError)
  end.

(** [dispatch(name, data)], for an emitter stored in a state [S] behind
    [get]/[set], with [call] running one listener. *)
Context {S : Type} (get : S -> emitter L) (set : emitter L -> S -> S)
        (call : string -> convention -> L -> M S unit).

Definition dispatch (name : string) : M S unit :=
  (let* regularEvent := gets (fun s => on_ (get s)) in
   match regularEvent !! name with
   | Some ls => forEach (call name Spread) ls
   | None => ret tt
   end ;;;
   let* onceEvent := gets (fun s => once_ (get s)) in
   match onceEvent !! name with
   | Some ls =>
       forEach (call name Aggregate) ls ;;;
       modify (fun s => set (Emitter (on_ (get s)) (delete name (once_ (get s)))) s)
   | None => ret tt
   end)%js.
End Emitter.
End RTC_EventEmitter.

(** ** The class [Event] of src/src/Websocket.ts

  Its [once] creates the one-shot array and then pushes on the array of the
  persistent listeners: [this.listeners['on'][name].push(listener)]. *)

Module Event.
Section Emitter.
Context {L : Type}.

Definition on (name : string) (l : L) : M (emitter L) unit :=
  RTC_EventEmitter.on name l.

Definition once (name : string) (l : L) : M (emitter L) unit := fun em =>
  let em1 := match read (once_ em) name with
             | Undefined => Emitter (on_ em) (<[name := []]> (once_ em))
             | _ => em
             end in
  match read (on_ em1) name with
  | Own ls => (Emitter (<[name := ls ++ [l]]> (on_ em1)) (once_ em1), Returned tt)
  | _ => (em1, Thrown TypeError)
  end.

Context {S : Type} (get : S -> emitter L) (set : emitter L -> S -> S)
        (call : string -> convention -> L -> M S unit).

Definition dispatch (name : string) : M S unit :=
  RTC_EventEmitter.dispatch get set call name.
End Emitter.
End Event.

(** ** An emitter on its own, with opaque callbacks

  The state is the emitter and the log of the calls made so far. *)

Module Bus.
Record call_record : Type := Call {
  c_name : string; c_conv : convention; c_listener : nat
}.

Definition st : Type := emitter nat * list call_record.

Definition call (name : string) (cv : convention) (l : nat) : M st unit :=
  modify (fun s : st => (s.1, s.2 ++ [Call name cv l])).

Definition dispatch (name : string) : M st unit :=
  RTC_EventEmitter.dispatch (fun s : st => s.1) (fun em s => (em, s.2)) call name.

(** The same for the class [Event]. *)
Definition dispatch_legacy (name : string) : M st unit :=
  Event.dispatch (fun s : st => s.1) (fun em s => (em, s.2)) call name.

Definition on (name : string) (l : nat) : M st unit :=
  within (fun s : st => s.1) (fun em s => (em, s.2)) (RTC_EventEmitter.on name l).
Definition once (name : string) (l : nat) : M st unit :=
  within (fun s : st => s.1) (fun em s => (em, s.2)) (RTC_EventEmitter.once name l).
Definition on_legacy (name : string) (l : nat) : M st unit :=
  within (fun s : st => s.1) (fun em s => (em, s.2)) (Event.on name l).
Definition once_legacy (name : string) (l : nat) : M st unit :=
  within (fun s : st => s.1) (fun em s => (em, s.2)) (Event.once name l).

(** How often listener [l] was called in a log. *)
Definition calls_of (l : nat) (log : list call_record) : nat :=
  length (filter (fun c => c_listener c = l) log).
End Bus.

(** ** What travels on the wire *)

Record address : Type := Address { a_type : string; a_id : string }.

Inductive payload : Type :=
| PNull
| PText (s : string)
| PObject (fields : list (string * string)).

(** The object that [send] serialises: [{event, message|data, receiver, time}].
    [receiver = None] is the default [{}]; the clock is left out. *)
Record envelope : Type := Envelope {
  e_event : string; e_payload : payload; e_receiver : option address
}.

(** A field that the server encoded twice: [JSON.parse] of it succeeds or
    throws. *)
Inductive nested : Type := Encoded (decoded : string) | NotJson.

Record sender : Type := Sender {
  s_type : string; s_id : string; s_info : option nested
}.

(** An inbound frame after [JSON.parse(e.data)]; a field that may be missing is
    an option, a missing or empty [event] is the empty string, and
    [ev_user_info] stands for [event.meta && event.meta.user_info]. *)
Record wsevent : Type := WSEvent {
  ev_event : string;
  ev_data : option payload;
  ev_sender : option sender;
  ev_receiver : option address;
  ev_user_info : option nested
}.

Inductive frame : Type := Garbled | Json (e : wsevent).

(** ** The host: sockets, timers, promises *)

Inductive ready_state : Type := CONNECTING | OPEN | CLOSING | CLOSED.

Inductive timer : Type :=
| ReconnectTimer   (* [setTimeout(() => this.createSocket(true), ...)] *)
| PingTimer        (* [setInterval] of the keepalive *)
| PollTimer.       (* [setInterval] of closeNativeWebsocketConnection *)

Inductive task : Type :=
| CloseSocket      (* [setImmediate(() => this.websocket.close())] *)
| Disconnect.      (* the [setImmediate] callback of [close()] *)

(** [then(() => this.rooms.splice(i, 1))], the only reaction in the code. *)
Inductive reaction : Type := Splice (i : nat).

Inductive pstate : Type := Pending | Fulfilled | Rejected.

Record promise : Type := Promise { p_state : pstate; p_then : list reaction }.

(** The listeners of the connection's emitter. *)
Inductive listener : Type :=
| App (id : nat)                          (* a callback of the application *)
| SendWhenOpen (e : envelope) (p : nat)   (* the closure [send] registers *)
| JoinOnOpen (e : envelope).              (* [joinRoom] of the RTC_Room constructor *)

Record room : Type := Room { room_name : string; r_eventEmitter : emitter nat }.

Inductive bus : Type := ConnBus | RoomBus (r : nat).

Inductive effect : Type :=
| Fired (b : bus) (channel : string) (cv : convention) (l : nat)
| Wire (sock : nat) (e : envelope)        (* a frame written to a socket *)
| Created (sock : nat)                    (* [new WebSocket] *)
| Settled (p : nat) (fulfilled : bool)    (* [resolve(this)] / [reject(error)] *)
| Scheduled (h : nat).                    (* a reconnect timer was set *)

#[global] Instance ready_state_eq_dec : EqDecision ready_state.
Proof. solve_decision. Defined.
#[global] Instance pstate_eq_dec : EqDecision pstate.
Proof. solve_decision. Defined.
#[global] Instance timer_eq_dec : EqDecision timer.
Proof. solve_decision. Defined.

(** ** The connection object together with its host *)

Record conn : Type := Conn {
  sockets : list ready_state  (* every [WebSocket] constructed so far, by number *);
  websocket : option nat  (* [this.websocket] *);
  reconnectionInterval : Z;
  connectionState : string;
  willReconnect : bool;
  canReconnect : bool  (* Websocket.ts only *);
  eventEmitter : emitter listener;
  defaultAuthToken : option string;
  reconnectionTimeout : option nat;
  room_objects : list room  (* the [RTC_Room] objects, by number *);
  rooms : list nat  (* [this.rooms]: references to room objects *);
  isClientPingEnabled : bool  (* Websocket.ts only *);
  pingPongInterval : Z;
  pingPongIntervalTimer : option nat;
  timers : list (nat * timer)  (* live [setTimeout]/[setInterval] handles *);
  next_timer : nat;
  immediates : list task  (* [setImmediate] queue *);
  promises : list promise  (* the promises returned by [send], by number *);
  jobs : list reaction  (* promise job queue *);
  trace : list effect  (* what an observer has seen so far *)
}.

Definition set_sockets (v : list ready_state) (c : conn) : conn :=
  Conn v (websocket c) (reconnectionInterval c) (connectionState c) (willReconnect c) (canReconnect c) (eventEmitter c) (defaultAuthToken c) (reconnectionTimeout c) (room_objects c) (rooms c) (isClientPingEnabled c) (pingPongInterval c) (pingPongIntervalTimer c) (timers c) (next_timer c) (immediates c) (promises c) (jobs c) (trace c).
Definition set_websocket (v : option nat) (c : conn) : conn :=
  Conn (sockets c) v (reconnectionInterval c) (connectionState c) (willReconnect c) (canReconnect c) (eventEmitter c) (defaultAuthToken c) (reconnectionTimeout c) (room_objects c) (rooms c) (isClientPingEnabled c) (pingPongInterval c) (pingPongIntervalTimer c) (timers c) (next_timer c) (immediates c) (promises c) (jobs c) (trace c).
Definition set_reconnectionInterval (v : Z) (c : conn) : conn :=
  Conn (sockets c) (websocket c) v (connectionState c) (willReconnect c) (canReconnect c) (eventEmitter c) (defaultAuthToken c) (reconnectionTimeout c) (room_objects c) (rooms c) (isClientPingEnabled c) (pingPongInterval c) (pingPongIntervalTimer c) (timers c) (next_timer c) (immediates c) (promises c) (jobs c) (trace c).
Definition set_connectionState (v : string) (c : conn) : conn :=
  Conn (sockets c) (websocket c) (reconnectionInterval c) v (willReconnect c) (canReconnect c) (eventEmitter c) (defaultAuthToken c) (reconnectionTimeout c) (room_objects c) (rooms c) (isClientPingEnabled c) (pingPongInterval c) (pingPongIntervalTimer c) (timers c) (next_timer c) (immediates c) (promises c) (jobs c) (trace c).
Definition set_willReconnect (v : bool) (c : conn) : conn :=
  Conn (sockets c) (websocket c) (reconnectionInterval c) (connectionState c) v (canReconnect c) (eventEmitter c) (defaultAuthToken c) (reconnectionTimeout c) (room_objects c) (rooms c) (isClientPingEnabled c) (pingPongInterval c) (pingPongIntervalTimer c) (timers c) (next_timer c) (immediates c) (promises c) (jobs c) (trace c).
Definition set_canReconnect (v : bool) (c : conn) : conn :=
  Conn (sockets c) (websocket c) (reconnectionInterval c) (connectionState c) (willReconnect c) v (eventEmitter c) (defaultAuthToken c) (reconnectionTimeout c) (room_objects c) (rooms c) (isClientPingEnabled c) (pingPongInterval c) (pingPongIntervalTimer c) (timers c) (next_timer c) (immediates c) (promises c) (jobs c) (trace c).
Definition set_eventEmitter (v : emitter listener) (c : conn) : conn :=
  Conn (sockets c) (websocket c) (reconnectionInterval c) (connectionState c) (willReconnect c) (canReconnect c) v (defaultAuthToken c) (reconnectionTimeout c) (room_objects c) (rooms c) (isClientPingEnabled c) (pingPongInterval c) (pingPongIntervalTimer c) (timers c) (next_timer c) (immediates c) (promises c) (jobs c) (trace c).
Definition set_defaultAuthToken (v : option string) (c : conn) : conn :=
  Conn (sockets c) (websocket c) (reconnectionInterval c) (connectionState c) (willReconnect c) (canReconnect c) (eventEmitter c) v (reconnectionTimeout c) (room_objects c) (rooms c) (isClientPingEnabled c) (pingPongInterval c) (pingPongIntervalTimer c) (timers c) (next_timer c) (immediates c) (promises c) (jobs c) (trace c).
Definition set_reconnectionTimeout (v : option nat) (c : conn) : conn :=
  Conn (sockets c) (websocket c) (reconnectionInterval c) (connectionState c) (willReconnect c) (canReconnect c) (eventEmitter c) (defaultAuthToken c) v (room_objects c) (rooms c) (isClientPingEnabled c) (pingPongInterval c) (pingPongIntervalTimer c) (timers c) (next_timer c) (immediates c) (promises c) (jobs c) (trace c).
Definition set_room_objects (v : list room) (c : conn) : conn :=
  Conn (sockets c) (websocket c) (reconnectionInterval c) (connectionState c) (willReconnect c) (canReconnect c) (eventEmitter c) (defaultAuthToken c) (reconnectionTimeout c) v (rooms c) (isClientPingEnabled c) (pingPongInterval c) (pingPongIntervalTimer c) (timers c) (next_timer c) (immediates c) (promises c) (jobs c) (trace c).
Definition set_rooms (v : list nat) (c : conn) : conn :=
  Conn (sockets c) (websocket c) (reconnectionInterval c) (connectionState c) (willReconnect c) (canReconnect c) (eventEmitter c) (defaultAuthToken c) (reconnectionTimeout c) (room_objects c) v (isClientPingEnabled c) (pingPongInterval c) (pingPongIntervalTimer c) (timers c) (next_timer c) (immediates c) (promises c) (jobs c) (trace c).
Definition set_isClientPingEnabled (v : bool) (c : conn) : conn :=
  Conn (sockets c) (websocket c) (reconnectionInterval c) (connectionState c) (willReconnect c) (canReconnect c) (eventEmitter c) (defaultAuthToken c) (reconnectionTimeout c) (room_objects c) (rooms c) v (pingPongInterval c) (pingPongIntervalTimer c) (timers c) (next_timer c) (immediates c) (promises c) (jobs c) (trace c).
Definition set_pingPongInterval (v : Z) (c : conn) : conn :=
  Conn (sockets c) (websocket c) (reconnectionInterval c) (connectionState c) (willReconnect c) (canReconnect c) (eventEmitter c) (defaultAuthToken c) (reconnectionTimeout c) (room_objects c) (rooms c) (isClientPingEnabled c) v (pingPongIntervalTimer c) (timers c) (next_timer c) (immediates c) (promises c) (jobs c) (trace c).
Definition set_pingPongIntervalTimer (v : option nat) (c : conn) : conn :=
  Conn (sockets c) (websocket c) (reconnectionInterval c) (connectionState c) (willReconnect c) (canReconnect c) (eventEmitter c) (defaultAuthToken c) (reconnectionTimeout c) (room_objects c) (rooms c) (isClientPingEnabled c) (pingPongInterval c) v (timers c) (next_timer c) (immediates c) (promises c) (jobs c) (trace c).
Definition set_timers (v : list (nat * timer)) (c : conn) : conn :=
  Conn (sockets c) (websocket c) (reconnectionInterval c) (connectionState c) (willReconnect c) (canReconnect c) (eventEmitter c) (defaultAuthToken c) (reconnectionTimeout c) (room_objects c) (rooms c) (isClientPingEnabled c) (pingPongInterval c) (pingPongIntervalTimer c) v (next_timer c) (immediates c) (promises c) (jobs c) (trace c).
Definition set_next_timer (v : nat) (c : conn) : conn :=
  Conn (sockets c) (websocket c) (reconnectionInterval c) (connectionState c) (willReconnect c) (canReconnect c) (eventEmitter c) (defaultAuthToken c) (reconnectionTimeout c) (room_objects c) (rooms c) (isClientPingEnabled c) (pingPongInterval c) (pingPongIntervalTimer c) (timers c) v (immediates c) (promises c) (jobs c) (trace c).
Definition set_immediates (v : list task) (c : conn) : conn :=
  Conn (sockets c) (websocket c) (reconnectionInterval c) (connectionState c) (willReconnect c) (canReconnect c) (eventEmitter c) (defaultAuthToken c) (reconnectionTimeout c) (room_objects c) (rooms c) (isClientPingEnabled c) (pingPongInterval c) (pingPongIntervalTimer c) (timers c) (next_timer c) v (promises c) (jobs c) (trace c).
Definition set_promises (v : list promise) (c : conn) : conn :=
  Conn (sockets c) (websocket c) (reconnectionInterval c) (connectionState c) (willReconnect c) (canReconnect c) (eventEmitter c) (defaultAuthToken c) (reconnectionTimeout c) (room_objects c) (rooms c) (isClientPingEnabled c) (pingPongInterval c) (pingPongIntervalTimer c) (timers c) (next_timer c) (immediates c) v (jobs c) (trace c).
Definition set_jobs (v : list reaction) (c : conn) : conn :=
  Conn (sockets c) (websocket c) (reconnectionInterval c) (connectionState c) (willReconnect c) (canReconnect c) (eventEmitter c) (defaultAuthToken c) (reconnectionTimeout c) (room_objects c) (rooms c) (isClientPingEnabled c) (pingPongInterval c) (pingPongIntervalTimer c) (timers c) (next_timer c) (immediates c) (promises c) v (trace c).
Definition set_trace (v : list effect) (c : conn) : conn :=
  Conn (sockets c) (websocket c) (reconnectionInterval c) (connectionState c) (willReconnect c) (canReconnect c) (eventEmitter c) (defaultAuthToken c) (reconnectionTimeout c) (room_objects c) (rooms c) (isClientPingEnabled c) (pingPongInterval c) (pingPongIntervalTimer c) (timers c) (next_timer c) (immediates c) (promises c) (jobs c) v.

(** ** Inputs of the step functions *)

Inductive notification : Type :=
| NOpen | NMessage (f : frame) | NClose | NError.

(** The subscription methods [onOpen], [onMessage], [onEvent(event)], ... *)
Inductive subscription : Type :=
| OnOpen | OnMessage | OnEvent (event : string) | OnAnyEvent | OnClose
| OnDisconnect | OnError | OnConnecting | OnReconnecting | OnReconnect.

Definition channel (k : subscription) : string :=
  match k with
  | OnOpen => "open"
  | OnMessage => "message"
  | OnEvent event => String.append "event." event
  | OnAnyEvent => "event"
  | OnClose => "close"
  | OnDisconnect => "custom.disconnect"
  | OnError => "error"
  | OnConnecting => "connecting"
  | OnReconnecting => "reconnecting"
  | OnReconnect => "reconnect"
  end.

(** The public methods; [enableClientPing] exists in Websocket.ts only. *)
Module Method.
Inductive method : Type :=
| connect
| close
| reconnect
| send (event : string) (data : payload) (receiver : option address)
| joinRoom (name : string)
| leaveRoom (name : string)
| setReconnectionInterval (interval : Z)
| setAuthToken (token : string)
| setPingPongInterval (ms : Z)
| enableClientPing
| subscribe (k : subscription) (l : nat)
| room_on (r : nat) (name : string) (l : nat)
| room_once (r : nat) (name : string) (l : nat)
| room_send (r : nat) (event : string) (data : payload)
| room_leave (r : nat).
End Method.
Abbreviation method := Method.method.

Inductive input : Type :=
| Api (m : method)                          (* the application calls a method *)
| FromSocket (sock : nat) (n : notification) (* a socket notifies its listeners *)
| TimerFires (h : nat)                      (* a timeout or an interval is due *)
| RunImmediate                              (* the next [setImmediate] callback *)
| RunJobs.                                  (* the promise jobs *)

(** The state of [new RTC_Websocket(uri)]; the fields that only Websocket.ts
    declares have its initial values. *)
Definition new_conn (interval : Z) : conn :=
  Conn [] None interval "standby" true true new_emitter None None [] [] false
       20000 None [] 0 [] [] [] [].

(** ** What index.ts and Websocket.ts share

    The methods below read the same in both files, up to the name of the JSON
    key of the payload ([message] in index.ts, [data] in Websocket.ts) and the
    text of the log line. *)

Module Core.

Definition emit (e : effect) : M conn unit :=
  modify (fun c => set_trace (trace c ++ [e]) c).

(** *** The host *)

(** [new WebSocket(this.wsUri, [])] *)
Definition newWebSocket : M conn nat := fun c =>
  let sock := length (sockets c) in
  (set_trace (trace c ++ [Created sock]) (set_sockets (sockets c ++ [CONNECTING]) c),
   Returned sock).

(** [WebSocket.close()]: starts the closing handshake unless it has started. *)
Definition ws_close (sock : nat) : M conn unit :=
  modify (fun c => match sockets c !! sock with
                   | Some CONNECTING | Some OPEN =>
                       set_sockets (<[sock := CLOSING]> (sockets c)) c
                   | _ => c
                   end).

(** [this.websocket.close()] *)
Definition websocket_close : M conn unit :=
  (let* w := gets websocket in
   match w with
   | None => throw TypeError
   | Some sock => ws_close sock
   end)%js.

(** Modelled from the spec: the transport's [send(text)], which is the
    browser's and not in the repository; it "fails if not open". *)
Definition websocket_send (e : envelope) : M conn unit :=
  (let* w := gets websocket in
   match w with
   | None => throw TypeError
   | Some sock =>
       let* st := gets (fun c => sockets c !! sock) in
       match st with
       | Some OPEN => emit (Wire sock e)
       | _ => throw InvalidStateError
       end
   end)%js.

(** [setTimeout] / [setInterval] *)
Definition setTimer (k : timer) : M conn nat := fun c =>
  let h := next_timer c in
  (set_next_timer (S h) (set_timers (timers c ++ [(h, k)]) c), Returned h).

(** [clearTimeout] / [clearInterval]; an unset handle clears nothing. *)
Definition clearTimer (oh : option nat) : M conn unit :=
  modify (fun c => match oh with
                   | None => c
                   | Some h => set_timers (filter (fun t => t.1 ≠ h) (timers c)) c
                   end).

(** [new Promise(...)], before its executor runs *)
Definition newPromise : M conn nat := fun c =>
  (set_promises (promises c ++ [Promise Pending []]) c, Returned (length (promises c))).

(** [resolve(this)] and [reject(error)]: a settled promise stays as it is; the
    reactions of a fulfilled one go to the job queue. *)
Definition settle (p : nat) (ok : bool) : M conn unit := fun c =>
  match promises c !! p with
  | Some (Promise Pending rs) =>
      (set_trace (trace c ++ [Settled p ok])
         (set_jobs (jobs c ++ (if ok then rs else []))
            (set_promises (<[p := Promise (if ok then Fulfilled else Rejected) []]> (promises c)) c)),
       Returned tt)
  | _ => (c, Returned tt)
  end.

(** [promise.then(onFulfilled)] *)
Definition then_ (p : nat) (r : reaction) : M conn unit :=
  modify (fun c => match promises c !! p with
                   | Some (Promise Pending rs) =>
                       set_promises (<[p := Promise Pending (rs ++ [r])]> (promises c)) c
                   | Some (Promise Fulfilled _) => set_jobs (jobs c ++ [r]) c
                   | _ => c
                   end).

(** *** RTC_Websocket *)

Definition isOpened (c : conn) : bool := bool_decide (connectionState c = "open").

Definition getState (c : conn) : string := connectionState c.

(** [try { this.websocket.send(event); resolve(this) } catch (error) { reject(error) }] *)
Definition transmit (e : envelope) (p : nat) : M conn unit :=
  try_catch (websocket_send e ;;; settle p true)%js (fun _ => settle p false).

(** [send(event, message, receiver = {})]; the result is the promise. *)
Definition send (event : string) (message : payload) (receiver : option address)
  : M conn nat :=
  (let e := Envelope event message receiver in
   let* p := newPromise in
   let* opened := gets isOpened in
   (if opened then transmit e p
    else within eventEmitter set_eventEmitter
                (RTC_EventEmitter.once "open" (SendWhenOpen e p))) ;;;
   ret p)%js.

(** Running one listener of the connection's emitter. *)
Definition call (channel : string) (cv : convention) (l : listener) : M conn unit :=
  match l with
  | App id => emit (Fired ConnBus channel cv id)
  | SendWhenOpen e p => transmit e p
  | JoinOnOpen e => (send (e_event e) (e_payload e) (e_receiver e) ;;; ret tt)%js
  end.

(** [this.eventEmitter.dispatch(name, ...)] *)
Definition dispatch (name : string) : M conn unit :=
  RTC_EventEmitter.dispatch eventEmitter set_eventEmitter call name.

(** [this.eventEmitter.on(name, listener)] *)
Definition listen (name : string) (l : listener) : M conn unit :=
  within eventEmitter set_eventEmitter (RTC_EventEmitter.on name l).

(** *** RTC_Room *)

Definition room_emitter (r : nat) (c : conn) : emitter nat :=
  default new_emitter (r_eventEmitter <$> room_objects c !! r).

Definition set_room_emitter (r : nat) (em : emitter nat) (c : conn) : conn :=
  set_room_objects (alter (fun ro => Room (room_name ro) em) r (room_objects c)) c.

Definition room_call (r : nat) (channel : string) (cv : convention) (l : nat)
  : M conn unit :=
  emit (Fired (RoomBus r) channel cv l).

(** [room.emitEvent(name, event)] *)
Definition emitEvent (r : nat) (name : string) : M conn unit :=
  RTC_EventEmitter.dispatch (room_emitter r) (set_room_emitter r) (room_call r) name.

(** [room.on(name, listener)] and [room.once(name, listener)] *)
Definition room_on (r : nat) (name : string) (l : nat) : M conn unit :=
  within (room_emitter r) (set_room_emitter r) (RTC_EventEmitter.on name l).
Definition room_once (r : nat) (name : string) (l : nat) : M conn unit :=
  within (room_emitter r) (set_room_emitter r) (RTC_EventEmitter.once name l).

(** [room.send(event, data)] *)
Definition room_send (r : nat) (event : string) (data : payload) : M conn nat :=
  (let* objs := gets room_objects in
   match objs !! r with
   | Some ro => send event data (Some (Address "room" (room_name ro)))
   | None => throw TypeError
   end)%js.

(** The constructor of RTC_Room; [join] is ['join'] or ['room_join']. *)
Definition new_RTC_Room (join : string) (name : string) : M conn nat :=
  (let* r := (fun c => (set_room_objects (room_objects c ++ [Room name new_emitter]) c,
                        Returned (length (room_objects c)))) in
   let joinRoom := Envelope join (PText name) (Some (Address "room" name)) in
   let* opened := gets isOpened in
   (if opened then send (e_event joinRoom) (e_payload joinRoom) (e_receiver joinRoom) ;;; ret tt
    else listen "open" (JoinOnOpen joinRoom)) ;;;
   ret r)%js.

(** *** The room registry *)

(** [for (let i = 0; i < this.rooms.length; i++) { if (room.name === name) ... break }]:
    the index and the room of the first entry with that name. *)
Fixpoint scan (name : string) (objs : list room) (rs : list nat) (i : nat)
  : option (nat * nat) :=
  match rs with
  | [] => None
  | r :: rs' =>
      if bool_decide (room_name <$> objs !! r = Some name) then Some (i, r)
      else scan name objs rs' (S i)
  end.

Definition joinRoom (join : string) (name : string) : M conn nat :=
  (let* r := new_RTC_Room join name in
   modify (fun c => set_rooms (rooms c ++ [r]) c) ;;;
   ret r)%js.

(** [leaveRoom(name)]; [leave] and [data] are what [room.leave()] sends. *)
Definition leaveRoom (leave : string) (data : payload) (name : string) : M conn unit :=
  (let* c := gets (fun c => c) in
   match scan name (room_objects c) (rooms c) 0 with
   | Some (i, r) =>
       let* p := room_send r leave data in
       then_ p (Splice i)
   | None => ret tt
   end)%js.

Definition getRoom (name : string) (c : conn) : option nat :=
  snd <$> scan name (room_objects c) (rooms c) 0.

(** The block "Handle Room Events" of the constructor's message listener. *)
Definition room_events (event : wsevent) : M conn unit :=
  (match ev_receiver event with
   | None => throw TypeError
   | Some a =>
       if bool_decide (a_type a = "room") then
         let* c := gets (fun c => c) in
         match scan (a_id a) (room_objects c) (rooms c) 0 with
         | Some (_, r) => emitEvent r "all_events" ;;; emitEvent r (ev_event event)
         | None => ret tt
         end
       else ret tt
   end)%js.

(** One promise job: [() => this.rooms.splice(i, 1)]. *)
Definition run_job (r : reaction) : M conn unit :=
  match r with
  | Splice i => modify (fun c => set_rooms (delete i (rooms c)) c)
  end.

(** The job queue is emptied when the running callback returns. *)
Definition run_jobs : M conn unit :=
  (let* js := gets jobs in
   modify (set_jobs []) ;;;
   forEach run_job js)%js.

(** [JSON.parse] of a field that was encoded twice. *)
Definition parse_nested (o : option nested) : M conn unit :=
  match o with
  | Some NotJson => throw SyntaxError
  | _ => ret tt
  end.

Definition closeNativeWebsocketConnection : M conn unit :=
  (let* w := gets websocket in
   match w with
   | None => ret tt
   | Some sock =>
       let* st := gets (fun c => sockets c !! sock) in
       (if bool_decide (st = Some OPEN) then ws_close sock else ret tt) ;;;
       let* st' := gets (fun c => sockets c !! sock) in
       if bool_decide (st' = Some CONNECTING)
       then setTimer PollTimer ;;; ret tt
       else ret tt
   end)%js.

(** The callback of the interval set by closeNativeWebsocketConnection; it
    reads [this.websocket] when it runs. *)
Definition poll (h : nat) : M conn unit :=
  (let* w := gets websocket in
   match w with
   | None => throw TypeError
   | Some sock =>
       let* st := gets (fun c => sockets c !! sock) in
       if bool_decide (st = Some OPEN)
       then ws_close sock ;;; clearTimer (Some h)
       else ret tt
   end)%js.

Definition setReconnectionInterval (interval : Z) : M conn unit :=
  modify (set_reconnectionInterval interval).

Definition setAuthToken (token : string) : M conn unit :=
  modify (set_defaultAuthToken (Some token)).

End Core.

(** ** src/index.ts, class RTC_Websocket *)

Module Index.

Definition new_RTC_Websocket : conn := new_conn 5000.

Definition clearPingPongInterval : M conn unit :=
  (let* h := gets pingPongIntervalTimer in Core.clearTimer h)%js.

Definition closeConnection (reconnect : bool) : M conn unit :=
  ((if reconnect
    then modify (fun c => set_connectionState "internal_reconnection" (set_willReconnect true c))
    else ret tt) ;;;
   Core.websocket_close)%js.

Definition createSocket (isReconnecting : bool) : M conn unit :=
  ((if isReconnecting
    then modify (set_connectionState "reconnecting") ;;; Core.dispatch "reconnecting"
    else modify (set_connectionState "connecting") ;;; Core.dispatch "connecting") ;;;
   Core.closeNativeWebsocketConnection ;;;
   let* sock := Core.newWebSocket in
   modify (set_websocket (Some sock)))%js.

Definition reconnect : M conn unit :=
  (closeConnection true ;;;
   let* interval := gets reconnectionInterval in
   if bool_decide (interval ≠ 0%Z)
   then let* h := Core.setTimer ReconnectTimer in
        Core.emit (Scheduled h) ;;;
        modify (set_reconnectionTimeout (Some h))
   else ret tt)%js.

Definition connect : M conn unit := createSocket false.

Definition close : M conn unit :=
  (modify (set_willReconnect false) ;;;
   closeConnection false ;;;
   (let* h := gets reconnectionTimeout in Core.clearTimer h) ;;;
   clearPingPongInterval ;;;
   Core.dispatch "custom.disconnect")%js.

Definition changeState (stateName : string) : M conn unit :=
  (modify (set_connectionState stateName) ;;;
   let* will := gets willReconnect in
   (if bool_decide (stateName = "close") && will then reconnect else ret tt) ;;;
   Core.dispatch stateName)%js.

(** The listener that the constructor registers with [onMessage], the first
    listener of ['message']. *)
Definition router (event : wsevent) : M conn unit :=
  (if bool_decide (ev_event event ≠ "")
   then Core.dispatch "event" ;;;
        Core.dispatch (String.append "event." (ev_event event)) ;;;
        Core.room_events event
   else ret tt)%js.

(** [dispatch('message', [event])]: the constructor's listener was registered
    before any other, so it runs first; it is kept out of the dictionary. *)
Definition dispatch_message (event : wsevent) : M conn unit :=
  (router event ;;; Core.dispatch "message")%js.

(** The callback of the keepalive interval. *)
Definition ping : M conn unit :=
  (Core.send "ping" (PObject [("message", "ping")]) None ;;; ret tt)%js.

(** The four listeners that createSocket adds to the socket. *)
Definition on_open : M conn unit :=
  (let* token := gets defaultAuthToken in
   match token with
   | Some t => if bool_decide (t ≠ "")
               then Core.send "auth.token" (PText t) None ;;; ret tt
               else ret tt
   | None => ret tt
   end ;;;
   let* st := gets connectionState in
   (if bool_decide (st = "reconnecting") then Core.dispatch "reconnect" else ret tt) ;;;
   let* h := Core.setTimer PingTimer in
   modify (set_pingPongIntervalTimer (Some h)) ;;;
   changeState "open")%js.

Definition on_message (f : frame) : M conn unit :=
  (match f with
   | Garbled => throw SyntaxError
   | Json event =>
       if bool_decide (ev_event event = "pong") then ret tt
       else match ev_sender event with
            | None => throw TypeError
            | Some sd =>
                Core.parse_nested (s_info sd) ;;;
                Core.parse_nested (ev_user_info event) ;;;
                dispatch_message event
            end
   end)%js.

Definition on_close : M conn unit :=
  (clearPingPongInterval ;;; changeState "close")%js.

Definition on_error : M conn unit := changeState "error".

Definition leave (r : nat) : M conn nat := Core.room_send r "leave" PNull.

Definition api (m : method) : M conn unit :=
  match m with
  | Method.connect => connect
  | Method.close => close
  | Method.reconnect => reconnect
  | Method.send event data receiver => (Core.send event data receiver ;;; ret tt)%js
  | Method.joinRoom name => (Core.joinRoom "join" name ;;; ret tt)%js
  | Method.leaveRoom name => Core.leaveRoom "leave" PNull name
  | Method.setReconnectionInterval interval => Core.setReconnectionInterval interval
  | Method.setAuthToken token => Core.setAuthToken token
  | Method.setPingPongInterval ms => modify (set_pingPongInterval ms)
  | Method.enableClientPing => throw TypeError
  | Method.subscribe k l => Core.listen (channel k) (App l)
  | Method.room_on r name l => Core.room_on r name l
  | Method.room_once r name l => Core.room_once r name l
  | Method.room_send r event data => (Core.room_send r event data ;;; ret tt)%js
  | Method.room_leave r => (leave r ;;; ret tt)%js
  end.

Definition notify (sock : nat) (n : notification) : M conn unit :=
  (let* st := gets (fun c => sockets c !! sock) in
   match st with
   | None => ret tt
   | Some _ =>
       match n with
       | NOpen => modify (fun c => set_sockets (<[sock := OPEN]> (sockets c)) c) ;;; on_open
       | NMessage f => on_message f
       | NClose => modify (fun c => set_sockets (<[sock := CLOSED]> (sockets c)) c) ;;; on_close
       | NError => on_error
       end
   end)%js.

Definition fire (h : nat) : M conn unit :=
  (let* ts := gets timers in
   match (list_find (fun t => t.1 = h) ts) with
   | Some (_, (_, ReconnectTimer)) => Core.clearTimer (Some h) ;;; createSocket true
   | Some (_, (_, PingTimer)) => ping
   | Some (_, (_, PollTimer)) => Core.poll h
   | None => ret tt
   end)%js.

Definition step (i : input) : M conn unit :=
  match i with
  | Api m => api m
  | FromSocket sock n => notify sock n
  | TimerFires h => fire h
  | RunImmediate => ret tt
  | RunJobs => Core.run_jobs
  end.

(** A run: an exception ends the callback it was thrown in and the next input
    is served. *)
Definition run (inputs : list input) (c : conn) : conn :=
  foldl (fun c i => (step i c).1) c inputs.

End Index.

(** ** src/src/Websocket.ts, class RTC_Websocket *)

Module WebsocketTs.

Definition new_RTC_Websocket : conn := new_conn 5000.

Definition sendToSystem (event : string) (data : payload) : M conn nat :=
  Core.send event data (Some (Address "system" "system")).

Definition startPingPong : M conn unit :=
  (let* h := Core.setTimer PingTimer in
   modify (set_pingPongIntervalTimer (Some h)))%js.

Definition stopPingPong : M conn unit :=
  (let* h := gets pingPongIntervalTimer in Core.clearTimer h)%js.

Definition stopReconnectionTimeout : M conn unit :=
  (let* h := gets reconnectionTimeout in Core.clearTimer h)%js.

(** [room.leave(reason = 'conn_close')] *)
Definition leave (r : nat) : M conn nat :=
  Core.room_send r "room_leave" (PObject [("reason", "conn_close")]).

Definition closeConnection (reconnect : bool) (reason : string) : M conn unit :=
  ((if reconnect
    then modify (fun c => set_connectionState "internal_reconnection" (set_willReconnect true c))
    else ret tt) ;;;
   let* opened := gets Core.isOpened in
   (if opened then sendToSystem "conn_close" (PObject [("reason", reason)]) ;;; ret tt
    else ret tt) ;;;
   modify (fun c => set_immediates (immediates c ++ [CloseSocket]) c))%js.

Definition createSocket (isReconnecting : bool) : M conn unit :=
  ((if isReconnecting
    then modify (set_connectionState "reconnecting") ;;; Core.dispatch "reconnecting"
    else modify (set_connectionState "connecting") ;;; Core.dispatch "connecting") ;;;
   Core.closeNativeWebsocketConnection ;;;
   let* sock := Core.newWebSocket in
   modify (set_websocket (Some sock)))%js.

Definition reconnect : M conn unit :=
  (let* can := gets canReconnect in
   if can : bool
   then closeConnection true "general" ;;;
        let* interval := gets reconnectionInterval in
        if bool_decide (interval ≠ 0%Z)
        then let* h := Core.setTimer ReconnectTimer in
             Core.emit (Scheduled h) ;;;
             modify (set_reconnectionTimeout (Some h))
        else ret tt
   else ret tt)%js.

Definition connect : M conn unit := createSocket false.

Definition close : M conn unit :=
  (modify (set_willReconnect false) ;;;
   stopPingPong ;;;
   stopReconnectionTimeout ;;;
   (let* rs := gets rooms in forEach (fun r => leave r ;;; ret tt) rs) ;;;
   modify (fun c => set_immediates (immediates c ++ [Disconnect]) c))%js.

(** The callbacks handed to [setImmediate]. *)
Definition run_task (t : task) : M conn unit :=
  match t with
  | CloseSocket => Core.websocket_close
  | Disconnect => (closeConnection false "general" ;;; Core.dispatch "custom.disconnect")%js
  end.

Definition changeState (stateName : string) : M conn unit :=
  (modify (set_connectionState stateName) ;;;
   let* will := gets willReconnect in
   (if bool_decide (stateName = "close") && will then reconnect else ret tt) ;;;
   Core.dispatch stateName)%js.

Definition setPingPongInterval (ms : Z) : M conn unit :=
  (modify (set_pingPongInterval ms) ;;;
   stopPingPong ;;;
   let* c := gets (fun c => c) in
   if isClientPingEnabled c && Core.isOpened c then startPingPong else ret tt)%js.

Definition enableClientPing : M conn unit := modify (set_isClientPingEnabled true).

(** The listener that the constructor registers with [onMessage]. Its log line
    reads [event.data.reason]. *)
Definition router (event : wsevent) : M conn unit :=
  (if bool_decide (ev_event event ≠ "")
   then Core.dispatch "event" ;;;
        Core.dispatch (String.append "event." (ev_event event)) ;;;
        if bool_decide (ev_event event = "conn.rejected")
        then stopPingPong ;;;
             stopReconnectionTimeout ;;;
             modify (set_canReconnect false) ;;;
             match ev_data event with
             | None => throw TypeError
             | Some _ => ret tt
             end
        else Core.room_events event
   else ret tt)%js.

Definition dispatch_message (event : wsevent) : M conn unit :=
  (router event ;;; Core.dispatch "message")%js.

Definition ping : M conn unit :=
  (sendToSystem "ping" (PObject [("message", "ping")]) ;;; ret tt)%js.

Definition on_open : M conn unit :=
  (let* token := gets defaultAuthToken in
   match token with
   | Some t => if bool_decide (t ≠ "")
               then Core.send "auth.token" (PText t) None ;;; ret tt
               else ret tt
   | None => ret tt
   end ;;;
   let* st := gets connectionState in
   (if bool_decide (st = "reconnecting") then Core.dispatch "reconnect" else ret tt) ;;;
   let* enabled := gets isClientPingEnabled in
   (if enabled : bool then startPingPong else ret tt) ;;;
   changeState "open")%js.

Definition on_message (f : frame) : M conn unit :=
  (match f with
   | Garbled => throw SyntaxError
   | Json event =>
       if bool_decide (ev_event event = "pong") then ret tt
       else if bool_decide (ev_event event = "ping")
       then sendToSystem "pong" (PObject [("message", "pong")]) ;;; ret tt
       else match ev_sender event with
            | None => throw TypeError
            | Some sd =>
                Core.parse_nested (s_info sd) ;;;
                Core.parse_nested (ev_user_info event) ;;;
                dispatch_message event
            end
   end)%js.

Definition on_close : M conn unit :=
  (stopPingPong ;;; changeState "close")%js.

Definition on_error : M conn unit := changeState "error".

Definition api (m : method) : M conn unit :=
  match m with
  | Method.connect => connect
  | Method.close => close
  | Method.reconnect => reconnect
  | Method.send event data receiver => (Core.send event data receiver ;;; ret tt)%js
  | Method.joinRoom name => (Core.joinRoom "room_join" name ;;; ret tt)%js
  | Method.leaveRoom name =>
      Core.leaveRoom "room_leave" (PObject [("reason", "conn_close")]) name
  | Method.setReconnectionInterval interval => Core.setReconnectionInterval interval
  | Method.setAuthToken token => Core.setAuthToken token
  | Method.setPingPongInterval ms => setPingPongInterval ms
  | Method.enableClientPing => enableClientPing
  | Method.subscribe k l => Core.listen (channel k) (App l)
  | Method.room_on r name l => Core.room_on r name l
  | Method.room_once r name l => Core.room_once r name l
  | Method.room_send r event data => (Core.room_send r event data ;;; ret tt)%js
  | Method.room_leave r => (leave r ;;; ret tt)%js
  end.

Definition notify (sock : nat) (n : notification) : M conn unit :=
  (let* st := gets (fun c => sockets c !! sock) in
   match st with
   | None => ret tt
   | Some _ =>
       match n with
       | NOpen => modify (fun c => set_sockets (<[sock := OPEN]> (sockets c)) c) ;;; on_open
       | NMessage f => on_message f
       | NClose => modify (fun c => set_sockets (<[sock := CLOSED]> (sockets c)) c) ;;; on_close
       | NError => on_error
       end
   end)%js.

Definition fire (h : nat) : M conn unit :=
  (let* ts := gets timers in
   match (list_find (fun t => t.1 = h) ts) with
   | Some (_, (_, ReconnectTimer)) => Core.clearTimer (Some h) ;;; createSocket true
   | Some (_, (_, PingTimer)) => ping
   | Some (_, (_, PollTimer)) => Core.poll h
   | None => ret tt
   end)%js.

Definition run_immediate : M conn unit :=
  (let* q := gets immediates in
   match q with
   | [] => ret tt
   | t :: q' => modify (set_immediates q') ;;; run_task t
   end)%js.

Definition step (i : input) : M conn unit :=
  match i with
  | Api m => api m
  | FromSocket sock n => notify sock n
  | TimerFires h => fire h
  | RunImmediate => run_immediate
  | RunJobs => Core.run_jobs
  end.

Definition run (inputs : list input) (c : conn) : conn :=
  foldl (fun c i => (step i c).1) c inputs.

End WebsocketTs.

(** ** Observations on a trace *)

(** The reconnect timers set, the promises settled and the listeners called,
    in the order of the trace. *)
Definition scheduled (t : list effect) : list nat :=
  omap (fun e => match e with Scheduled h => Some h | _ => None end) t.

Definition settled (t : list effect) : list nat :=
  omap (fun e => match e with Settled p _ => Some p | _ => None end) t.

Definition fired (t : list effect) : list (bus * string * nat) :=
  omap (fun e => match e with Fired b ch _ l => Some (b, ch, l) | _ => None end) t.

Definition wired (t : list effect) : list (nat * envelope) :=
  omap (fun e => match e with Wire sock e => Some (sock, e) | _ => None end) t.

(** The live reconnect timers. *)
Definition reconnect_timers (c : conn) : list nat :=
  omap (fun t : nat * timer => match t.2 with ReconnectTimer => Some t.1 | _ => None end)
       (timers c).

(** What a computation appended to the trace. *)
Definition added (c c' : conn) : list effect := drop (length (trace c)) (trace c').

(** ** Predicates of the statements *)

(** [l] is registered nowhere. *)
Definition unknown (l : nat) (em : emitter nat) : Prop :=
  (∀ n ls, on_ em !! n = Some ls → l ∉ ls) ∧ (∀ n ls, once_ em !! n = Some ls → l ∉ ls).

(** [l] is registered once, as the last one-shot listener of [name]. *)
Definition armed (name : string) (l : nat) (em : emitter nat) : Prop :=
  (∀ n ls, on_ em !! n = Some ls → l ∉ ls)
  ∧ (∀ n ls, n ≠ name → once_ em !! n = Some ls → l ∉ ls)
  ∧ ∃ ls, once_ em !! name = Some (ls ++ [l]) ∧ l ∉ ls.

(** A registration on an emitter: [on(name, l)] or [once(name, l)]. *)
Inductive registration : Type := RegOn (l : nat) | RegOnce (l : nat).

Definition register (name : string) (r : registration) : M Bus.st unit :=
  match r with
  | RegOn l => Bus.on name l
  | RegOnce l => Bus.once name l
  end.

(** The listeners of a list of registrations, by kind, in the order of the list. *)
Definition persistent (rs : list registration) : list nat :=
  omap (fun r => match r with RegOn l => Some l | RegOnce _ => None end) rs.
Definition one_shot (rs : list registration) : list nat :=
  omap (fun r => match r with RegOnce l => Some l | RegOn _ => None end) rs.

(** [l] is registered once, as the last persistent listener of [name]. *)
Definition listening (name : string) (l : nat) (em : emitter nat) : Prop :=
  (∀ n ls, once_ em !! n = Some ls → l ∉ ls)
  ∧ (∀ n ls, n ≠ name → on_ em !! n = Some ls → l ∉ ls)
  ∧ ∃ ls, on_ em !! name = Some (ls ++ [l]) ∧ l ∉ ls.

(** Dispatching a list of names, one after the other. *)
Definition dispatch_all (names : list string) (s : Bus.st) : Bus.st :=
  foldl (fun s n => (Bus.dispatch n s).1) s names.


(** The fields that decide about reconnection are the same in [c] and [c'],
    and no reconnect timer was set in between. *)
Record calm (c c' : conn) : Prop := Calm {
  calm_will : willReconnect c' = willReconnect c;
  calm_can : canReconnect c' = canReconnect c;
  calm_interval : reconnectionInterval c' = reconnectionInterval c;
  calm_timers : timers c' = timers c;
  calm_next : next_timer c' = next_timer c;
  calm_handle : reconnectionTimeout c' = reconnectionTimeout c;
  calm_ping : pingPongIntervalTimer c' = pingPongIntervalTimer c;
  calm_enabled : isClientPingEnabled c' = isClientPingEnabled c;
  calm_scheduled : scheduled (trace c') = scheduled (trace c);
  calm_trace : trace c `prefix_of` trace c'
}.

(** Starting from a state where [P] holds, [P] still holds in [c'], no
    reconnect timer was set on the way and no reconnect timer is live that was
    not live before. *)
Definition quiet (P : conn → Prop) (c c' : conn) : Prop :=
  P c →
  P c' ∧ scheduled (trace c') = scheduled (trace c)
  ∧ trace c `prefix_of` trace c'
  ∧ reconnect_timers c' `sublist_of` reconnect_timers c.

(** [P] reads nothing but the three fields that gate a reconnection. *)
Definition gate (P : conn → Prop) : Prop :=
  ∀ c c', willReconnect c' = willReconnect c → canReconnect c' = canReconnect c →
          reconnectionInterval c' = reconnectionInterval c → P c → P c'.

(** [m] leaves every state in relation [R] with the state it ends in. *)
Definition keeps (R : relation conn) {A} (m : M conn A) : Prop :=
  ∀ c, R c (m c).1.

(** What may switch reconnection off: [willReconnect] is false (when [w]),
    [canReconnect] is false (when [cr]), the interval is zero (when [z]). *)
Definition locked (w cr z : bool) (c : conn) : Prop :=
  (w → willReconnect c = false) ∧ (cr → canReconnect c = false)
  ∧ (z → reconnectionInterval c = 0%Z).

(** The inputs that do not undo [locked w _ z] in index.ts: no [reconnect()]
    when it rests on [willReconnect], no new interval when it rests on the
    interval. *)
Definition allowed (w z : bool) (i : input) : Prop :=
  match i with
  | Api Method.reconnect => w = false
  | Api (Method.setReconnectionInterval v) => z = false ∨ v = 0%Z
  | _ => True
  end.

(** What one [dispatch(name)] on the emitter [em] of room [r] adds to the
    trace, and the emitter it leaves. *)
Definition dispatched (r : nat) (name : string) (em : emitter nat) : list effect :=
  map (Fired (RoomBus r) name Spread) (default [] (on_ em !! name))
  ++ map (Fired (RoomBus r) name Aggregate) (default [] (once_ em !! name)).

Definition after_dispatch {L} (name : string) (em : emitter L) : emitter L :=
  Emitter (on_ em) (delete name (once_ em)).

(** Room [r] of the heap has the name [name]. *)
Definition named (c : conn) (name : string) (r : nat) : Prop :=
  room_name <$> room_objects c !! r = Some name.

(** The calls of [t] that reached a listener of a room. *)
Definition room_fired (t : list effect) : list (nat * string * nat) :=
  omap (fun e => match e with
                 | Fired (RoomBus r) ch _ l => Some (r, ch, l)
                 | _ => None
                 end) t.

(** [c'] has the rooms of [c], and no listener of a room ran in between. *)
Definition rooms_untouched (c c' : conn) : Prop :=
  rooms c' = rooms c ∧ room_objects c' = room_objects c
  ∧ ∃ t, trace c' = trace c ++ t ∧ room_fired t = [].

(** [c'] has the state name, the current socket and the sockets of [c]. *)
Definition anchored (c c' : conn) : Prop :=
  connectionState c' = connectionState c ∧ websocket c' = websocket c
  ∧ sockets c' = sockets c.

(** [c'] has the current socket and the sockets of [c], and the timers of [c]
    are still live, before any timer set since. *)
Definition moored (c c' : conn) : Prop :=
  websocket c' = websocket c ∧ sockets c' = sockets c
  ∧ timers c `prefix_of` timers c'.

(** The envelopes that a listener of the connection writes when it is called
    on an open connection: the closures of [send] and of the RTC_Room
    constructor write theirs, a callback of the application writes none. *)
Definition wire_of (l : listener) : list envelope :=
  match l with
  | App _ => []
  | SendWhenOpen e _ => [e]
  | JoinOnOpen e => [e]
  end.

(** Every listener of [name] is a callback of the application. *)
Definition plain (name : string) (c : conn) : Prop :=
  ∀ l, l ∈ default [] (on_ (eventEmitter c) !! name)
           ++ default [] (once_ (eventEmitter c) !! name) →
       ∃ id, l = App id.

(** The envelope that the open listener sends for the token, if one is set. *)
Definition auth_envelope (c : conn) : list envelope :=
  match defaultAuthToken c with
  | Some t => if bool_decide (t ≠ "") then [Envelope "auth.token" (PText t) None] else []
  | None => []
  end.

(** Between [c] and [c'] nothing was written to a socket, and the state name,
    the sockets and the listeners of ['open'] are the same. *)
Definition silent (c c' : conn) : Prop :=
  anchored c c'
  ∧ on_ (eventEmitter c') !! "open" = on_ (eventEmitter c) !! "open"
  ∧ once_ (eventEmitter c') !! "open" = once_ (eventEmitter c) !! "open"
  ∧ ∃ t, trace c' = trace c ++ t ∧ wired t = [].

(** The callbacks of the application among the listeners of a list. *)
Definition app_ids (ls : list listener) : list nat :=
  omap (fun l => match l with App id => Some id | _ => None end) ls.

(** What [dispatch(name)] on the connection's emitter adds to the trace when
    the listeners of [name] are callbacks of the application. *)
Definition calls (name : string) (c : conn) : list effect :=
  map (Fired ConnBus name Spread) (app_ids (default [] (on_ (eventEmitter c) !! name)))
  ++ map (Fired ConnBus name Aggregate)
       (app_ids (default [] (once_ (eventEmitter c) !! name))).

(** What the routing block adds to the trace for a frame addressed to [a]. *)
Definition room_calls (event : wsevent) (a : address) (c : conn) : list effect :=
  if bool_decide (a_type a = "room")
  then match Core.scan (a_id a) (room_objects c) (rooms c) 0 with
       | Some (_, r) =>
           dispatched r "all_events" (Core.room_emitter r c)
           ++ dispatched r (ev_event event)
                (after_dispatch "all_events" (Core.room_emitter r c))
       | None => []
       end
  else [].

(** The envelopes that [room.leave()] of Websocket.ts sends for the rooms of a
    registry, in the order of the registry. *)
Definition leave_envelopes (c : conn) : list envelope :=
  omap (fun r => (fun ro => Envelope "room_leave" (PObject [("reason", "conn_close")])
                              (Some (Address "room" (room_name ro))))
                 <$> room_objects c !! r) (rooms c).

(** Every entry of the registry refers to a room object that exists. *)
Definition registry_ok (c : conn) : Prop :=
  Forall (fun r => r < length (room_objects c)) (rooms c).

(** The socket that [this.websocket.send] can write to, if there is one. *)
Definition live_socket (c : conn) : option nat :=
  match websocket c with
  | Some sock => if bool_decide (sockets c !! sock = Some OPEN) then Some sock else None
  | None => None
  end.

(** The envelope that answers a server ping. *)
Definition pong : envelope :=
  Envelope "pong" (PObject [("message", "pong")]) (Some (Address "system" "system")).

(** The promise of a listener that [send] registered. *)
Definition send_promise (l : listener) : option nat :=
  match l with
  | SendWhenOpen _ p => Some p
  | _ => None
  end.

(** No listener of [ls] was registered by [send]. *)
Definition no_send (ls : list listener) : Prop := omap send_promise ls = [].

(** The promises of the sends that wait for ['open'], in the order of the
    one-shot list. *)
Definition queued (c : conn) : list nat :=
  omap send_promise (default [] (once_ (eventEmitter c) !! "open")).

Definition pending (c : conn) (p : nat) : Prop :=
  p_state <$> promises c !! p = Some Pending.

(** The sends [ps] wait for ['open']: the closures of [send] are one-shot
    listeners of ['open'] and nothing else, their promises exist and differ,
    and those of [ps] are in the queue, in this order, and pending. With
    [ps = []] this is what every state of a run satisfies. *)
Record waiting (ps : list nat) (c : conn) : Prop := Waiting {
  w_on : ∀ name ls, on_ (eventEmitter c) !! name = Some ls → no_send ls;
  w_once : ∀ name ls, name ≠ "open" → once_ (eventEmitter c) !! name = Some ls → no_send ls;
  w_bound : Forall (fun p => p < length (promises c)) (queued c);
  w_nodup : NoDup (queued c);
  w_sub : ps `sublist_of` queued c;
  w_pending : Forall (pending c) ps
}.

(** From a state where [ps] wait, [m] leads to a state where they still wait,
    and it settles none of them. *)
Definition holds_back (ps : list nat) (c c' : conn) : Prop :=
  waiting ps c →
  waiting ps c' ∧ ∃ t, trace c' = trace c ++ t ∧ filter (.∈ ps) (settled t) = [].

(** From a state where [ps] wait, [m] settles them, in this order, and leaves
    no send in the queue. *)
Definition flushes (ps : list nat) {A} (m : M conn A) : Prop :=
  ∀ c, waiting ps c →
       waiting [] (m c).1
       ∧ ∃ t, trace (m c).1 = trace c ++ t ∧ filter (.∈ ps) (settled t) = ps.

(** The listeners of [c'] are those of [c], the one-shot listeners of ['open']
    apart. *)
Definition same_listeners (c c' : conn) : Prop :=
  on_ (eventEmitter c') = on_ (eventEmitter c)
  ∧ ∀ name, name ≠ "open" →
      once_ (eventEmitter c') !! name = once_ (eventEmitter c) !! name.

(** [m] does not throw. *)
Definition returns {A} (m : M conn A) : Prop :=
  ∀ c, ∃ a, (m c).2 = Returned a.

(** Any input but the ['open'] notification of a socket. *)
Definition not_open (i : input) : Prop :=
  match i with
  | FromSocket _ NOpen => False
  | _ => True
  end.

(** [send] called for each envelope of a list, in turn. *)
Fixpoint send_all (msgs : list envelope) : M conn (list nat) :=
  match msgs with
  | [] => ret []
  | e :: msgs' =>
      (let* p := Core.send (e_event e) (e_payload e) (e_receiver e) in
       let* ps := send_all msgs' in
       ret (p :: ps))%js
  end.

(** A [conn.rejected] frame as the server sends it. *)
Definition rejected : wsevent :=
  WSEvent "conn.rejected" (Some (PObject [("reason", "banned")]))
          (Some (Sender "server" "server" None)) (Some (Address "server" "server")) None.

(** A frame decodes and passes the two nested [JSON.parse] calls. *)
Definition decodes (event : wsevent) : Prop :=
  ∃ sd, ev_sender event = Some sd ∧ s_info sd ≠ Some NotJson
        ∧ ev_user_info event ≠ Some NotJson.

(** Every live timer handle is below the next handle to be given out. *)
Definition timers_fresh (c : conn) : Prop :=
  Forall (fun t : nat * timer => t.1 < next_timer c) (timers c).


(** * Properties *)

(** ** The listener registry *)

(** [on] and [once] return unless the name is one that [Object.prototype] has
    and the dictionary does not own; then they throw and register nothing. *)
Lemma on_returns {L} name (l : L) em :
  inherited name = false ∨ is_Some (on_ em !! name) →
  RTC_EventEmitter.on name l em = (pushed_on name l em, Returned tt).
Proof.
  intros H. unfold RTC_EventEmitter.on, pushed_on, read.
  destruct (on_ em !! name) as [ls|] eqn:E; simpl.
  - by rewrite E.
  - destruct H as [->|[? ?]]; [|done]. simpl.
    rewrite lookup_insert_eq. simpl. by rewrite insert_insert_eq.
Qed.

Lemma on_throws {L} name (l : L) em :
  inherited name = true → on_ em !! name = None →
  RTC_EventEmitter.on name l em = (em, Thrown TypeError).
Proof.
  intros Hi E. unfold RTC_EventEmitter.on, read. rewrite E, Hi. simpl. by rewrite E.
Qed.

Lemma once_returns {L} name (l : L) em :
  inherited name = false ∨ is_Some (once_ em !! name) →
  RTC_EventEmitter.once name l em = (pushed_once name l em, Returned tt).
Proof.
  intros H. unfold RTC_EventEmitter.once, pushed_once, read.
  destruct (once_ em !! name) as [ls|] eqn:E; simpl.
  - by rewrite E.
  - destruct H as [->|[? ?]]; [|done]. simpl.
    rewrite lookup_insert_eq. simpl. by rewrite insert_insert_eq.
Qed.

Lemma once_throws {L} name (l : L) em :
  inherited name = true → once_ em !! name = None →
  RTC_EventEmitter.once name l em = (em, Thrown TypeError).
Proof.
  intros Hi E. unfold RTC_EventEmitter.once, read. rewrite E, Hi. simpl. by rewrite E.
Qed.

Lemma on_cases {L} name (l : L) em :
  RTC_EventEmitter.on name l em = (pushed_on name l em, Returned tt)
  ∨ RTC_EventEmitter.on name l em = (em, Thrown TypeError).
Proof.
  destruct (inherited name) eqn:Hi; [|left; apply on_returns; by left].
  destruct (on_ em !! name) eqn:E; [left; apply on_returns; right; eauto|].
  right. by apply on_throws.
Qed.

Lemma once_cases {L} name (l : L) em :
  RTC_EventEmitter.once name l em = (pushed_once name l em, Returned tt)
  ∨ RTC_EventEmitter.once name l em = (em, Thrown TypeError).
Proof.
  destruct (inherited name) eqn:Hi; [|left; apply once_returns; by left].
  destruct (once_ em !! name) eqn:E; [left; apply once_returns; right; eauto|].
  right. by apply once_throws.
Qed.

(** The names under which the connection registers listeners are not
    inherited ones. *)
Lemma inherited_channel k : inherited (channel k) = false.
Proof. by destruct k. Qed.

Lemma within_eq {S T A} (get : S → T) (set : T → S → S) (m : M T A) s t r :
  m (get s) = (t, r) → within get set m s = (set t s, r).
Proof. intros H. unfold within. by rewrite H. Qed.

(** Neither [on] nor [once] stores a property under an inherited name that
    the dictionary does not own yet: [hasOwnProperty] in [dispatch] stays the
    one of [Object.prototype]. *)
Lemma on_owns_no_inherited_name {L} name (l : L) em n :
  inherited n = true → on_ em !! n = None →
  on_ (RTC_EventEmitter.on name l em).1 !! n = None.
Proof.
  intros Hi Hn. destruct (decide (n = name)) as [->|Hne].
  - by rewrite on_throws.
  - destruct (on_cases name l em) as [->| ->]; [|done].
    simpl. by rewrite lookup_insert_ne.
Qed.

Lemma once_owns_no_inherited_name {L} name (l : L) em n :
  inherited n = true → once_ em !! n = None →
  once_ (RTC_EventEmitter.once name l em).1 !! n = None.
Proof.
  intros Hi Hn. destruct (decide (n = name)) as [->|Hne].
  - by rewrite once_throws.
  - destruct (once_cases name l em) as [->| ->]; [|done].
    simpl. by rewrite lookup_insert_ne.
Qed.

Section BusFacts.
Implicit Types (em : emitter nat) (log : list Bus.call_record) (l : nat).

Lemma forEach_call name cv (ls : list nat) em log :
  forEach (Bus.call name cv) ls (em, log)
  = ((em, log ++ map (Bus.Call name cv) ls), Returned tt).
Proof.
  revert log. induction ls as [|l ls IH]; intros log; simpl.
  - by rewrite app_nil_r.
  - unfold bind at 1. simpl. rewrite IH. by rewrite <- app_assoc.
Qed.

(** What one dispatch does to an emitter with opaque callbacks. *)
Lemma Bus_dispatch_eq name em log :
  Bus.dispatch name (em, log)
  = ((Emitter (on_ em) (delete name (once_ em)),
      log ++ map (Bus.Call name Spread) (default [] (on_ em !! name))
          ++ map (Bus.Call name Aggregate) (default [] (once_ em !! name))),
     Returned tt).
Proof.
  unfold Bus.dispatch, RTC_EventEmitter.dispatch, bind, gets, modify, ret. simpl.
  destruct (on_ em !! name) as [ls|] eqn:Hon; simpl.
  - rewrite forEach_call. simpl.
    destruct (once_ em !! name) as [os|] eqn:Hon1; simpl.
    + rewrite forEach_call. simpl. by rewrite <- app_assoc.
    + rewrite delete_id by done. rewrite app_nil_r. by destruct em.
  - destruct (once_ em !! name) as [os|] eqn:Hon1; simpl.
    + rewrite forEach_call. by simpl.
    + rewrite delete_id by done. rewrite app_nil_r. by destruct em.
Qed.

Lemma calls_of_app l log1 log2 :
  Bus.calls_of l (log1 ++ log2) = Bus.calls_of l log1 + Bus.calls_of l log2.
Proof. unfold Bus.calls_of. by rewrite filter_app, length_app. Qed.

Lemma calls_of_map_absent l name cv (ls : list nat) :
  l ∉ ls → Bus.calls_of l (map (Bus.Call name cv) ls) = 0.
Proof.
  unfold Bus.calls_of. induction ls as [|x ls IH]; intros Hl; [done|].
  apply not_elem_of_cons in Hl as [Hx Hls]. simpl.
  rewrite filter_cons_False by (simpl; congruence). by apply IH.
Qed.

Lemma calls_of_map_last l name cv (ls : list nat) :
  l ∉ ls → Bus.calls_of l (map (Bus.Call name cv) (ls ++ [l])) = 1.
Proof.
  intros Hl. rewrite map_app, calls_of_app, calls_of_map_absent by done.
  unfold Bus.calls_of. simpl. by rewrite filter_cons_True.
Qed.

Lemma once_arms name l em :
  unknown l em → armed name l (pushed_once name l em).
Proof.
  intros [Hon Honce]. unfold pushed_once. repeat split; simpl; [done| |].
  - intros n ls' Hn. rewrite lookup_insert_ne by done. apply Honce.
  - exists (default [] (once_ em !! name)). rewrite lookup_insert_eq. split; [done|].
    destruct (once_ em !! name) eqn:E; simpl; [by eapply Honce|apply not_elem_of_nil].
Qed.

Lemma dispatch_unknown n l em log :
  unknown l em →
  unknown l (Bus.dispatch n (em, log)).1.1
  ∧ Bus.calls_of l (Bus.dispatch n (em, log)).1.2 = Bus.calls_of l log.
Proof.
  intros [Hon Honce]. rewrite Bus_dispatch_eq. simpl. split.
  - split; [done|]. intros m ls Hm. simpl in Hm.
    apply lookup_delete_Some in Hm as [_ Hm]. by eapply Honce.
  - rewrite !calls_of_app, !calls_of_map_absent; [lia| |].
    + destruct (once_ em !! n) eqn:E; simpl; [by eapply Honce|apply not_elem_of_nil].
    + destruct (on_ em !! n) eqn:E; simpl; [by eapply Hon|apply not_elem_of_nil].
Qed.

Lemma dispatch_armed_other n name l em log :
  n ≠ name → armed name l em →
  armed name l (Bus.dispatch n (em, log)).1.1
  ∧ Bus.calls_of l (Bus.dispatch n (em, log)).1.2 = Bus.calls_of l log.
Proof.
  intros Hn (Hon & Hother & ls & Hls & Hl). rewrite Bus_dispatch_eq. simpl. split.
  - repeat split; [done| |].
    + intros m ls' Hm Hlk. simpl in Hlk.
      apply lookup_delete_Some in Hlk as [_ Hlk]. by eapply Hother.
    + exists ls. simpl. by rewrite lookup_delete_ne.
  - rewrite !calls_of_app, !calls_of_map_absent; [lia| |].
    + destruct (once_ em !! n) eqn:E; simpl; [by eapply Hother|apply not_elem_of_nil].
    + destruct (on_ em !! n) eqn:E; simpl; [by eapply Hon|apply not_elem_of_nil].
Qed.

Lemma dispatch_armed_same name l em log :
  armed name l em →
  unknown l (Bus.dispatch name (em, log)).1.1
  ∧ Bus.calls_of l (Bus.dispatch name (em, log)).1.2 = S (Bus.calls_of l log).
Proof.
  intros (Hon & Hother & ls & Hls & Hl). rewrite Bus_dispatch_eq. simpl. split.
  - split; [done|]. intros m ls' Hlk. simpl in Hlk.
    apply lookup_delete_Some in Hlk as [Hm Hlk]. by eapply Hother.
  - rewrite Hls. simpl. rewrite !calls_of_app, calls_of_map_last by done.
    rewrite calls_of_map_absent; [lia|].
    destruct (on_ em !! name) eqn:E; simpl; [by eapply Hon|apply not_elem_of_nil].
Qed.

Lemma dispatch_all_cons n names (s : Bus.st) :
  dispatch_all (n :: names) s = dispatch_all names (Bus.dispatch n s).1.
Proof. done. Qed.

Lemma dispatch_all_unknown names l em log :
  unknown l em → Bus.calls_of l (dispatch_all names (em, log)).2 = Bus.calls_of l log.
Proof.
  revert em log. induction names as [|n names IH]; intros em log Hu; [done|].
  rewrite dispatch_all_cons. destruct (dispatch_unknown n l em log Hu) as [Hu' Hc].
  destruct (Bus.dispatch n (em, log)) as [[em' log'] r]. simpl in *.
  by rewrite IH.
Qed.

(** In RTC_EventEmitter a listener registered with [once] is called at most
    once, whatever is dispatched afterwards, and exactly once if its name is
    dispatched. *)
Lemma RTC_EventEmitter_once_at_most_once names name l em log :
  unknown l em →
  Bus.calls_of l (dispatch_all names (pushed_once name l em, log)).2
  = Bus.calls_of l log + (if bool_decide (name ∈ names) then 1 else 0).
Proof.
  intros Hu. apply (once_arms name) in Hu.
  revert Hu. generalize (pushed_once name l em). clear em.
  revert log. induction names as [|n names IH]; intros log em Ha.
  - rewrite bool_decide_eq_false_2 by apply not_elem_of_nil. simpl. lia.
  - rewrite dispatch_all_cons. destruct (decide (n = name)) as [->|Hn].
    + destruct (dispatch_armed_same name l em log Ha) as [Hu Hc].
      destruct (Bus.dispatch name (em, log)) as [[em' log'] r]. simpl in Hu, Hc.
      rewrite bool_decide_eq_true_2 by apply list_elem_of_here.
      cbn [fst]. rewrite dispatch_all_unknown by done. lia.
    + destruct (dispatch_armed_other n name l em log Hn Ha) as [Ha' Hc].
      destruct (Bus.dispatch n (em, log)) as [[em' log'] r]. simpl in Ha', Hc.
      cbn [fst]. rewrite IH by done. rewrite Hc.
      destruct (decide (name ∈ names)).
      * rewrite !bool_decide_eq_true_2; [done|by apply list_elem_of_further|done].
      * rewrite !bool_decide_eq_false_2; [done| |done].
        intros [?|?]%elem_of_cons; congruence.
Qed.

(** The class [Event]: [once] throws when [name] has no persistent listener
    yet, and otherwise adds the listener to the persistent ones. *)
Lemma Event_once_throws name l em :
  on_ em !! name = None → (Event.once name l em).2 = Thrown TypeError.
Proof.
  intros H. unfold Event.once, read.
  destruct (once_ em !! name); destruct (inherited name); simpl; by rewrite H.
Qed.

Lemma Event_once_pushes_on name l em ls :
  on_ em !! name = Some ls →
  on_ (Event.once name l em).1 !! name = Some (ls ++ [l])
  ∧ default [] (once_ (Event.once name l em).1 !! name) = default [] (once_ em !! name).
Proof.
  intros H. unfold Event.once, read.
  destruct (once_ em !! name) eqn:E; destruct (inherited name); simpl; rewrite H; simpl;
    rewrite ?lookup_insert_eq, ?E; done.
Qed.
End BusFacts.

(** C6, evaluated on the class [Event] of src/src/Websocket.ts: after
    [on('open', 1)] and [once('open', 2)], two dispatches of ['open'] call
    listener 2 twice and the one-shot list of ['open'] never held it; on a
    fresh emitter [once] throws. The claim asks for at most one call. *)
Theorem Event_once_listener_is_called_on_every_dispatch :
  let s0 : Bus.st := (new_emitter, []) in
  let s1 := (Bus.on_legacy "open" 1 s0).1 in
  let s2 := (Bus.once_legacy "open" 2 s1).1 in
  let s3 := (Bus.dispatch_legacy "open" s2).1 in
  let s4 := (Bus.dispatch_legacy "open" s3).1 in
  once_ s2.1 !! "open" = Some []
  ∧ Bus.calls_of 2 s3.2 = 1
  ∧ Bus.calls_of 2 s4.2 = 2
  ∧ (Bus.once_legacy "open" 2 s0).2 = Thrown TypeError.
Proof. vm_compute. done. Qed.

(** ** Reasoning about the monad *)

(** A registration that throws leaves the emitter, and with it the state, as
    it was. *)
Lemma set_eventEmitter_id c : set_eventEmitter (eventEmitter c) c = c.
Proof. by destruct c. Qed.

Lemma set_room_emitter_id r c : Core.set_room_emitter r (Core.room_emitter r c) c = c.
Proof.
  unfold Core.set_room_emitter, Core.room_emitter.
  assert (E : alter (fun ro => Room (room_name ro)
                 (default new_emitter (r_eventEmitter <$> room_objects c !! r)))
                r (room_objects c) = room_objects c).
  { apply list_eq. intros i. destruct (decide (i = r)) as [->|Hne].
    - rewrite list_lookup_alter_eq. by destruct (room_objects c !! r) as [[]|].
    - by rewrite list_lookup_alter_ne. }
  rewrite E. by destruct c.
Qed.

Section Keeps.
Context (R : relation conn) `{!PreOrder R}.

Lemma keeps_within {T A} (get : conn → T) set (m : M T A) :
  (∀ c, R c (set (m (get c)).1 c)) → keeps R (within get set m).
Proof. intros H c. unfold within. specialize (H c). by destruct (m (get c)). Qed.

Lemma keeps_on {L} (get : conn → emitter L) set name l :
  (∀ c, set (get c) c = c) →
  keeps R (modify (fun c => set (pushed_on name l (get c)) c)) →
  keeps R (within get set (RTC_EventEmitter.on name l)).
Proof.
  intros Hid H. apply keeps_within. intros c.
  destruct (on_cases name l (get c)) as [-> | ->]; simpl; [apply H|].
  rewrite Hid. reflexivity.
Qed.

Lemma keeps_once {L} (get : conn → emitter L) set name l :
  (∀ c, set (get c) c = c) →
  keeps R (modify (fun c => set (pushed_once name l (get c)) c)) →
  keeps R (within get set (RTC_EventEmitter.once name l)).
Proof.
  intros Hid H. apply keeps_within. intros c.
  destruct (once_cases name l (get c)) as [-> | ->]; simpl; [apply H|].
  rewrite Hid. reflexivity.
Qed.

Lemma keeps_ret {A} (a : A) : keeps R (ret a).
Proof. intros c. simpl. reflexivity. Qed.

Lemma keeps_throw {A} e : keeps R (@throw conn A e).
Proof. intros c. simpl. reflexivity. Qed.

Lemma keeps_gets {A} (f : conn → A) : keeps R (gets f).
Proof. intros c. simpl. reflexivity. Qed.

Lemma keeps_modify (f : conn → conn) : (∀ c, R c (f c)) → keeps R (modify f).
Proof. intros H c. apply H. Qed.

Lemma keeps_bind {A B} (m : M conn A) (k : A → M conn B) :
  keeps R m → (∀ a, keeps R (k a)) → keeps R (bind m k).
Proof.
  intros Hm Hk c. unfold bind. specialize (Hm c).
  destruct (m c) as [c1 [a|e]]; simpl in *; [|done].
  etrans; [done|apply Hk].
Qed.

Lemma keeps_try_catch {A} (m : M conn A) (h : exn → M conn A) :
  keeps R m → (∀ e, keeps R (h e)) → keeps R (try_catch m h).
Proof.
  intros Hm Hh c. unfold try_catch. specialize (Hm c).
  destruct (m c) as [c1 [a|e]]; simpl in *; [done|].
  etrans; [done|apply Hh].
Qed.

Lemma keeps_forEach {L} (f : L → M conn unit) (ls : list L) :
  (∀ l, keeps R (f l)) → keeps R (forEach f ls).
Proof.
  intros Hf. induction ls as [|l ls IH]; simpl.
  - apply keeps_ret.
  - apply keeps_bind; [apply Hf|done].
Qed.

Lemma keeps_dispatch {L} (get : conn → emitter L) set call name :
  (∀ cv l, keeps R (call name cv l)) →
  (∀ c, R c (set (Emitter (on_ (get c)) (delete name (once_ (get c)))) c)) →
  keeps R (RTC_EventEmitter.dispatch get set call name).
Proof.
  intros Hcall Hset. unfold RTC_EventEmitter.dispatch.
  apply keeps_bind; [apply keeps_gets|]. intros m.
  apply keeps_bind.
  { destruct (m !! name); [by apply keeps_forEach|apply keeps_ret]. }
  intros _. apply keeps_bind; [apply keeps_gets|]. intros m'.
  destruct (m' !! name); [|apply keeps_ret].
  apply keeps_bind; [by apply keeps_forEach|]. intros _. by apply keeps_modify.
Qed.
End Keeps.

Ltac keeps_step :=
  first
    [ apply keeps_ret; apply _ | apply keeps_throw; apply _ | apply keeps_gets; apply _
    | apply keeps_bind; [apply _| |intros ?]
    | apply keeps_try_catch; [apply _| |intros ?]
    | apply keeps_forEach; [apply _|intros ?]
    | apply keeps_on; [apply _|apply set_eventEmitter_id|]
    | apply keeps_once; [apply _|apply set_eventEmitter_id|]
    | apply keeps_on; [apply _|apply set_room_emitter_id|]
    | apply keeps_once; [apply _|apply set_room_emitter_id|]
    | match goal with |- keeps _ (match ?x with _ => _ end) => destruct x end
    | match goal with |- keeps _ (if ?b then _ else _) => destruct b end ].

(** ** Observations on traces *)

Lemma scheduled_app t1 t2 : scheduled (t1 ++ t2) = scheduled t1 ++ scheduled t2.
Proof. apply omap_app. Qed.
Lemma settled_app t1 t2 : settled (t1 ++ t2) = settled t1 ++ settled t2.
Proof. apply omap_app. Qed.
Lemma fired_app t1 t2 : fired (t1 ++ t2) = fired t1 ++ fired t2.
Proof. apply omap_app. Qed.
Lemma wired_app t1 t2 : wired (t1 ++ t2) = wired t1 ++ wired t2.
Proof. apply omap_app. Qed.

Lemma added_app c c' t : trace c' = trace c ++ t → added c c' = t.
Proof. intros H. unfold added. rewrite H. by rewrite drop_app_length. Qed.

(** ** What leaves the reconnection machinery alone *)

#[global] Instance calm_preorder : PreOrder calm.
Proof.
  split.
  - intros c. by constructor.
  - intros c1 c2 c3 [] []. constructor; try congruence. by etrans.
Qed.

#[global] Instance quiet_preorder P : PreOrder (quiet P).
Proof.
  split.
  - intros c Hc. done.
  - intros c1 c2 c3 H12 H23 H1.
    destruct (H12 H1) as (H2 & Hs & Hp & Ht). destruct (H23 H2) as (H3 & Hs' & Hp' & Ht').
    repeat split; [done|congruence|by etrans|by etrans].
Qed.

Lemma calm_quiet P c c' : gate P → calm c c' → quiet P c c'.
Proof.
  intros HP [] Hc. repeat split; [by apply (HP c)|done|done|].
  unfold reconnect_timers. by rewrite calm_timers0.
Qed.

Lemma keeps_calm_quiet P {A} (m : M conn A) : gate P → keeps calm m → keeps (quiet P) m.
Proof. intros HP Hm c. by apply calm_quiet. Qed.

Lemma prefix_added (c c' : conn) :
  trace c `prefix_of` trace c' → trace c' = trace c ++ added c c'.
Proof. intros [t Ht]. by rewrite (added_app _ _ _ Ht). Qed.

Lemma quiet_added P c c' : quiet P c c' → P c → scheduled (added c c') = [].
Proof.
  intros H Hc. destruct (H Hc) as (_ & Hs & Hp & _).
  apply prefix_added in Hp. rewrite Hp, scheduled_app in Hs.
  by apply (app_inv_head (scheduled (trace c))); rewrite app_nil_r.
Qed.

Ltac calm_leaf :=
  intros c; simpl; repeat case_match; simpl;
  constructor; simpl; rewrite ?scheduled_app, ?app_nil_r;
  first [done | by eexists].

Create HintDb calm discriminated.

Ltac calm_auto := repeat keeps_step; eauto with calm.

Section CalmCore.
Import Core.

Lemma calm_emit e : (∀ h, e ≠ Scheduled h) → keeps calm (emit e).
Proof. intros He. destruct e; try (by calm_leaf). by destruct (He h). Qed.

Lemma calm_newWebSocket : keeps calm newWebSocket.
Proof. calm_leaf. Qed.
Lemma calm_ws_close sock : keeps calm (ws_close sock).
Proof. unfold ws_close. calm_leaf. Qed.
Lemma calm_newPromise : keeps calm newPromise.
Proof. calm_leaf. Qed.
Lemma calm_settle p ok : keeps calm (settle p ok).
Proof. unfold settle. calm_leaf. Qed.
Lemma calm_then p r : keeps calm (then_ p r).
Proof. unfold then_. calm_leaf. Qed.
Lemma calm_set_eventEmitter f : keeps calm (modify (fun c => set_eventEmitter (f c) c)).
Proof. calm_leaf. Qed.
Lemma calm_set_room_objects f : keeps calm (modify (fun c => set_room_objects (f c) c)).
Proof. calm_leaf. Qed.
Lemma calm_set_rooms f : keeps calm (modify (fun c => set_rooms (f c) c)).
Proof. calm_leaf. Qed.
Lemma calm_set_jobs v : keeps calm (modify (set_jobs v)).
Proof. calm_leaf. Qed.
Lemma calm_set_sockets f : keeps calm (modify (fun c => set_sockets (f c) c)).
Proof. calm_leaf. Qed.
Lemma calm_set_websocket v : keeps calm (modify (set_websocket v)).
Proof. calm_leaf. Qed.
Lemma calm_set_connectionState v : keeps calm (modify (set_connectionState v)).
Proof. calm_leaf. Qed.
Lemma calm_set_immediates f : keeps calm (modify (fun c => set_immediates (f c) c)).
Proof. calm_leaf. Qed.
Lemma calm_set_defaultAuthToken v : keeps calm (modify (set_defaultAuthToken v)).
Proof. calm_leaf. Qed.
Lemma calm_set_pingPongInterval v : keeps calm (modify (set_pingPongInterval v)).
Proof. calm_leaf. Qed.
End CalmCore.

#[export] Hint Resolve calm_newWebSocket calm_ws_close calm_newPromise
  calm_settle calm_then calm_set_jobs calm_set_websocket
  calm_set_connectionState calm_set_defaultAuthToken
  calm_set_pingPongInterval : calm.
#[export] Hint Extern 1 (keeps calm (Core.emit _)) => (apply calm_emit; done) : calm.
#[export] Hint Extern 1 (keeps calm (modify (fun c => set_eventEmitter _ c))) =>
  apply calm_set_eventEmitter : calm.
#[export] Hint Extern 1 (keeps calm (modify (fun c => set_room_objects _ c))) =>
  apply calm_set_room_objects : calm.
#[export] Hint Extern 1 (keeps calm (modify (fun c => set_rooms _ c))) =>
  apply calm_set_rooms : calm.
#[export] Hint Extern 1 (keeps calm (modify (fun c => set_sockets _ c))) =>
  apply calm_set_sockets : calm.
#[export] Hint Extern 1 (keeps calm (modify (fun c => set_immediates _ c))) =>
  apply calm_set_immediates : calm.

Section CalmMethods.
Import Core.

Lemma calm_websocket_close : keeps calm websocket_close.
Proof. calm_auto. Qed.
Lemma calm_websocket_send e : keeps calm (websocket_send e).
Proof. calm_auto. Qed.
Lemma calm_transmit e p : keeps calm (transmit e p).
Proof. calm_auto. Qed.
Lemma calm_send event data receiver : keeps calm (send event data receiver).
Proof. calm_auto. Qed.
Lemma calm_call name cv l : keeps calm (call name cv l).
Proof. destruct l; simpl; calm_auto. Qed.

Lemma calm_dispatch name : keeps calm (dispatch name).
Proof.
  apply keeps_dispatch; [apply _|intros; apply calm_call|]. calm_leaf.
Qed.

Lemma calm_listen name l : keeps calm (listen name l).
Proof. unfold listen. keeps_step. calm_leaf. Qed.

Lemma calm_emitEvent r name : keeps calm (emitEvent r name).
Proof.
  apply keeps_dispatch; [apply _| |].
  - intros. unfold room_call. calm_auto.
  - unfold set_room_emitter. calm_leaf.
Qed.

Lemma calm_room_on r name l : keeps calm (room_on r name l).
Proof. unfold room_on. keeps_step. unfold set_room_emitter. calm_leaf. Qed.
Lemma calm_room_once r name l : keeps calm (room_once r name l).
Proof. unfold room_once. keeps_step. unfold set_room_emitter. calm_leaf. Qed.
Lemma calm_room_send r event data : keeps calm (room_send r event data).
Proof. calm_auto. Qed.
Lemma calm_new_RTC_Room join name : keeps calm (new_RTC_Room join name).
Proof. calm_auto. all: calm_leaf. Qed.
Lemma calm_joinRoom join name : keeps calm (joinRoom join name).
Proof. calm_auto. all: calm_leaf. Qed.
Lemma calm_leaveRoom leave data name : keeps calm (leaveRoom leave data name).
Proof. calm_auto. Qed.

Lemma calm_room_events event : keeps calm (room_events event).
Proof.
  unfold room_events. repeat (keeps_step; try apply calm_emitEvent).
Qed.

Lemma calm_run_jobs : keeps calm run_jobs.
Proof. calm_auto. destruct l. calm_leaf. Qed.
Lemma calm_parse_nested o : keeps calm (parse_nested o).
Proof. unfold parse_nested. calm_auto. Qed.
End CalmMethods.

#[export] Hint Resolve calm_websocket_close calm_websocket_send calm_transmit calm_send
  calm_call calm_dispatch calm_listen calm_emitEvent calm_room_on calm_room_once
  calm_room_send calm_new_RTC_Room calm_joinRoom calm_leaveRoom calm_room_events
  calm_run_jobs calm_parse_nested : calm.

(** ** When no reconnection is scheduled *)

Lemma gate_locked w cr z : gate (locked w cr z).
Proof. intros c c' Hw Hc Hz (? & ? & ?). unfold locked. rewrite Hw, Hc, Hz. done. Qed.

Lemma reconnect_timers_snoc_other (ts : list (nat * timer)) h k :
  k ≠ ReconnectTimer →
  omap (fun t : nat * timer => match t.2 with ReconnectTimer => Some t.1 | _ => None end)
       (ts ++ [(h, k)])
  = omap (fun t : nat * timer => match t.2 with ReconnectTimer => Some t.1 | _ => None end) ts.
Proof. intros Hk. rewrite omap_app. simpl. destruct k; [done| |]; by rewrite app_nil_r. Qed.

Lemma omap_filter_sublist {A B} (f : A → option B) (P : A → Prop) `{!∀ x, Decision (P x)}
    (l : list A) :
  omap f (filter P l) `sublist_of` omap f l.
Proof.
  induction l as [|x l IH]; [done|].
  destruct (decide (P x)).
  - rewrite filter_cons_True by done. simpl. destruct (f x); [by apply sublist_skip|done].
  - rewrite filter_cons_False by done. simpl. destruct (f x); [by apply sublist_cons|done].
Qed.

Ltac quiet_split := split; [|split; [|split]].

Section QuietLeaves.
Context (P : conn → Prop) (HP : gate P).

Lemma quiet_setTimer k : k ≠ ReconnectTimer → keeps (quiet P) (Core.setTimer k).
Proof.
  intros Hk c Hc. simpl. quiet_split; [by apply (HP c)|done|done|].
  unfold reconnect_timers. simpl. by rewrite reconnect_timers_snoc_other.
Qed.

Lemma quiet_clearTimer oh : keeps (quiet P) (Core.clearTimer oh).
Proof.
  intros c Hc. destruct oh as [h|]; simpl; [|done].
  quiet_split; [by apply (HP c)|done|done|].
  unfold reconnect_timers. simpl. apply omap_filter_sublist.
Qed.

Lemma quiet_set_pingPongIntervalTimer v : keeps (quiet P) (modify (set_pingPongIntervalTimer v)).
Proof. intros c Hc. simpl. quiet_split; [by apply (HP c)|done..]. Qed.

Lemma quiet_set_reconnectionTimeout v : keeps (quiet P) (modify (set_reconnectionTimeout v)).
Proof. intros c Hc. simpl. quiet_split; [by apply (HP c)|done..]. Qed.

Lemma quiet_set_isClientPingEnabled v : keeps (quiet P) (modify (set_isClientPingEnabled v)).
Proof. intros c Hc. simpl. quiet_split; [by apply (HP c)|done..]. Qed.
End QuietLeaves.

Lemma quiet_set_willReconnect_false w cr z :
  keeps (quiet (locked w cr z)) (modify (set_willReconnect false)).
Proof. intros c (? & ? & ?). simpl. quiet_split; done. Qed.

Lemma quiet_set_canReconnect_false w cr z :
  keeps (quiet (locked w cr z)) (modify (set_canReconnect false)).
Proof. intros c (? & ? & ?). simpl. quiet_split; done. Qed.

Create HintDb quiet discriminated.

#[export] Hint Resolve gate_locked quiet_clearTimer quiet_set_pingPongIntervalTimer
  quiet_set_reconnectionTimeout quiet_set_isClientPingEnabled
  quiet_set_willReconnect_false quiet_set_canReconnect_false : quiet.
#[export] Hint Extern 1 (keeps (quiet _) (Core.setTimer _)) =>
  (apply quiet_setTimer; [auto with quiet|done]) : quiet.
#[export] Hint Extern 5 (keeps (quiet _) _) =>
  (apply keeps_calm_quiet; [auto with quiet|solve [eauto with calm]]) : quiet.

Ltac quiet_auto := repeat keeps_step; eauto with quiet.

Lemma quiet_gets_bind P {A B} (f : conn → A) (k : A → M conn B) :
  (∀ c, P c → quiet P c (k (f c) c).1) → keeps (quiet P) (bind (gets f) k).
Proof. intros H c Hc. unfold bind, gets. by apply H. Qed.

Ltac quiet_auto ::= repeat first [ solve [eauto with quiet] | keeps_step ].

Section QuietIndex.
Import Index.
Context (w cr z : bool).
Local Abbreviation Q := (quiet (locked w cr z)).

Lemma quiet_closeNativeWebsocketConnection : keeps Q Core.closeNativeWebsocketConnection.
Proof. unfold Core.closeNativeWebsocketConnection. quiet_auto. Qed.

Lemma quiet_poll h : keeps Q (Core.poll h).
Proof. unfold Core.poll. quiet_auto. Qed.

Lemma quiet_Index_createSocket b : keeps Q (createSocket b).
Proof.
  pose proof quiet_closeNativeWebsocketConnection.
  unfold createSocket. quiet_auto.
Qed.

Lemma quiet_Index_closeConnection_false : keeps Q (closeConnection false).
Proof. unfold closeConnection. quiet_auto. Qed.

Lemma quiet_Index_close : keeps Q close.
Proof.
  pose proof quiet_Index_closeConnection_false.
  unfold close, clearPingPongInterval. quiet_auto.
Qed.

Lemma quiet_Index_router event : keeps Q (router event).
Proof. unfold router. quiet_auto. Qed.

Lemma quiet_Index_on_message f : keeps Q (on_message f).
Proof.
  pose proof quiet_Index_router.
  unfold on_message, dispatch_message. quiet_auto.
Qed.

Lemma quiet_Index_ping : keeps Q ping.
Proof. unfold ping. quiet_auto. Qed.
End QuietIndex.

Section QuietIndexReconnect.
Import Index.

(** With a zero interval [reconnect()] sets no timer. *)
Lemma quiet_Index_reconnect cr : keeps (quiet (locked false cr true)) reconnect.
Proof.
  intros c Hc. unfold reconnect, bind.
  assert (Hclose : quiet (locked false cr true) c (closeConnection true c).1).
  { intros _. unfold closeConnection, Core.websocket_close, bind, gets, modify. simpl.
    destruct Hc as (_ & Hcan & Hz).
    destruct (websocket c) as [sock|]; simpl.
    - unfold Core.ws_close, modify. simpl. repeat case_match; by quiet_split.
    - by quiet_split. }
  destruct (closeConnection true c) as [c1 [[]|e]]; simpl in *; [|by apply Hclose].
  destruct (Hclose Hc) as ((_ & _ & Hz1) & _).
  rewrite bool_decide_eq_false_2; [by apply Hclose|].
  intros Hne. by apply Hne, Hz1.
Qed.

Lemma quiet_Index_changeState w cr z stateName :
  w || z → keeps (quiet (locked w cr z)) (changeState stateName).
Proof.
  intros Hwz. unfold changeState.
  apply keeps_bind; [apply _|quiet_auto|]. intros _.
  apply quiet_gets_bind. intros c Hc.
  destruct w; simpl in *.
  - destruct Hc as (Hw & Hc). rewrite Hw by done. rewrite andb_false_r.
    assert (H : keeps (quiet (locked true cr z)) (ret tt ;;; Core.dispatch stateName)%js)
      by quiet_auto.
    apply H.
  - destruct z; [|done].
    assert (H : ∀ b : bool, keeps (quiet (locked false cr true))
              ((if b then reconnect else ret tt) ;;; Core.dispatch stateName)%js).
    { intros b. pose proof (quiet_Index_reconnect cr). quiet_auto. }
    apply H.
Qed.
End QuietIndexReconnect.

Lemma quiet_setReconnectionInterval w cr z v :
  z = false ∨ v = 0%Z → keeps (quiet (locked w cr z)) (Core.setReconnectionInterval v).
Proof.
  intros Hv c (? & ? & Hz). simpl. quiet_split; [|done..].
  repeat split; [done..|]. simpl. intros Hz'. destruct Hv as [->| ->]; done.
Qed.

Section QuietIndexStep.
Import Index.
Context (w cr z : bool) (Hwz : w || z).
Local Abbreviation Q := (quiet (locked w cr z)).

Lemma quiet_Index_on_open : keeps Q on_open.
Proof.
  pose proof (quiet_Index_changeState w cr z "open" Hwz).
  unfold on_open. quiet_auto.
Qed.

Lemma quiet_Index_on_close : keeps Q on_close.
Proof.
  pose proof (quiet_Index_changeState w cr z "close" Hwz).
  unfold on_close, clearPingPongInterval. quiet_auto.
Qed.

Lemma quiet_Index_on_error : keeps Q on_error.
Proof. apply quiet_Index_changeState, Hwz. Qed.

Lemma quiet_Index_notify sock n : keeps Q (notify sock n).
Proof.
  pose proof quiet_Index_on_open. pose proof quiet_Index_on_close.
  pose proof quiet_Index_on_error. pose proof (quiet_Index_on_message w cr z).
  unfold notify. quiet_auto.
Qed.

Lemma quiet_Index_fire h : keeps Q (fire h).
Proof.
  pose proof (quiet_Index_createSocket w cr z). pose proof (quiet_Index_ping w cr z).
  pose proof (quiet_poll w cr z).
  unfold fire. quiet_auto.
Qed.

Lemma quiet_Index_api m : allowed w z (Api m) → keeps Q (api m).
Proof.
  pose proof (quiet_Index_createSocket w cr z). pose proof (quiet_Index_close w cr z).
  intros Hm. destruct m; simpl in *;
    try solve [unfold connect, leave, Core.setAuthToken; quiet_auto].
  - subst w. destruct z; [|done]. apply quiet_Index_reconnect.
  - by apply quiet_setReconnectionInterval.
Qed.

Lemma quiet_Index_step i : allowed w z i → keeps Q (step i).
Proof.
  intros Hi. destruct i; simpl.
  - by apply quiet_Index_api.
  - apply quiet_Index_notify.
  - apply quiet_Index_fire.
  - quiet_auto.
  - quiet_auto.
Qed.

Lemma quiet_Index_run inputs c : Forall (allowed w z) inputs → Q c (run inputs c).
Proof.
  intros H. revert c. induction H as [|i inputs Hi _ IH]; intros c; [done|].
  simpl. etrans; [by apply quiet_Index_step|apply IH].
Qed.
End QuietIndexStep.

(** ** reconnect() *)

Lemma list_find_snoc_fresh (ts : list (nat * timer)) h k :
  Forall (fun t : nat * timer => t.1 < h) ts →
  list_find (fun t : nat * timer => t.1 = h) (ts ++ [(h, k)]) = Some (length ts, (h, k)).
Proof.
  induction 1 as [|t ts Ht _ IH]; simpl.
  - by rewrite decide_True.
  - rewrite decide_False by lia. by rewrite IH.
Qed.

(** What [reconnect()] of index.ts does on a connection that has a socket. *)
Lemma Index_reconnect_eq c sock :
  websocket c = Some sock →
  Index.reconnect c =
    let c1 := (Core.ws_close sock
                 (set_connectionState "internal_reconnection" (set_willReconnect true c))).1 in
    if bool_decide (reconnectionInterval c ≠ 0%Z)
    then (set_reconnectionTimeout (Some (next_timer c))
            (set_trace (trace c ++ [Scheduled (next_timer c)])
               (set_next_timer (S (next_timer c))
                  (set_timers (timers c ++ [(next_timer c, ReconnectTimer)]) c1))),
          Returned tt)
    else (c1, Returned tt).
Proof.
  intros Hw. unfold Index.reconnect, Index.closeConnection, Core.websocket_close.
  unfold bind, gets, modify. simpl. rewrite Hw. simpl.
  unfold Core.ws_close, modify. simpl.
  destruct (sockets c !! sock) as [[]|]; simpl;
    destruct (bool_decide (reconnectionInterval c ≠ 0%Z)); reflexivity.
Qed.

(** C2, as amended: on a connection that has a socket, [reconnect()] of
    index.ts sets exactly one single-shot timer that runs [createSocket(true)]
    when the interval is not zero, and sets none when it is zero; a transport
    close with a zero interval sets none either. *)
Theorem reconnect_schedules_once_unless_interval_is_zero c sock :
  websocket c = Some sock → timers_fresh c →
  let c' := (Index.reconnect c).1 in
  (reconnectionInterval c ≠ 0%Z →
     timers c' = timers c ++ [(next_timer c, ReconnectTimer)]
     ∧ scheduled (added c c') = [next_timer c]
     ∧ reconnectionTimeout c' = Some (next_timer c)
     ∧ Index.fire (next_timer c) c'
       = (Core.clearTimer (Some (next_timer c)) ;;; Index.createSocket true)%js c')
  ∧ (reconnectionInterval c = 0%Z →
     timers c' = timers c
     ∧ scheduled (added c c') = []
     ∧ ∀ s, scheduled (added c (Index.notify s NClose c).1) = []
            ∧ reconnect_timers (Index.notify s NClose c).1 `sublist_of` reconnect_timers c).
Proof.
  intros Hw Hfresh c'. subst c'. rewrite (Index_reconnect_eq c sock Hw). cbn zeta.
  set (c1 := (Core.ws_close sock _).1).
  assert (Ht : timers c1 = timers c ∧ trace c1 = trace c).
  { subst c1. unfold Core.ws_close, modify. simpl. by repeat case_match. }
  destruct Ht as [Ht Htr]. clearbody c1. split.
  - intros Hz. rewrite bool_decide_eq_true_2 by done. split_and!.
    + done.
    + by rewrite (added_app c _ [Scheduled (next_timer c)]).
    + done.
    + unfold Index.fire at 1. unfold bind at 1. simpl.
      by rewrite list_find_snoc_fresh.
  - intros Hz. rewrite bool_decide_eq_false_2 by (intros H; by apply H).
    split_and!.
    + done.
    + rewrite (added_app c _ []); [done|]. simpl. by rewrite Htr, app_nil_r.
    + intros s.
      pose proof (quiet_Index_notify false false true I s NClose c) as Hq.
      assert (Hl : locked false false true c) by (repeat split; done).
      split; [by eapply quiet_added|]. by destruct (Hq Hl) as (_ & _ & _ & ?).
Qed.

(** C2 as stated fails: with a zero interval [reconnect()] sets no timer. *)
Lemma reconnect_with_zero_interval_sets_no_timer :
  let c := Index.run [Api (Method.setReconnectionInterval 0); Api Method.connect;
                      FromSocket 0 NOpen] Index.new_RTC_Websocket in
  let c' := (Index.reconnect c).1 in
  reconnectionInterval c = 0%Z
  ∧ (Index.reconnect c).2 = Returned tt
  ∧ scheduled (added c c') = []
  ∧ reconnect_timers c' = []
  ∧ length (scheduled (added c c')) ≠ 1.
Proof. vm_compute. split_and!; done. Qed.

Lemma reconnect_schedules_once_witness :
  let c := Index.run [Api Method.connect; FromSocket 0 NOpen] Index.new_RTC_Websocket in
  websocket c = Some 0 ∧ timers_fresh c
  ∧ timers (Index.reconnect c).1 = timers c ++ [(next_timer c, ReconnectTimer)].
Proof.
  set (c := Index.run _ _).
  assert (Hw : websocket c = Some 0) by (vm_compute; reflexivity).
  assert (Hf : timers_fresh c).
  { unfold timers_fresh. vm_compute. repeat constructor. }
  split; [exact Hw|]. split; [exact Hf|].
  apply (reconnect_schedules_once_unless_interval_is_zero c 0 Hw Hf).
  vm_compute. discriminate.
Defined.

(** ** More than one reconnect timer *)

(** C5, evaluated: after [connect()], the socket opening, one [reconnect()]
    and the close notification of the socket that [reconnect()] closed, two
    reconnect timers are live and [reconnectionTimeout] holds the second; the
    same in both files. The claim asks for at most one. *)
Theorem reconnect_then_close_notification_leaves_two_timers :
  let c := Index.run [Api Method.connect; FromSocket 0 NOpen; Api Method.reconnect;
                      FromSocket 0 NClose] Index.new_RTC_Websocket in
  let c' := WebsocketTs.run [Api Method.connect; FromSocket 0 NOpen; Api Method.reconnect;
                             RunImmediate; FromSocket 0 NClose]
                            WebsocketTs.new_RTC_Websocket in
  reconnect_timers c = [1; 2] ∧ reconnectionTimeout c = Some 2
  ∧ reconnect_timers c' = [0; 1] ∧ reconnectionTimeout c' = Some 1.
Proof. vm_compute. done. Qed.

(** [reconnect()] cancels nothing: the timers that were live stay live. *)
Lemma Index_reconnect_keeps_timers c :
  timers c `prefix_of` timers (Index.reconnect c).1.
Proof.
  destruct (websocket c) as [sock|] eqn:Hw.
  - rewrite (Index_reconnect_eq c sock Hw). cbn zeta.
    set (c1 := (Core.ws_close sock _).1).
    assert (Ht : timers c1 = timers c).
    { subst c1. unfold Core.ws_close, modify. simpl. by repeat case_match. }
    clearbody c1. case_bool_decide; simpl; [by eexists|by rewrite Ht].
  - unfold Index.reconnect, Index.closeConnection, Core.websocket_close.
    unfold bind, gets, modify. simpl. by rewrite Hw.
Qed.

(** ** close() *)

(** C3, evaluated on index.ts: with the two timers of the run above,
    [close()] clears the one it holds; the other one fires afterwards, runs
    [createSocket(true)] and the connection opens again, although
    [willReconnect] is false and no [connect()] was called. *)
Theorem close_leaves_the_earlier_reconnect_timer_live :
  let c := Index.run [Api (Method.subscribe OnReconnecting 7);
                      Api (Method.subscribe OnReconnect 8);
                      Api Method.connect; FromSocket 0 NOpen; Api Method.reconnect;
                      FromSocket 0 NClose] Index.new_RTC_Websocket in
  let c1 := (Index.close c).1 in
  let c2 := (Index.fire 1 c1).1 in
  let c3 := (Index.notify 1 NOpen c2).1 in
  reconnect_timers c = [1; 2]
  ∧ willReconnect c1 = false ∧ reconnect_timers c1 = [1]
  ∧ added c1 c2 = [Fired ConnBus "reconnecting" Spread 7; Created 1]
  ∧ connectionState c2 = "reconnecting"
  ∧ added c2 c3 = [Fired ConnBus "reconnect" Spread 8]
  ∧ connectionState c3 = "open".
Proof. vm_compute. done. Qed.

Lemma Index_close_idempotent_start c :
  Index.close c = Index.close (set_willReconnect false c).
Proof. reflexivity. Qed.

(** What does hold after [close()] in index.ts: [willReconnect] is false, and
    as long as [reconnect()] is not called no input sets a reconnect timer or
    brings one back. *)
Lemma after_close_no_timer_is_set c inputs :
  Forall (allowed true false) inputs →
  let c1 := (Index.close c).1 in
  willReconnect c1 = false
  ∧ willReconnect (Index.run inputs c1) = false
  ∧ scheduled (added c c1) = []
  ∧ scheduled (added c1 (Index.run inputs c1)) = []
  ∧ reconnect_timers (Index.run inputs c1) `sublist_of` reconnect_timers c.
Proof.
  intros Hin. cbn zeta. rewrite Index_close_idempotent_start.
  set (c0 := set_willReconnect false c).
  assert (H0 : locked true false false c0) by (repeat split; done).
  pose proof (quiet_Index_close true false false c0) as Hclose.
  destruct (Hclose H0) as (H1 & Hs1 & Hp1 & Ht1).
  pose proof (quiet_Index_run true false false I inputs (Index.close c0).1 Hin) as Hrun.
  destruct (Hrun H1) as (H2 & Hs2 & Hp2 & Ht2).
  split_and!.
  - by apply H1.
  - by apply H2.
  - change (trace c) with (trace c0). change (trace c) with (trace c0) in Hp1.
    by apply (quiet_added _ _ _ Hclose).
  - by apply (quiet_added _ _ _ Hrun).
  - by etrans.
Qed.

(** The timer that [reconnectionTimeout] holds is cleared by [close()]. *)
Lemma close_clears_the_held_timer c sock h inputs :
  websocket c = Some sock → reconnectionTimeout c = Some h →
  Forall (allowed true false) inputs →
  h ∉ reconnect_timers (Index.run inputs (Index.close c).1).
Proof.
  intros Hw Hh Hin.
  assert (Hc : h ∉ reconnect_timers (Index.close c).1).
  { unfold Index.close. unfold bind at 1. simpl. unfold bind at 1.
    set (c0 := set_willReconnect false c).
    pose proof (calm_websocket_close c0) as Hcalm.
    unfold Index.closeConnection. unfold bind at 1. simpl.
    assert (Hret : (Core.websocket_close c0).2 = Returned tt).
    { unfold Core.websocket_close, bind, gets. simpl. by rewrite Hw. }
    destruct (Core.websocket_close c0) as [c1 r]. simpl in *. subst r.
    unfold bind at 1. unfold gets at 1. unfold bind at 1.
    rewrite (calm_handle _ _ Hcalm). simpl. rewrite Hh.
    set (c2 := (Core.clearTimer (Some h) c1).1).
    assert (Hc2 : h ∉ reconnect_timers c2).
    { subst c2. unfold reconnect_timers. simpl. intros Hin'.
      apply list_elem_of_omap in Hin' as ([h' k] & Ht & Hk).
      apply list_elem_of_filter in Ht as [Hne _]. simpl in *.
      destruct k; simplify_eq. }
    change (Core.clearTimer (Some h) c1) with (c2, Returned tt).
    cbn iota.
    assert (Hrest : keeps (quiet (locked true false false))
              (Index.clearPingPongInterval ;;; Core.dispatch "custom.disconnect")%js).
    { unfold Index.clearPingPongInterval. quiet_auto. }
    assert (Hl : locked true false false c2).
    { repeat split; try done. intros _. subst c2. simpl.
      by rewrite (calm_will _ _ Hcalm). }
    destruct (Hrest c2 Hl) as (_ & _ & _ & Hsub).
    intros Hin'. apply Hc2. by eapply sublist_subseteq. }
  pose proof (after_close_no_timer_is_set c inputs Hin) as (H1 & _).
  pose proof (quiet_Index_run true false false I inputs (Index.close c).1 Hin) as Hrun.
  destruct Hrun as (_ & _ & _ & Hsub); [repeat split; done|].
  intros Hin'. apply Hc. by eapply sublist_subseteq.
Qed.

(** ** conn.rejected *)

Section QuietWebsocketTs.
Import WebsocketTs.
Local Abbreviation Q := (quiet (locked false true false)).

Lemma quiet_WebsocketTs_closeConnection_false reason : keeps Q (closeConnection false reason).
Proof. unfold closeConnection, sendToSystem. quiet_auto. Qed.

(** Once [canReconnect] is false, [reconnect()] does nothing. *)
Lemma quiet_WebsocketTs_reconnect : keeps Q reconnect.
Proof.
  unfold reconnect. apply quiet_gets_bind. intros c Hc.
  destruct Hc as (? & -> & ?); done.
Qed.

Lemma quiet_WebsocketTs_changeState stateName : keeps Q (changeState stateName).
Proof. pose proof quiet_WebsocketTs_reconnect. unfold changeState. quiet_auto. Qed.

Lemma quiet_WebsocketTs_createSocket b : keeps Q (createSocket b).
Proof.
  pose proof (quiet_closeNativeWebsocketConnection false true false).
  unfold createSocket. quiet_auto.
Qed.

Lemma quiet_WebsocketTs_leave r : keeps Q (leave r).
Proof. unfold leave. quiet_auto. Qed.

Lemma quiet_WebsocketTs_close : keeps Q close.
Proof.
  pose proof quiet_WebsocketTs_leave.
  unfold close, stopPingPong, stopReconnectionTimeout. quiet_auto.
Qed.

Lemma quiet_WebsocketTs_startPingPong : keeps Q startPingPong.
Proof. unfold startPingPong. quiet_auto. Qed.

Lemma quiet_WebsocketTs_router event : keeps Q (router event).
Proof. unfold router, stopPingPong, stopReconnectionTimeout. quiet_auto. Qed.

Lemma quiet_WebsocketTs_on_message f : keeps Q (on_message f).
Proof.
  pose proof quiet_WebsocketTs_router.
  unfold on_message, dispatch_message, sendToSystem. quiet_auto.
Qed.

Lemma quiet_WebsocketTs_on_open : keeps Q on_open.
Proof.
  pose proof quiet_WebsocketTs_changeState. pose proof quiet_WebsocketTs_startPingPong.
  unfold on_open. quiet_auto.
Qed.

Lemma quiet_WebsocketTs_on_close : keeps Q on_close.
Proof.
  pose proof quiet_WebsocketTs_changeState.
  unfold on_close, stopPingPong. quiet_auto.
Qed.

Lemma quiet_WebsocketTs_notify sock n : keeps Q (notify sock n).
Proof.
  pose proof quiet_WebsocketTs_on_open. pose proof quiet_WebsocketTs_on_close.
  pose proof quiet_WebsocketTs_on_message. pose proof quiet_WebsocketTs_changeState.
  unfold notify, on_error. quiet_auto.
Qed.

Lemma quiet_WebsocketTs_fire h : keeps Q (fire h).
Proof.
  pose proof quiet_WebsocketTs_createSocket. pose proof (quiet_poll false true false).
  unfold fire, ping, sendToSystem. quiet_auto.
Qed.

Lemma quiet_WebsocketTs_run_immediate : keeps Q run_immediate.
Proof.
  pose proof quiet_WebsocketTs_closeConnection_false.
  assert (∀ q, keeps calm (modify (set_immediates q))) by (intros; calm_leaf).
  unfold run_immediate, run_task. quiet_auto.
Qed.

Lemma quiet_WebsocketTs_setPingPongInterval ms : keeps Q (setPingPongInterval ms).
Proof.
  pose proof quiet_WebsocketTs_startPingPong.
  unfold setPingPongInterval, stopPingPong. quiet_auto.
Qed.

Lemma quiet_WebsocketTs_api m : keeps Q (api m).
Proof.
  pose proof quiet_WebsocketTs_createSocket. pose proof quiet_WebsocketTs_close.
  pose proof quiet_WebsocketTs_reconnect. pose proof quiet_WebsocketTs_setPingPongInterval.
  pose proof quiet_WebsocketTs_leave.
  destruct m; simpl;
    try solve [unfold connect, enableClientPing, Core.setAuthToken; quiet_auto].
  apply quiet_setReconnectionInterval. by left.
Qed.

Lemma quiet_WebsocketTs_step i : keeps Q (step i).
Proof.
  destruct i; simpl.
  - apply quiet_WebsocketTs_api.
  - apply quiet_WebsocketTs_notify.
  - apply quiet_WebsocketTs_fire.
  - apply quiet_WebsocketTs_run_immediate.
  - quiet_auto.
Qed.

Lemma quiet_WebsocketTs_run inputs c : Q c (run inputs c).
Proof.
  revert c. induction inputs as [|i inputs IH]; intros c; [done|].
  simpl. etrans; [apply quiet_WebsocketTs_step|apply IH].
Qed.
End QuietWebsocketTs.

(** C4, evaluated on Websocket.ts: the application calls [reconnect()] twice,
    the first timer fires, the new socket opens and the server answers
    [conn.rejected]. The listener clears the timer that [reconnectionTimeout]
    holds and sets [canReconnect] to false, but the second timer is still
    live; when it fires, [createSocket(true)] opens a third socket. *)
Theorem rejection_leaves_an_earlier_reconnect_timer_live :
  let c := WebsocketTs.run
             [Api (Method.subscribe OnReconnecting 7); Api Method.connect;
              FromSocket 0 NOpen; Api Method.reconnect; Api Method.reconnect;
              RunImmediate; RunImmediate; FromSocket 0 NClose; TimerFires 0;
              FromSocket 1 NOpen] WebsocketTs.new_RTC_Websocket in
  let c1 := (WebsocketTs.notify 1 (NMessage (Json rejected)) c).1 in
  let c2 := (WebsocketTs.fire 1 c1).1 in
  reconnect_timers c = [1; 2] ∧ reconnectionTimeout c = Some 2
  ∧ canReconnect c1 = false ∧ reconnect_timers c1 = [1]
  ∧ added c1 c2 = [Fired ConnBus "reconnecting" Spread 7; Created 2]
  ∧ connectionState c2 = "reconnecting".
Proof. vm_compute. done. Qed.

(** What does hold once [canReconnect] is false: no input, [reconnect()]
    included, sets a reconnect timer. *)
Lemma after_rejection_no_timer_is_set c inputs :
  canReconnect c = false →
  canReconnect (WebsocketTs.run inputs c) = false
  ∧ scheduled (added c (WebsocketTs.run inputs c)) = []
  ∧ reconnect_timers (WebsocketTs.run inputs c) `sublist_of` reconnect_timers c.
Proof.
  intros Hc. pose proof (quiet_WebsocketTs_run inputs c) as Hrun.
  assert (Hl : locked false true false c) by (repeat split; done).
  destruct (Hrun Hl) as ((_ & Hcan & _) & _ & _ & Hsub).
  split_and!; [by apply Hcan|by eapply quiet_added|done].
Qed.

(** ** A frame without a sender *)

(** C10: a decoded frame whose event is neither ['ping'] nor ['pong'] and that
    has no [sender] makes the message listener throw a TypeError at
    [event.sender.info], in index.ts and in Websocket.ts; the state, and with
    it the trace of listener calls, is left as it was. *)
Theorem frame_without_sender_throws_before_dispatch c event :
  ev_event event ≠ "ping" → ev_event event ≠ "pong" → ev_sender event = None →
  Index.on_message (Json event) c = (c, Thrown TypeError)
  ∧ WebsocketTs.on_message (Json event) c = (c, Thrown TypeError)
  ∧ fired (added c (Index.on_message (Json event) c).1) = []
  ∧ fired (added c (WebsocketTs.on_message (Json event) c).1) = [].
Proof.
  intros Hping Hpong Hs.
  assert (H1 : Index.on_message (Json event) c = (c, Thrown TypeError)).
  { unfold Index.on_message. rewrite bool_decide_eq_false_2 by done. by rewrite Hs. }
  assert (H2 : WebsocketTs.on_message (Json event) c = (c, Thrown TypeError)).
  { unfold WebsocketTs.on_message. rewrite !bool_decide_eq_false_2 by done. by rewrite Hs. }
  rewrite H1, H2. simpl. unfold added. rewrite drop_all. done.
Qed.

Lemma frame_without_sender_witness :
  let event := WSEvent "chat" (Some (PText "hi")) None (Some (Address "room" "lobby")) None in
  let c := Index.run [Api Method.connect; FromSocket 0 NOpen;
                      Api (Method.subscribe OnMessage 5)] Index.new_RTC_Websocket in
  ev_sender event = None
  ∧ Index.on_message (Json event) c = (c, Thrown TypeError).
Proof.
  cbn zeta. split; [reflexivity|].
  apply frame_without_sender_throws_before_dispatch; [discriminate|discriminate|reflexivity].
Defined.

(** ** Rooms *)

Lemma set_trace_id c : set_trace (trace c) c = c.
Proof. by destruct c. Qed.

Lemma forEach_room_call r name cv (ls : list nat) c :
  forEach (Core.room_call r name cv) ls c
  = (set_trace (trace c ++ map (Fired (RoomBus r) name cv) ls) c, Returned tt).
Proof.
  revert c. induction ls as [|l ls IH]; intros c; simpl.
  - by rewrite app_nil_r, set_trace_id.
  - unfold bind at 1. simpl. rewrite IH. simpl. by rewrite <- app_assoc.
Qed.

Lemma room_emitter_set_trace r t c :
  Core.room_emitter r (set_trace t c) = Core.room_emitter r c.
Proof. done. Qed.

(** One dispatch on the emitter of a room. *)
Lemma emitEvent_eq r name c :
  Core.emitEvent r name c =
    (let em := Core.room_emitter r c in
     let c1 := set_trace (trace c ++ dispatched r name em) c in
     match once_ em !! name with
     | Some _ => Core.set_room_emitter r (after_dispatch name em) c1
     | None => c1
     end, Returned tt).
Proof.
  unfold Core.emitEvent, RTC_EventEmitter.dispatch, dispatched, after_dispatch.
  unfold bind, gets, modify, ret. cbn zeta.
  destruct (on_ (Core.room_emitter r c) !! name) as [ls|] eqn:Hls; cbn beta iota.
  - rewrite forEach_room_call. rewrite room_emitter_set_trace.
    destruct (once_ (Core.room_emitter r c) !! name) as [os|] eqn:Hos; cbn beta iota.
    + rewrite forEach_room_call. simpl. rewrite room_emitter_set_trace.
      by rewrite <- app_assoc.
    + simpl. by rewrite app_nil_r.
  - destruct (once_ (Core.room_emitter r c) !! name) as [os|] eqn:Hos; cbn beta iota.
    + rewrite forEach_room_call. simpl. by rewrite room_emitter_set_trace.
    + simpl. by rewrite app_nil_r, set_trace_id.
Qed.

Lemma emitEvent_spec r name c :
  is_Some (room_objects c !! r) →
  let c' := (Core.emitEvent r name c).1 in
  trace c' = trace c ++ dispatched r name (Core.room_emitter r c)
  ∧ Core.room_emitter r c' = after_dispatch name (Core.room_emitter r c)
  ∧ (∀ r', r' ≠ r → Core.room_emitter r' c' = Core.room_emitter r' c)
  ∧ (∀ r', room_name <$> room_objects c' !! r' = room_name <$> room_objects c !! r')
  ∧ eventEmitter c' = eventEmitter c ∧ rooms c' = rooms c.
Proof.
  intros [ro Hro]. rewrite emitEvent_eq. cbn zeta.
  destruct (once_ (Core.room_emitter r c) !! name) as [os|] eqn:Hos; cbn [fst].
  - split_and!; try done.
    + unfold Core.room_emitter. simpl. by rewrite list_lookup_alter_eq, Hro.
    + intros r' Hr'. unfold Core.room_emitter. simpl.
      by rewrite list_lookup_alter_ne.
    + intros r'. simpl. destruct (decide (r' = r)) as [->|Hne].
      * by rewrite list_lookup_alter_eq, Hro.
      * by rewrite list_lookup_alter_ne.
  - split_and!; try done.
    rewrite room_emitter_set_trace. unfold after_dispatch. rewrite delete_id by done.
    by destruct (Core.room_emitter r c).
Qed.

Lemma scan_spec name objs rs k i r :
  Core.scan name objs rs k = Some (i, r) →
  ∃ j, i = k + j ∧ rs !! j = Some r ∧ room_name <$> objs !! r = Some name
       ∧ ∀ j' r', j' < j → rs !! j' = Some r' → room_name <$> objs !! r' ≠ Some name.
Proof.
  revert k. induction rs as [|r0 rs IH]; intros k; simpl; [done|].
  case_bool_decide as Hn.
  - intros [= <- <-]. exists 0. split_and!; [lia|done|done|]. intros; lia.
  - intros H. apply IH in H as (j & -> & Hj & Hname & Hbefore).
    exists (S j). split_and!; [lia|done|done|].
    intros [|j'] r' Hlt; simpl; [by intros [= <-]|].
    apply Hbefore. lia.
Qed.

Lemma scan_None name objs rs k :
  Core.scan name objs rs k = None →
  ∀ r, r ∈ rs → room_name <$> objs !! r ≠ Some name.
Proof.
  revert k. induction rs as [|r0 rs IH]; intros k; simpl.
  - intros _ r Hr. by apply not_elem_of_nil in Hr.
  - case_bool_decide as Hn; [done|]. intros H r [->|Hr]%elem_of_cons; [done|].
    by eapply IH.
Qed.

Lemma room_events_eq event a c :
  ev_receiver event = Some a → a_type a = "room" →
  Core.room_events event c =
    match Core.scan (a_id a) (room_objects c) (rooms c) 0 with
    | Some (_, r) => Core.emitEvent r (ev_event event) (Core.emitEvent r "all_events" c).1
    | None => (c, Returned tt)
    end.
Proof.
  intros Hrcv Htype. unfold Core.room_events. rewrite Hrcv.
  rewrite bool_decide_eq_true_2 by done. unfold bind at 1. simpl.
  destruct (Core.scan _ _ _ _) as [[i r]|]; [|done].
  unfold bind. by rewrite (emitEvent_eq r "all_events" c).
Qed.

(** The routing block of the constructor's listener on its own: for an
    envelope addressed to a room it dispatches on
    the emitter of the first room of the registry whose name is the receiver's
    id, first ['all_events'], then the envelope's own event name, and on no
    other emitter; when no room has that name nothing happens at all. *)
Theorem room_events_reach_the_first_matching_room_only c event a :
  ev_receiver event = Some a → a_type a = "room" →
  let c' := (Core.room_events event c).1 in
  match Core.scan (a_id a) (room_objects c) (rooms c) 0 with
  | Some (i, r) =>
      (rooms c !! i = Some r ∧ named c (a_id a) r
       ∧ ∀ j r', j < i → rooms c !! j = Some r' → ¬ named c (a_id a) r')
      ∧ added c c'
        = dispatched r "all_events" (Core.room_emitter r c)
          ++ dispatched r (ev_event event)
               (after_dispatch "all_events" (Core.room_emitter r c))
      ∧ (∀ b ch l, (b, ch, l) ∈ fired (added c c') → b = RoomBus r)
      ∧ (∀ r', r' ≠ r → Core.room_emitter r' c' = Core.room_emitter r' c)
      ∧ eventEmitter c' = eventEmitter c
  | None =>
      (∀ r', r' ∈ rooms c → ¬ named c (a_id a) r') ∧ c' = c
  end.
Proof.
  intros Hrcv Htype. cbn zeta. rewrite (room_events_eq event a c Hrcv Htype).
  destruct (Core.scan _ _ _ _) as [[i r]|] eqn:Hscan.
  - pose proof (scan_spec _ _ _ _ _ _ Hscan) as (j & -> & Hj & Hname & Hbefore).
    assert (Hro : is_Some (room_objects c !! r)).
    { destruct (room_objects c !! r); [eauto|done]. }
    destruct (emitEvent_spec r "all_events" c Hro) as (Ht1 & He1 & Ho1 & Hn1 & Hc1 & _).
    set (c1 := (Core.emitEvent r "all_events" c).1) in *. clearbody c1.
    assert (Hro1 : is_Some (room_objects c1 !! r)).
    { specialize (Hn1 r). destruct Hro as [ro Hro]. rewrite Hro in Hn1.
      destruct (room_objects c1 !! r); [eauto|done]. }
    destruct (emitEvent_spec r (ev_event event) c1 Hro1) as (Ht2 & _ & Ho2 & _ & Hc2 & _).
    set (c2 := (Core.emitEvent r (ev_event event) c1).1) in *. clearbody c2.
    assert (Hadd : added c c2 = dispatched r "all_events" (Core.room_emitter r c)
              ++ dispatched r (ev_event event)
                   (after_dispatch "all_events" (Core.room_emitter r c))).
    { apply added_app. rewrite Ht2, Ht1, He1. by rewrite <- app_assoc. }
    split_and!; try done.
    + intros b ch l. rewrite Hadd, fired_app. unfold dispatched.
      rewrite !fired_app. unfold fired.
      rewrite !elem_of_app, !list_elem_of_omap.
      intros [[(e & He & Hf)|(e & He & Hf)]|[(e & He & Hf)|(e & He & Hf)]];
        apply list_elem_of_fmap in He as (x & -> & _); by simplify_eq.
    + intros r' Hr'. rewrite Ho2, Ho1; done.
    + congruence.
  - simpl. split; [|done]. by eapply scan_None.
Qed.

Lemma room_events_witness :
  let c := Index.run [Api (Method.joinRoom "hall"); Api (Method.joinRoom "lobby");
                      Api (Method.room_on 0 "chat" 1); Api (Method.room_on 1 "chat" 2);
                      Api (Method.room_on 1 "all_events" 3);
                      Api (Method.room_once 1 "chat" 4)] Index.new_RTC_Websocket in
  let event := WSEvent "chat" None (Some (Sender "user" "u1" None))
                       (Some (Address "room" "lobby")) None in
  a_type (Address "room" "lobby") = "room"
  ∧ added c (Core.room_events event c).1
    = [Fired (RoomBus 1) "all_events" Spread 3; Fired (RoomBus 1) "chat" Spread 2;
       Fired (RoomBus 1) "chat" Aggregate 4].
Proof.
  cbn zeta. split; [reflexivity|].
  set (c := Index.run _ _). set (event := WSEvent _ _ _ _ _).
  pose proof (room_events_reach_the_first_matching_room_only c event
                (Address "room" "lobby") eq_refl eq_refl) as H.
  cbn zeta in H.
  assert (Hs : Core.scan "lobby" (room_objects c) (rooms c) 0 = Some (1, 1))
    by (vm_compute; reflexivity).
  simpl a_id in H. rewrite Hs in H. destruct H as (_ & -> & _).
  vm_compute. reflexivity.
Defined.

(** ** send *)

Lemma websocket_send_eq e c :
  Core.websocket_send e c =
    match live_socket c with
    | Some sock => (set_trace (trace c ++ [Wire sock e]) c, Returned tt)
    | None => (c, Thrown match websocket c with
                         | Some _ => InvalidStateError
                         | None => TypeError
                         end)
    end.
Proof.
  unfold Core.websocket_send, live_socket, bind, gets. simpl.
  destruct (websocket c) as [sock|]; [|done]. simpl.
  case_bool_decide as H; [by rewrite H|].
  destruct (sockets c !! sock) as [[]|]; done.
Qed.

Lemma settle_returns p ok c : (Core.settle p ok c).2 = Returned tt.
Proof. unfold Core.settle. by repeat case_match. Qed.

Lemma transmit_eq e p c :
  Core.transmit e p c =
    match live_socket c with
    | Some sock => Core.settle p true (set_trace (trace c ++ [Wire sock e]) c)
    | None => Core.settle p false c
    end.
Proof.
  unfold Core.transmit, try_catch, bind. rewrite websocket_send_eq.
  destruct (live_socket c) as [sock|]; [|done].
  pose proof (settle_returns p true (set_trace (trace c ++ [Wire sock e]) c)).
  by destruct (Core.settle _ _ _) as [? []].
Qed.

Lemma settle_pending p ok rs c :
  promises c !! p = Some (Promise Pending rs) →
  Core.settle p ok c =
    (set_trace (trace c ++ [Settled p ok])
       (set_jobs (jobs c ++ (if ok then rs else []))
          (set_promises (<[p := Promise (if ok then Fulfilled else Rejected) []]> (promises c)) c)),
     Returned tt).
Proof. intros H. unfold Core.settle. by rewrite H. Qed.

Lemma send_eq event data receiver c :
  Core.send event data receiver c =
    let e := Envelope event data receiver in
    let p := length (promises c) in
    let c1 := set_promises (promises c ++ [Promise Pending []]) c in
    if Core.isOpened c
    then ((Core.transmit e p c1).1, Returned p)
    else (set_eventEmitter (pushed_once "open" (SendWhenOpen e p) (eventEmitter c)) c1,
          Returned p).
Proof.
  unfold Core.send, bind, gets, modify, ret, Core.newPromise. cbn zeta beta iota.
  change (Core.isOpened (set_promises _ c)) with (Core.isOpened c).
  destruct (Core.isOpened c).
  2:{ by erewrite within_eq by (apply once_returns; by left). }
  rewrite transmit_eq.
  destruct (live_socket _);
    match goal with |- context [Core.settle ?p ?ok ?c] =>
      pose proof (settle_returns p ok c); by destruct (Core.settle p ok c) as [? []] end.
Qed.

Lemma once_open_state {L} (l : L) em :
  (RTC_EventEmitter.once "open" l em).1 = pushed_once "open" l em.
Proof. by rewrite once_returns by (by left). Qed.

Lemma listen_eq name l c :
  inherited name = false →
  Core.listen name l c
  = (set_eventEmitter (pushed_on name l (eventEmitter c)) c, Returned tt).
Proof. intros Hi. unfold Core.listen. apply within_eq, on_returns. by left. Qed.

(** [send] never throws. *)
Lemma send_returns event data receiver c :
  ∃ p, (Core.send event data receiver c).2 = Returned p.
Proof. rewrite send_eq. cbn zeta. destruct (Core.isOpened c); eauto. Qed.

Lemma lookup_fresh_promise c :
  (promises c ++ [Promise Pending []]) !! length (promises c) = Some (Promise Pending []).
Proof. by rewrite lookup_app_r, Nat.sub_diag. Qed.

(** ** ping *)

(** C8, as amended: on a frame whose event is ['ping'] the message listener of
    Websocket.ts calls no listener at all and passes one [pong] for the system
    receiver to [send]: exactly that one frame is written when the connection
    is open and its socket writable, it is queued for the next ['open'] when
    the connection is not open, it is rejected with nothing written and
    nothing queued when the connection is open and its current socket is not
    writable, and in no case is any other frame written. *)
Theorem ping_is_answered_by_one_pong_and_not_dispatched c event :
  ev_event event = "ping" →
  let r := WebsocketTs.on_message (Json event) c in
  let p := length (promises c) in
  r.2 = Returned tt
  ∧ fired (added c r.1) = []
  ∧ (∀ sock, Core.isOpened c = true → live_socket c = Some sock →
       added c r.1 = [Wire sock pong; Settled p true])
  ∧ (Core.isOpened c = false →
       added c r.1 = []
       ∧ eventEmitter r.1
         = (RTC_EventEmitter.once "open" (SendWhenOpen pong p) (eventEmitter c)).1)
  ∧ (wired (added c r.1) = [] ∨ ∃ sock, wired (added c r.1) = [(sock, pong)])
  ∧ (Core.isOpened c = true → live_socket c = None →
       added c r.1 = [Settled p false] ∧ eventEmitter r.1 = eventEmitter c).
Proof.
  intros Hev. cbn zeta. rewrite once_open_state. unfold WebsocketTs.on_message.
  rewrite bool_decide_eq_false_2 by (rewrite Hev; discriminate).
  rewrite bool_decide_eq_true_2 by done.
  unfold WebsocketTs.sendToSystem, bind. rewrite send_eq. cbn zeta. fold pong.
  set (c1 := set_promises _ c).
  assert (Hp : promises c1 !! length (promises c) = Some (Promise Pending []))
    by apply lookup_fresh_promise.
  destruct (Core.isOpened c) eqn:Hopen.
  - rewrite transmit_eq. change (live_socket c1) with (live_socket c).
    destruct (live_socket c) as [sock|] eqn:Hlive.
    + rewrite (settle_pending _ true []) by done. simpl.
      rewrite (added_app c _ [Wire sock pong; Settled (length (promises c)) true])
        by (simpl; by rewrite <- app_assoc).
      split_and!; try done.
      * by intros ? _ [= <-].
      * right. by exists sock.
    + rewrite (settle_pending _ false []) by done. simpl.
      rewrite (added_app c _ [Settled (length (promises c)) false]) by done.
      split_and!; try done. by left.
  - simpl. rewrite (added_app c _ []) by (simpl; by rewrite app_nil_r).
    split_and!; try done. by left.
Qed.

(** C8 as stated fails. A second [connect()] replaced the socket that then
    opened: the connection is ['open'] and its current socket is still
    connecting. A ['ping'] received now is passed to [send], the socket
    refuses the write and the promise is rejected: no [pong] is written and
    none is queued, so the next ['open'] writes none either. *)
Lemma ping_while_the_current_socket_connects_gets_no_pong :
  let c := WebsocketTs.run [Api Method.connect; Api Method.connect; FromSocket 0 NOpen]
                           WebsocketTs.new_RTC_Websocket in
  let event := WSEvent "ping" None None (Some (Address "system" "system")) None in
  let c' := WebsocketTs.run [FromSocket 0 (NMessage (Json event))] c in
  let c'' := WebsocketTs.run [FromSocket 1 NOpen; RunJobs] c' in
  (connectionState c = "open" ∧ websocket c = Some 1 ∧ sockets c = [OPEN; CONNECTING])
  ∧ added c c' = [Settled 0 false]
  ∧ wired (added c c') = []
  ∧ queued c' = []
  ∧ wired (added c' c'') = [].
Proof. vm_compute. done. Qed.

Lemma ping_witness :
  let c := WebsocketTs.run [Api (Method.subscribe OnMessage 1);
                            Api (Method.subscribe OnAnyEvent 2);
                            Api (Method.subscribe (OnEvent "ping") 3);
                            Api Method.connect; FromSocket 0 NOpen]
                           WebsocketTs.new_RTC_Websocket in
  let event := WSEvent "ping" None None (Some (Address "system" "system")) None in
  ev_event event = "ping"
  ∧ added c (WebsocketTs.on_message (Json event) c).1 = [Wire 0 pong; Settled 0 true].
Proof.
  cbn zeta. split; [reflexivity|].
  set (c := WebsocketTs.run _ _). set (event := WSEvent _ _ _ _ _).
  destruct (ping_is_answered_by_one_pong_and_not_dispatched c event eq_refl)
    as (_ & _ & H & _).
  apply (H 0); vm_compute; reflexivity.
Defined.

(** ** leaveRoom *)

Lemma lookup_insert_fresh {A} (l : list A) x y :
  <[length l := x]> (l ++ [y]) !! length l = Some x.
Proof. apply list_lookup_insert_eq. rewrite length_app. simpl. lia. Qed.

Lemma run_jobs_single i c :
  jobs c = [Splice i] → rooms (Core.run_jobs c).1 = delete i (rooms c).
Proof. intros H. unfold Core.run_jobs, bind, gets, modify. simpl. by rewrite H. Qed.

Lemma run_jobs_none c : jobs c = [] → rooms (Core.run_jobs c).1 = rooms c.
Proof. intros H. unfold Core.run_jobs, bind, gets, modify. simpl. by rewrite H. Qed.

Lemma then_fulfilled p r c rs :
  promises c !! p = Some (Promise Fulfilled rs) →
  (Core.then_ p r c).1 = set_jobs (jobs c ++ [r]) c.
Proof. intros H. unfold Core.then_, modify. simpl. by rewrite H. Qed.

Lemma then_rejected p r c rs :
  promises c !! p = Some (Promise Rejected rs) → (Core.then_ p r c).1 = c.
Proof. intros H. unfold Core.then_, modify. simpl. by rewrite H. Qed.

Lemma then_pending p r c rs :
  promises c !! p = Some (Promise Pending rs) →
  (Core.then_ p r c).1 = set_promises (<[p := Promise Pending (rs ++ [r])]> (promises c)) c.
Proof. intros H. unfold Core.then_, modify. simpl. by rewrite H. Qed.

Lemma leaveRoom_eq leave data name c i r :
  Core.scan name (room_objects c) (rooms c) 0 = Some (i, r) →
  Core.leaveRoom leave data name c =
    Core.then_ (length (promises c)) (Splice i)
      (Core.send leave data (Some (Address "room" name)) c).1.
Proof.
  intros Hscan. unfold Core.leaveRoom. unfold bind at 1. simpl. rewrite Hscan.
  apply scan_spec in Hscan as (_ & _ & _ & Hname & _).
  unfold Core.room_send. unfold bind at 1. unfold bind at 1. simpl.
  destruct (room_objects c !! r) as [ro|]; [|done]. simpl in Hname.
  injection Hname as ->.
  rewrite send_eq. cbn zeta. by destruct (Core.isOpened c).
Qed.

(** C7, as amended: [leaveRoom(name)] sends (or queues) a leave envelope for
    the first room of that name and registers the removal of the entry at that
    room's index as a reaction to the fulfilment of the send. If the send is
    fulfilled and the registry is as [leaveRoom] left it when the reaction
    runs, exactly that room is removed; if the send is rejected the room stays
    in the registry. *)
Theorem leaveRoom_removes_the_room_once_the_send_is_fulfilled c leave data name i r :
  Core.scan name (room_objects c) (rooms c) 0 = Some (i, r) → jobs c = [] →
  let e := Envelope leave data (Some (Address "room" name)) in
  let p := length (promises c) in
  let c1 := (Core.leaveRoom leave data name c).1 in
  (rooms c !! i = Some r ∧ named c name r)
  ∧ (Core.leaveRoom leave data name c).2 = Returned tt
  ∧ rooms c1 = rooms c
  ∧ (∀ sock, Core.isOpened c = true → live_socket c = Some sock →
       added c c1 = [Wire sock e; Settled p true]
       ∧ rooms (Core.run_jobs c1).1 = delete i (rooms c))
  ∧ (Core.isOpened c = true → live_socket c = None →
       added c c1 = [Settled p false]
       ∧ rooms (Core.run_jobs c1).1 = rooms c)
  ∧ (Core.isOpened c = false →
       added c c1 = []
       ∧ eventEmitter c1
         = (RTC_EventEmitter.once "open" (SendWhenOpen e p) (eventEmitter c)).1
       ∧ promises c1 !! p = Some (Promise Pending [Splice i])
       ∧ rooms ((Core.settle p true ;;; Core.run_jobs)%js c1).1 = delete i (rooms c)
       ∧ rooms ((Core.settle p false ;;; Core.run_jobs)%js c1).1 = rooms c).
Proof.
  intros Hscan Hjobs. cbn zeta. rewrite once_open_state.
  rewrite (leaveRoom_eq _ _ _ _ _ _ Hscan).
  pose proof (scan_spec _ _ _ _ _ _ Hscan) as (j & -> & Hj & Hname & _).
  split; [done|]. split; [done|].
  rewrite send_eq. cbn zeta.
  set (e := Envelope leave data _). set (p := length (promises c)).
  set (c0 := set_promises _ c).
  assert (Hp : promises c0 !! p = Some (Promise Pending [])) by apply lookup_fresh_promise.
  assert (Hp1 : ∀ x, <[p := x]> (promises c0) !! p = Some x)
    by (intros; apply lookup_insert_fresh).
  destruct (Core.isOpened c) eqn:Hopen; cbn [fst].
  - rewrite transmit_eq. change (live_socket c0) with (live_socket c).
    destruct (live_socket c) as [sock|] eqn:Hlive.
    + rewrite (settle_pending _ true []) by done. cbn [fst].
      rewrite (then_fulfilled _ _ _ []) by (simpl; apply Hp1).
      split; [reflexivity|]. split_and!; try done.
      intros ? _ [= <-]. split.
      * apply added_app. simpl. by rewrite <- app_assoc.
      * rewrite (run_jobs_single (0 + j)); [reflexivity|]. simpl. by rewrite Hjobs.
    + rewrite (settle_pending _ false []) by done. cbn [fst].
      rewrite (then_rejected _ _ _ []) by (simpl; apply Hp1).
      split; [reflexivity|]. split_and!; try done.
      intros _ _. split.
      * by apply added_app.
      * rewrite run_jobs_none; [reflexivity|]. simpl. by rewrite Hjobs.
  - rewrite (then_pending _ _ _ []) by done.
    split; [reflexivity|]. split_and!; try done.
    intros _. split_and!.
    + apply added_app. simpl. by rewrite app_nil_r.
    + done.
    + simpl. apply Hp1.
    + unfold bind. erewrite settle_pending by (simpl; apply Hp1).
      rewrite (run_jobs_single (0 + j)); [reflexivity|]. simpl. by rewrite Hjobs.
    + unfold bind. erewrite settle_pending by (simpl; apply Hp1).
      rewrite run_jobs_none; [reflexivity|]. simpl. by rewrite Hjobs.
Qed.

(** C7 as stated fails. First run: the connection is ['open'] but its current
    socket is still connecting (a second [connect()] replaced the socket that
    opened), the leave is rejected and the room stays. Second run: two rooms
    are left in one turn, both sends are fulfilled and room "b" stays. *)
Lemma leaveRoom_keeps_the_room :
  let c := Index.run [Api (Method.joinRoom "lobby"); Api Method.connect; Api Method.connect;
                      FromSocket 0 NOpen; RunJobs;
                      Api (Method.leaveRoom "lobby"); RunJobs] Index.new_RTC_Websocket in
  let c' := Index.run [Api Method.connect; FromSocket 0 NOpen;
                       Api (Method.joinRoom "a"); Api (Method.joinRoom "b"); RunJobs;
                       Api (Method.leaveRoom "a"); Api (Method.leaveRoom "b"); RunJobs]
                      Index.new_RTC_Websocket in
  (promises c !! 1 = Some (Promise Rejected []) ∧ jobs c = []
   ∧ Core.getRoom "lobby" c = Some 0)
  ∧ (p_state <$> promises c' !! 3 = Some Fulfilled ∧ jobs c' = []
     ∧ Core.getRoom "b" c' = Some 1).
Proof. vm_compute. done. Qed.

Lemma leaveRoom_witness :
  let c := Index.run [Api Method.connect; FromSocket 0 NOpen;
                      Api (Method.joinRoom "hall"); Api (Method.joinRoom "lobby"); RunJobs]
                     Index.new_RTC_Websocket in
  Core.scan "lobby" (room_objects c) (rooms c) 0 = Some (1, 1) ∧ jobs c = []
  ∧ rooms (Core.run_jobs (Core.leaveRoom "leave" PNull "lobby" c).1).1 = [0].
Proof.
  cbn zeta. set (c := Index.run _ _).
  assert (Hs : Core.scan "lobby" (room_objects c) (rooms c) 0 = Some (1, 1))
    by (vm_compute; reflexivity).
  assert (Hj : jobs c = []) by (vm_compute; reflexivity).
  split; [exact Hs|]. split; [exact Hj|].
  destruct (leaveRoom_removes_the_room_once_the_send_is_fulfilled
              c "leave" PNull "lobby" 1 1 Hs Hj) as (_ & _ & _ & H & _).
  destruct (H 0) as [_ ->]; vm_compute; reflexivity.
Defined.

(** ** Sends that wait for ['open'] *)

Section Returns.
Lemma returns_ret {A} (a : A) : returns (ret a).
Proof. intros c. by exists a. Qed.
Lemma returns_gets {A} (f : conn → A) : returns (gets f).
Proof. intros c. by eexists. Qed.
Lemma returns_modify f : returns (modify f).
Proof. intros c. by exists tt. Qed.

Lemma returns_bind {A B} (m : M conn A) (k : A → M conn B) :
  returns m → (∀ a, returns (k a)) → returns (bind m k).
Proof.
  intros Hm Hk c. unfold bind. destruct (Hm c) as [a Ha].
  destruct (m c) as [c1 r]. simpl in Ha. subst r. apply Hk.
Qed.

Lemma returns_try_catch {A} (m : M conn A) h :
  (∀ e, returns (h e)) → returns (try_catch m h).
Proof.
  intros Hh c. unfold try_catch. destruct (m c) as [c1 [a|e]]; [by eexists|apply Hh].
Qed.

Lemma returns_forEach {L} (f : L → M conn unit) ls :
  (∀ l, returns (f l)) → returns (forEach f ls).
Proof.
  intros Hf. induction ls as [|l ls IH]; simpl; [apply returns_ret|].
  apply returns_bind; [apply Hf|done].
Qed.

Lemma returns_settle p ok : returns (Core.settle p ok).
Proof. intros c. exists tt. apply settle_returns. Qed.

Lemma returns_send event data receiver : returns (Core.send event data receiver).
Proof. intros c. apply send_returns. Qed.

Lemma returns_transmit e p : returns (Core.transmit e p).
Proof. apply returns_try_catch. intros _. apply returns_settle. Qed.

Lemma returns_call name cv l : returns (Core.call name cv l).
Proof.
  destruct l; simpl.
  - apply returns_modify.
  - apply returns_transmit.
  - apply returns_bind; [apply returns_send|intros; apply returns_ret].
Qed.

Lemma returns_dispatch name : returns (Core.dispatch name).
Proof.
  unfold Core.dispatch, RTC_EventEmitter.dispatch.
  apply returns_bind; [apply returns_gets|]. intros m.
  apply returns_bind.
  { destruct (m !! name); [|apply returns_ret].
    apply returns_forEach. intros; apply returns_call. }
  intros _. apply returns_bind; [apply returns_gets|]. intros m'.
  destruct (m' !! name); [|apply returns_ret].
  apply returns_bind; [|intros; apply returns_modify].
  apply returns_forEach. intros; apply returns_call.
Qed.

Lemma returns_setTimer k : returns (Core.setTimer k).
Proof. intros c. by eexists. Qed.
End Returns.

#[global] Instance holds_back_preorder ps : PreOrder (holds_back ps).
Proof.
  split.
  - intros c Hw. split; [done|]. exists []. by rewrite app_nil_r.
  - intros c1 c2 c3 H12 H23 H1.
    destruct (H12 H1) as (H2 & t1 & Ht1 & Hf1).
    destruct (H23 H2) as (H3 & t2 & Ht2 & Hf2).
    split; [done|]. exists (t1 ++ t2). split.
    + by rewrite Ht2, Ht1, <- app_assoc.
    + by rewrite settled_app, filter_app, Hf1, Hf2.
Qed.

(** What leaves the emitter and the promises alone and settles nothing leaves
    the waiting sends alone. *)
Lemma holds_back_frame ps c c' t :
  eventEmitter c' = eventEmitter c → promises c' = promises c →
  trace c' = trace c ++ t → settled t = [] → holds_back ps c c'.
Proof.
  intros He Hp Ht Hs [H1 H2 H3 H4 H5 H6].
  split; [|exists t; by rewrite Hs].
  unfold queued, pending in *.
  constructor; unfold queued, pending; rewrite ?He, ?Hp; done.
Qed.

Ltac hb_leaf :=
  intros c; simpl; repeat case_match; simpl;
  first [ by eapply (holds_back_frame _ _ _ [])
        | eapply (holds_back_frame _ _ _ []); [done..|by rewrite app_nil_r|done]
        | eapply (holds_back_frame _ _ _ [_]); done ].

Lemma once_lookup {L} name (l : L) em :
  on_ (pushed_once name l em) = on_ em
  ∧ once_ (pushed_once name l em) !! name
    = Some (default [] (once_ em !! name) ++ [l])
  ∧ ∀ name', name' ≠ name →
      once_ (pushed_once name l em) !! name' = once_ em !! name'.
Proof.
  unfold pushed_once. simpl. split; [done|]. rewrite lookup_insert_eq. split; [done|].
  intros. by rewrite lookup_insert_ne.
Qed.

Lemma on_lookup {L} name (l : L) em :
  once_ (pushed_on name l em) = once_ em
  ∧ on_ (pushed_on name l em) !! name
    = Some (default [] (on_ em !! name) ++ [l])
  ∧ ∀ name', name' ≠ name →
      on_ (pushed_on name l em) !! name' = on_ em !! name'.
Proof.
  unfold pushed_on. simpl. split; [done|]. rewrite lookup_insert_eq. split; [done|].
  intros. by rewrite lookup_insert_ne.
Qed.

Lemma pending_lt c p : pending c p → p < length (promises c).
Proof.
  unfold pending. intros H. apply lookup_lt_is_Some.
  destruct (promises c !! p); [eauto|done].
Qed.

Lemma waiting_lt ps c p : waiting ps c → p ∈ ps → p < length (promises c).
Proof.
  intros Hw Hp. apply pending_lt.
  by apply (proj1 (Forall_forall _ _) (w_pending _ _ Hw)).
Qed.

Section HoldsBack.
Context (ps : list nat).
Local Abbreviation HB := (holds_back ps).

Lemma fresh_not_waiting c : waiting ps c → length (promises c) ∉ ps.
Proof. intros Hw Hin. pose proof (waiting_lt _ _ _ Hw Hin). lia. Qed.

(** A promise is added at the end and, when [ok] is given, settled. *)
Lemma waiting_new_promise c x :
  waiting ps c →
  waiting ps (set_promises (<[length (promises c) := x]> (promises c ++ [Promise Pending []])) c).
Proof.
  intros [H1 H2 H3 H4 H5 H6]. constructor; try done.
  - simpl. eapply Forall_impl; [done|]. simpl. intros p Hp.
    rewrite length_insert, length_app. simpl. lia.
  - eapply Forall_impl; [done|]. intros p Hp. pose proof (pending_lt _ _ Hp).
    unfold pending in *. simpl.
    rewrite list_lookup_insert_ne by lia. by rewrite lookup_app_l.
Qed.

Lemma holds_back_send event data receiver : keeps HB (Core.send event data receiver).
Proof.
  intros c Hw. rewrite send_eq. cbn zeta.
  set (e := Envelope event data receiver). set (p := length (promises c)).
  set (c1 := set_promises _ c).
  pose proof (fresh_not_waiting c Hw) as Hfresh.
  assert (Hp : promises c1 !! p = Some (Promise Pending [])) by apply lookup_fresh_promise.
  destruct (Core.isOpened c); cbn [fst].
  - rewrite transmit_eq. change (live_socket c1) with (live_socket c).
    destruct (live_socket c) as [sock|].
    + rewrite (settle_pending _ true []) by done. cbn [fst]. split.
      * pose proof (waiting_new_promise c (Promise Fulfilled []) Hw) as [? ? ? ? ? ?].
        by constructor.
      * exists [Wire sock e; Settled p true]. split; [simpl; by rewrite <- app_assoc|].
        simpl. by rewrite filter_cons_False.
    + rewrite (settle_pending _ false []) by done. cbn [fst]. split.
      * pose proof (waiting_new_promise c (Promise Rejected []) Hw) as [? ? ? ? ? ?].
        by constructor.
      * exists [Settled p false]. split; [done|]. simpl. by rewrite filter_cons_False.
  - split; [|exists []; by rewrite app_nil_r].
    destruct (once_lookup "open" (SendWhenOpen e p) (eventEmitter c)) as (Hon & Hq & Hother).
    destruct Hw as [H1 H2 H3 H4 H5 H6].
    assert (Hqueue : queued (set_eventEmitter
              (pushed_once "open" (SendWhenOpen e p) (eventEmitter c)) c1)
            = queued c ++ [p]).
    { unfold queued. cbn [eventEmitter set_eventEmitter]. rewrite Hq.
      cbn [default id]. by rewrite omap_app. }
    constructor.
    + cbn [eventEmitter set_eventEmitter]. intros name ls. rewrite Hon. apply H1.
    + cbn [eventEmitter set_eventEmitter]. intros name ls Hn.
      rewrite Hother by done. by apply H2.
    + rewrite Hqueue. unfold c1. cbn [promises set_eventEmitter set_promises].
      rewrite length_app. simpl.
      apply Forall_app. split.
      * eapply Forall_impl; [done|]. simpl. intros; lia.
      * apply Forall_singleton. unfold p. lia.
    + rewrite Hqueue. apply NoDup_app. split_and!; [done| |apply NoDup_singleton].
      intros q Hq1 ->%list_elem_of_singleton.
      apply (proj1 (Forall_forall _ _) H3) in Hq1. unfold p in Hq1. lia.
    + rewrite Hqueue. by apply sublist_inserts_r.
    + eapply Forall_impl; [done|]. intros q Hq'. pose proof (pending_lt _ _ Hq').
      unfold pending in *. simpl. by rewrite lookup_app_l.
Qed.

Lemma holds_back_listen name l : send_promise l = None → keeps HB (Core.listen name l).
Proof.
  intros Hl. unfold Core.listen. apply keeps_on; [apply _|apply set_eventEmitter_id|].
  intros c [H1 H2 H3 H4 H5 H6]. unfold modify. cbn [fst].
  split; [|exists []; by rewrite app_nil_r].
  destruct (on_lookup name l (eventEmitter c)) as (Honce & Hn & Hother).
  constructor; unfold queued, pending; cbn [eventEmitter set_eventEmitter promises];
    rewrite ?Honce; try done.
  intros name' ls. destruct (decide (name' = name)) as [->|Hne].
  - rewrite Hn. intros [= <-]. unfold no_send. rewrite omap_app. simpl. rewrite Hl.
    destruct (on_ (eventEmitter c) !! name) as [ls0|] eqn:E; simpl.
    + by rewrite (H1 _ _ E).
    + done.
  - rewrite Hother by done. apply H1.
Qed.

Lemma holds_back_then p r : keeps HB (Core.then_ p r).
Proof.
  intros c. unfold Core.then_, modify. cbn [fst].
  destruct (promises c !! p) as [[[] rs]|] eqn:E;
    try (eapply (holds_back_frame _ _ _ []); rewrite ?app_nil_r; done).
  intros Hw. split; [|exists []; by rewrite app_nil_r].
  destruct Hw as [H1 H2 H3 H4 H5 H6]. constructor; try done.
  - simpl. by rewrite length_insert.
  - eapply Forall_impl; [done|]. unfold pending. simpl. intros q Hq.
    destruct (decide (q = p)) as [->|Hne].
    + rewrite list_lookup_insert_eq; [done|]. apply lookup_lt_is_Some. by rewrite E.
    + by rewrite list_lookup_insert_ne.
Qed.

Lemma holds_back_emit e : (∀ p ok, e ≠ Settled p ok) → keeps HB (Core.emit e).
Proof.
  intros He c. simpl. eapply (holds_back_frame _ _ _ [e]); try done.
  destruct e; try done. by destruct (He p fulfilled).
Qed.

Lemma holds_back_call name cv l : send_promise l = None → keeps HB (Core.call name cv l).
Proof.
  intros Hl. destruct l; simpl; [|done|].
  - by apply holds_back_emit.
  - apply keeps_bind; [apply _|apply holds_back_send|]. intros. apply keeps_ret, _.
Qed.

Lemma keeps_forEach_in {L} R `{!PreOrder R} (f : L → M conn unit) ls :
  (∀ l, l ∈ ls → keeps R (f l)) → keeps R (forEach f ls).
Proof.
  induction ls as [|l ls IH]; intros Hf; simpl; [by apply keeps_ret|].
  apply keeps_bind; [done|apply Hf, list_elem_of_here|].
  intros _. apply IH. intros l' Hl'. by apply Hf, list_elem_of_further.
Qed.

Lemma no_send_elem ls l : no_send ls → l ∈ ls → send_promise l = None.
Proof.
  unfold no_send. intros Hls Hl.
  destruct (send_promise l) as [p|] eqn:E; [|done].
  assert (Hp : p ∈ omap send_promise ls) by (apply list_elem_of_omap; eauto).
  rewrite Hls in Hp. by apply not_elem_of_nil in Hp.
Qed.

Lemma holds_back_forEach name cv ls :
  no_send ls → keeps HB (forEach (Core.call name cv) ls).
Proof.
  intros Hls. apply keeps_forEach_in; [apply _|].
  intros l Hl. apply holds_back_call. by eapply no_send_elem.
Qed.

Lemma holds_back_gets_bind {A B} (f : conn → A) (k : A → M conn B) :
  (∀ c, waiting ps c → HB c (k (f c) c).1) → keeps HB (bind (gets f) k).
Proof. intros Hk c Hc. unfold bind, gets. by apply Hk. Qed.

Lemma holds_back_delete name :
  name ≠ "open" →
  keeps HB (modify (fun s => set_eventEmitter
                     (Emitter (on_ (eventEmitter s)) (delete name (once_ (eventEmitter s)))) s)).
Proof.
  intros Hname c [H1 H2 H3 H4 H5 H6]. unfold modify. cbn [fst].
  split; [|exists []; by rewrite app_nil_r].
  assert (Hq : queued (set_eventEmitter
            (Emitter (on_ (eventEmitter c)) (delete name (once_ (eventEmitter c)))) c)
          = queued c).
  { unfold queued. simpl. by rewrite lookup_delete_ne. }
  constructor; rewrite ?Hq; try done.
  simpl. intros name' ls Hn [_ Hl]%lookup_delete_Some. by eapply H2.
Qed.

(** A dispatch of any name but ['open'] leaves the waiting sends alone. *)
Lemma holds_back_dispatch name : name ≠ "open" → keeps HB (Core.dispatch name).
Proof.
  intros Hname. unfold Core.dispatch, RTC_EventEmitter.dispatch.
  apply holds_back_gets_bind. intros c Hw.
  assert (Hk : keeps HB
            (match on_ (eventEmitter c) !! name with
             | Some ls => forEach (Core.call name Spread) ls
             | None => ret tt
             end ;;;
             let* onceEvent := gets (fun s => once_ (eventEmitter s)) in
             match onceEvent !! name with
             | Some ls =>
                 forEach (Core.call name Aggregate) ls ;;;
                 modify (fun s => set_eventEmitter
                           (Emitter (on_ (eventEmitter s))
                                    (delete name (once_ (eventEmitter s)))) s)
             | None => ret tt
             end)%js).
  { apply keeps_bind; [apply _| |].
    - destruct (on_ (eventEmitter c) !! name) as [ls|] eqn:E; [|apply keeps_ret, _].
      apply holds_back_forEach. by eapply (w_on _ _ Hw).
    - intros _. apply holds_back_gets_bind. intros c' Hw'.
      destruct (once_ (eventEmitter c') !! name) as [ls|] eqn:E; [|simpl; reflexivity].
      assert (Hk' : keeps HB
                (forEach (Core.call name Aggregate) ls ;;;
                 modify (fun s => set_eventEmitter
                           (Emitter (on_ (eventEmitter s))
                                    (delete name (once_ (eventEmitter s)))) s))%js).
      { apply keeps_bind; [apply _| |intros _; by apply holds_back_delete].
        apply holds_back_forEach. by eapply (w_once _ _ Hw'). }
      by apply Hk'. }
  by apply Hk.
Qed.
End HoldsBack.

Lemma settled_dispatched r name em : settled (dispatched r name em) = [].
Proof.
  unfold dispatched, settled. rewrite omap_app.
  assert (H : ∀ cv (ls : list nat), omap (fun e => match e with Settled p _ => Some p | _ => None end)
                (map (Fired (RoomBus r) name cv) ls) = []).
  { intros cv ls. induction ls; simpl; done. }
  by rewrite !H.
Qed.

Lemma event_channel_not_open x : String.append "event." x ≠ "open".
Proof. done. Qed.

Create HintDb hb discriminated.

Section HoldsBackLeaves.
Context (ps : list nat).
Local Abbreviation HB := (holds_back ps).

Lemma hb_modify_frame (f : conn → conn) :
  (∀ c, eventEmitter (f c) = eventEmitter c ∧ promises (f c) = promises c
        ∧ trace (f c) = trace c) →
  keeps HB (modify f).
Proof.
  intros Hf c. destruct (Hf c) as (He & Hp & Ht).
  eapply (holds_back_frame _ _ _ []); rewrite ?app_nil_r; done.
Qed.

Lemma hb_newWebSocket : keeps HB Core.newWebSocket.
Proof. intros c. by eapply (holds_back_frame _ _ _ [_]). Qed.

Lemma hb_ws_close sock : keeps HB (Core.ws_close sock).
Proof. unfold Core.ws_close. apply hb_modify_frame. intros c. by repeat case_match. Qed.

Lemma hb_setTimer k : keeps HB (Core.setTimer k).
Proof. intros c. eapply (holds_back_frame _ _ _ []); rewrite ?app_nil_r; done. Qed.

Lemma hb_clearTimer oh : keeps HB (Core.clearTimer oh).
Proof. unfold Core.clearTimer. apply hb_modify_frame. intros c. by destruct oh. Qed.

Lemma hb_emitEvent r name : keeps HB (Core.emitEvent r name).
Proof.
  intros c. rewrite emitEvent_eq. cbn zeta.
  eapply (holds_back_frame _ _ _ (dispatched r name (Core.room_emitter r c)));
    [by case_match..|apply settled_dispatched].
Qed.

Lemma hb_new_room name :
  keeps HB (fun c => (set_room_objects (room_objects c ++ [Room name new_emitter]) c,
                      Returned (length (room_objects c)))).
Proof. intros c. eapply (holds_back_frame _ _ _ []); rewrite ?app_nil_r; done. Qed.
End HoldsBackLeaves.

#[export] Hint Resolve holds_back_send holds_back_then hb_newWebSocket hb_ws_close
  hb_setTimer hb_clearTimer hb_emitEvent hb_new_room : hb.
#[export] Hint Extern 1 (keeps (holds_back _) (Core.emit _)) =>
  (apply holds_back_emit; done) : hb.
#[export] Hint Extern 1 (keeps (holds_back _) (Core.dispatch _)) =>
  (apply holds_back_dispatch; first [done | apply event_channel_not_open]) : hb.
#[export] Hint Extern 1 (keeps (holds_back _) (Core.listen _ _)) =>
  (apply holds_back_listen; done) : hb.
#[export] Hint Extern 4 (keeps (holds_back _) (modify _)) =>
  (apply hb_modify_frame; intros ?; done) : hb.

Ltac hb_auto := repeat first [ solve [eauto with hb] | keeps_step ].

Section HoldsBackMethods.
Context (ps : list nat).
Local Abbreviation HB := (holds_back ps).

Lemma hb_room_on r name l : keeps HB (Core.room_on r name l).
Proof. unfold Core.room_on, Core.set_room_emitter. hb_auto. Qed.
Lemma hb_room_once r name l : keeps HB (Core.room_once r name l).
Proof. unfold Core.room_once, Core.set_room_emitter. hb_auto. Qed.
Lemma hb_room_send r event data : keeps HB (Core.room_send r event data).
Proof. unfold Core.room_send. hb_auto. Qed.
Lemma hb_joinRoom join name : keeps HB (Core.joinRoom join name).
Proof. unfold Core.joinRoom, Core.new_RTC_Room. hb_auto. Qed.
Lemma hb_leaveRoom leave data name : keeps HB (Core.leaveRoom leave data name).
Proof. pose proof hb_room_send. unfold Core.leaveRoom. hb_auto. Qed.
Lemma hb_room_events event : keeps HB (Core.room_events event).
Proof. unfold Core.room_events. hb_auto. Qed.
Lemma hb_run_jobs : keeps HB Core.run_jobs.
Proof. unfold Core.run_jobs. hb_auto. destruct l. simpl. hb_auto. Qed.
Lemma hb_parse_nested o : keeps HB (Core.parse_nested o).
Proof. unfold Core.parse_nested. hb_auto. Qed.
Lemma hb_closeNativeWebsocketConnection : keeps HB Core.closeNativeWebsocketConnection.
Proof. unfold Core.closeNativeWebsocketConnection. hb_auto. Qed.
Lemma hb_poll h : keeps HB (Core.poll h).
Proof. unfold Core.poll. hb_auto. Qed.
Lemma hb_websocket_close : keeps HB Core.websocket_close.
Proof. unfold Core.websocket_close. hb_auto. Qed.
End HoldsBackMethods.

#[export] Hint Resolve hb_room_on hb_room_once hb_room_send hb_joinRoom hb_leaveRoom
  hb_room_events hb_run_jobs hb_parse_nested hb_closeNativeWebsocketConnection hb_poll
  hb_websocket_close : hb.

Section HoldsBackIndex.
Import Index.
Context (ps : list nat).
Local Abbreviation HB := (holds_back ps).

Lemma hb_Index_closeConnection b : keeps HB (closeConnection b).
Proof. unfold closeConnection. hb_auto. Qed.

Lemma hb_Index_createSocket b : keeps HB (createSocket b).
Proof. unfold createSocket. hb_auto. Qed.

Lemma hb_Index_reconnect : keeps HB reconnect.
Proof. pose proof hb_Index_closeConnection. unfold reconnect. hb_auto. Qed.

Lemma hb_Index_close : keeps HB close.
Proof.
  pose proof hb_Index_closeConnection.
  unfold close, clearPingPongInterval. hb_auto.
Qed.

Lemma hb_Index_changeState stateName :
  stateName ≠ "open" → keeps HB (changeState stateName).
Proof.
  intros Hn. pose proof hb_Index_reconnect.
  assert (keeps HB (Core.dispatch stateName)) by by apply holds_back_dispatch.
  unfold changeState. hb_auto.
Qed.

Lemma hb_Index_on_message f : keeps HB (on_message f).
Proof. unfold on_message, dispatch_message, router. hb_auto. Qed.

Lemma hb_Index_notify sock n : n ≠ NOpen → keeps HB (notify sock n).
Proof.
  intros Hn. pose proof hb_Index_on_message.
  assert (keeps HB (changeState "close")) by by apply hb_Index_changeState.
  assert (keeps HB (changeState "error")) by by apply hb_Index_changeState.
  unfold notify. destruct n; [done|..]; unfold on_close, on_error, clearPingPongInterval;
    hb_auto.
Qed.

Lemma hb_Index_fire h : keeps HB (fire h).
Proof. pose proof hb_Index_createSocket. unfold fire, ping. hb_auto. Qed.

Lemma hb_Index_api m : keeps HB (api m).
Proof.
  pose proof hb_Index_createSocket. pose proof hb_Index_close.
  pose proof hb_Index_reconnect.
  destruct m; simpl;
    unfold connect, leave, Core.setAuthToken, Core.setReconnectionInterval; hb_auto.
Qed.

Lemma hb_Index_step i : not_open i → keeps HB (step i).
Proof.
  intros Hi. destruct i as [m|sock n| | |]; simpl.
  - apply hb_Index_api.
  - apply hb_Index_notify. by intros ->.
  - apply hb_Index_fire.
  - hb_auto.
  - hb_auto.
Qed.

Lemma hb_Index_run inputs c : Forall not_open inputs → HB c (run inputs c).
Proof.
  intros Hin. revert c. induction Hin as [|i inputs Hi _ IH]; intros c; [done|].
  simpl. etrans; [by apply hb_Index_step|apply IH].
Qed.
End HoldsBackIndex.

Section HoldsBackWebsocketTs.
Import WebsocketTs.
Context (ps : list nat).
Local Abbreviation HB := (holds_back ps).

Lemma hb_WebsocketTs_closeConnection b reason : keeps HB (closeConnection b reason).
Proof. unfold closeConnection, sendToSystem. hb_auto. Qed.

Lemma hb_WebsocketTs_createSocket b : keeps HB (createSocket b).
Proof. unfold createSocket. hb_auto. Qed.

Lemma hb_WebsocketTs_reconnect : keeps HB reconnect.
Proof. pose proof hb_WebsocketTs_closeConnection. unfold reconnect. hb_auto. Qed.

Lemma hb_WebsocketTs_close : keeps HB close.
Proof. unfold close, stopPingPong, stopReconnectionTimeout, leave. hb_auto. Qed.

Lemma hb_WebsocketTs_changeState stateName :
  stateName ≠ "open" → keeps HB (changeState stateName).
Proof.
  intros Hn. pose proof hb_WebsocketTs_reconnect.
  assert (keeps HB (Core.dispatch stateName)) by by apply holds_back_dispatch.
  unfold changeState. hb_auto.
Qed.

Lemma hb_WebsocketTs_on_message f : keeps HB (on_message f).
Proof.
  unfold on_message, dispatch_message, router, sendToSystem, stopPingPong,
    stopReconnectionTimeout. hb_auto.
Qed.

Lemma hb_WebsocketTs_notify sock n : n ≠ NOpen → keeps HB (notify sock n).
Proof.
  intros Hn. pose proof hb_WebsocketTs_on_message.
  assert (keeps HB (changeState "close")) by by apply hb_WebsocketTs_changeState.
  assert (keeps HB (changeState "error")) by by apply hb_WebsocketTs_changeState.
  unfold notify. destruct n; [done|..]; unfold on_close, on_error, stopPingPong; hb_auto.
Qed.

Lemma hb_WebsocketTs_fire h : keeps HB (fire h).
Proof. pose proof hb_WebsocketTs_createSocket. unfold fire, ping, sendToSystem. hb_auto. Qed.

Lemma hb_WebsocketTs_run_immediate : keeps HB run_immediate.
Proof.
  pose proof hb_WebsocketTs_closeConnection.
  unfold run_immediate, run_task. hb_auto.
Qed.

Lemma hb_WebsocketTs_api m : keeps HB (api m).
Proof.
  pose proof hb_WebsocketTs_createSocket. pose proof hb_WebsocketTs_close.
  pose proof hb_WebsocketTs_reconnect.
  destruct m; simpl;
    unfold connect, leave, Core.setAuthToken, Core.setReconnectionInterval,
      setPingPongInterval, enableClientPing, stopPingPong, startPingPong; hb_auto.
Qed.

Lemma hb_WebsocketTs_step i : not_open i → keeps HB (step i).
Proof.
  intros Hi. destruct i as [m|sock n| | |]; simpl.
  - apply hb_WebsocketTs_api.
  - apply hb_WebsocketTs_notify. by intros ->.
  - apply hb_WebsocketTs_fire.
  - apply hb_WebsocketTs_run_immediate.
  - hb_auto.
Qed.

Lemma hb_WebsocketTs_run inputs c : Forall not_open inputs → HB c (run inputs c).
Proof.
  intros Hin. revert c. induction Hin as [|i inputs Hi _ IH]; intros c; [done|].
  simpl. etrans; [by apply hb_WebsocketTs_step|apply IH].
Qed.
End HoldsBackWebsocketTs.

(** *** The flush on ['open'] *)

Lemma filter_elem_of_cons_absent (p : nat) (ps l : list nat) :
  p ∉ l → filter (.∈ p :: ps) l = filter (.∈ ps) l.
Proof.
  induction l as [|x l IH]; intros Hp; [done|].
  apply not_elem_of_cons in Hp as [Hne Hp].
  destruct (decide (x ∈ ps)) as [Hx|Hx].
  - rewrite !filter_cons_True; [by rewrite IH|done|by apply list_elem_of_further].
  - rewrite !filter_cons_False; [by apply IH|done|].
    intros [?|?]%elem_of_cons; congruence.
Qed.

Lemma filter_none_of (ps l : list nat) :
  (∀ q, q ∈ l → q ∉ ps) → filter (.∈ ps) l = [].
Proof.
  induction l as [|x l IH]; intros H; [done|].
  rewrite filter_cons_False by (apply H, list_elem_of_here).
  apply IH. intros q Hq. by apply H, list_elem_of_further.
Qed.

Lemma bind_returns_state {A B} (m : M conn A) (k : A → M conn B) c :
  returns m → ∃ a, (m c).2 = Returned a ∧ bind m k c = k a (m c).1.
Proof.
  intros Hm. destruct (Hm c) as [a Ha]. exists a. split; [done|].
  unfold bind. destruct (m c) as [c1 r]. simpl in *. by subst r.
Qed.

(** What one listener of ['open'] does to the promises and to the trace. *)
Lemma call_open_step l c :
  let c1 := (Core.call "open" Aggregate l c).1 in
  ∃ t, trace c1 = trace c ++ t
       ∧ (length (promises c) ≤ length (promises c1))%nat
       ∧ (∀ q, pending c q → send_promise l ≠ Some q → pending c1 q)
       ∧ (∀ q, q < length (promises c) → pending c1 q → pending c q)
       ∧ match send_promise l with
         | Some p => (pending c p → settled t = [p] ∧ ¬ pending c1 p)
                     ∧ (¬ pending c p → settled t = [])
         | None => ∀ q, q ∈ settled t → (length (promises c) ≤ q)%nat
         end.
Proof.
  destruct l as [id|e p|e]; cbn zeta; cbn [Core.call send_promise].
  - exists [Fired ConnBus "open" Aggregate id]. split_and!; try done.
    intros q Hq. by apply not_elem_of_nil in Hq.
  - rewrite transmit_eq.
    assert (Hsettle : ∀ c0 ok, promises c0 = promises c →
              ∃ t, trace (Core.settle p ok c0).1 = trace c0 ++ t
                   ∧ (length (promises c) ≤ length (promises (Core.settle p ok c0).1))%nat
                   ∧ (∀ q, pending c q → Some p ≠ Some q → pending (Core.settle p ok c0).1 q)
                   ∧ (∀ q, q < length (promises c) → pending (Core.settle p ok c0).1 q
                           → pending c q)
                   ∧ (pending c p → settled t = [p] ∧ ¬ pending (Core.settle p ok c0).1 p)
                   ∧ (¬ pending c p → settled t = [])).
    { intros c0 ok Hc0. unfold Core.settle, pending. rewrite Hc0.
      destruct (promises c !! p) as [[[] rs]|] eqn:E; cbn [fst];
        try (exists []; rewrite app_nil_r, ?Hc0; split_and!; done).
      exists [Settled p ok]. simpl. rewrite ?Hc0, ?length_insert.
      split_and!; try done.
      - intros q Hq Hne. rewrite list_lookup_insert_ne by congruence. done.
      - intros q Hlt. destruct (decide (q = p)) as [->|Hne].
        + by rewrite E.
        + by rewrite list_lookup_insert_ne.
      - intros _. split; [done|].
        rewrite list_lookup_insert_eq by (apply lookup_lt_is_Some; by rewrite E).
        by destruct ok. }
    destruct (live_socket c) as [sock|].
    + destruct (Hsettle (set_trace (trace c ++ [Wire sock e]) c) true eq_refl)
        as (t & Ht & Hlen & Hother & Hback & Hp1 & Hp2).
      exists (Wire sock e :: t). split_and!; try done.
      * rewrite Ht. simpl. by rewrite <- app_assoc.
    + destruct (Hsettle c false eq_refl) as (t & Ht & Hlen & Hother & Hback & Hp1 & Hp2).
      exists t. split_and!; done.
  - unfold bind. destruct (send_returns (e_event e) (e_payload e) (e_receiver e) c) as [p0 Hp0].
    destruct (Core.send _ _ _ c) as [c1 r] eqn:Hsend. simpl in Hp0. subst r. cbn [fst ret].
    assert (Hc1 : c1 = (Core.send (e_event e) (e_payload e) (e_receiver e) c).1)
      by by rewrite Hsend.
    rewrite send_eq in Hc1. cbn zeta in Hc1.
    set (p := length (promises c)) in *.
    set (c0 := set_promises _ c) in *.
    assert (Hp : promises c0 !! p = Some (Promise Pending [])) by apply lookup_fresh_promise.
    assert (Hkeep : ∀ x q, q < length (promises c) →
              <[p := x]> (promises c ++ [Promise Pending []]) !! q = promises c !! q).
    { intros x q Hq. rewrite list_lookup_insert_ne by (unfold p; lia).
      by rewrite lookup_app_l. }
    destruct (Core.isOpened c); cbn [fst] in Hc1.
    + rewrite transmit_eq in Hc1. change (live_socket c0) with (live_socket c) in Hc1.
      destruct (live_socket c) as [sock|].
      * rewrite (settle_pending _ true []) in Hc1 by done. cbn [fst] in Hc1. subst c1.
        exists [Wire sock (Envelope (e_event e) (e_payload e) (e_receiver e)); Settled p true].
        simpl. rewrite length_insert, length_app. simpl.
        split_and!; [by rewrite <- app_assoc|lia| | |].
        -- intros q Hq _. pose proof (pending_lt _ _ Hq). unfold pending in *. simpl.
           by rewrite Hkeep.
        -- intros q Hq. unfold pending. simpl. by rewrite Hkeep.
        -- intros q ->%list_elem_of_singleton. done.
      * rewrite (settle_pending _ false []) in Hc1 by done. cbn [fst] in Hc1. subst c1.
        exists [Settled p false].
        simpl. rewrite length_insert, length_app. simpl.
        split_and!; [done|lia| | |].
        -- intros q Hq _. pose proof (pending_lt _ _ Hq). unfold pending in *. simpl.
           by rewrite Hkeep.
        -- intros q Hq. unfold pending. simpl. by rewrite Hkeep.
        -- intros q ->%list_elem_of_singleton. done.
    + subst c1. exists []. simpl. rewrite app_nil_r, length_app. simpl.
      split_and!; [done|lia| | |].
      * intros q Hq _. pose proof (pending_lt _ _ Hq). unfold pending in *. simpl.
        by rewrite lookup_app_l.
      * intros q Hq. unfold pending. simpl. by rewrite lookup_app_l.
      * intros q Hq. by apply not_elem_of_nil in Hq.
Qed.

Lemma forEach_cons_state {L} (f : L → M conn unit) l ls c :
  returns (f l) → (forEach f (l :: ls) c).1 = (forEach f ls (f l c).1).1.
Proof.
  intros Hf. simpl. destruct (bind_returns_state (f l) (fun _ => forEach f ls) c Hf)
    as ([] & _ & ->). done.
Qed.

(** The one-shot listeners of ['open'] run in the order of the list: the
    promises [ps] of the queue are settled in this order. *)
Lemma flush_queue ls : ∀ c ps,
  NoDup (omap send_promise ls) →
  Forall (fun p => p < length (promises c)) (omap send_promise ls) →
  ps `sublist_of` omap send_promise ls →
  Forall (pending c) ps →
  ∃ t, trace (forEach (Core.call "open" Aggregate) ls c).1 = trace c ++ t
       ∧ filter (.∈ ps) (settled t) = ps
       ∧ (∀ q, q ∈ settled t → pending c q ∨ (length (promises c) ≤ q)%nat).
Proof.
  induction ls as [|l ls IH]; intros c ps Hnd Hbound Hsub Hpend.
  - simpl in Hsub. apply sublist_nil_r in Hsub as ->.
    exists []. simpl. rewrite app_nil_r. split_and!; [done..|].
    intros q Hq. by apply not_elem_of_nil in Hq.
  - rewrite forEach_cons_state by apply returns_call.
    destruct (call_open_step l c) as (t & Ht & Hlen & Hother & Hback & Hl).
    set (c1 := (Core.call "open" Aggregate l c).1) in *. clearbody c1.
    simpl in Hnd, Hbound, Hsub. rewrite Forall_forall in Hpend.
    assert (Hthird : ∀ t', (∀ q, q ∈ settled t → pending c q ∨ (length (promises c) ≤ q)%nat) →
              (∀ q, q ∈ settled t' → pending c1 q ∨ (length (promises c1) ≤ q)%nat) →
              ∀ q, q ∈ settled (t ++ t') → pending c q ∨ (length (promises c) ≤ q)%nat).
    { intros t' H1 H2 q. rewrite settled_app, elem_of_app. intros [Hq|Hq]; [by apply H1|].
      destruct (H2 q Hq) as [Hp|Hge]; [|right; lia].
      destruct (decide (q < length (promises c))); [left; by apply Hback|right; lia]. }
    destruct (send_promise l) as [p|] eqn:El.
    + apply NoDup_cons in Hnd as [Hp Hnd]. apply Forall_cons in Hbound as [Hpb Hbound].
      assert (Hbound1 : Forall (fun p => p < length (promises c1)) (omap send_promise ls)).
      { eapply Forall_impl; [done|]. simpl. intros; lia. }
      destruct Hl as [Hl1 Hl2].
      assert (Hfirst : ∀ q, q ∈ settled t → pending c q ∨ (length (promises c) ≤ q)%nat).
      { intros q Hq. destruct (decide (p_state <$> promises c !! p = Some Pending)) as [Hpp|Hpp].
        - destruct (Hl1 Hpp) as [Hs _]. rewrite Hs in Hq.
          apply list_elem_of_singleton in Hq as ->. by left.
        - rewrite (Hl2 Hpp) in Hq. by apply not_elem_of_nil in Hq. }
      assert (Honly : ∀ q, q ∈ settled t → q = p).
      { intros q Hq. destruct (decide (p_state <$> promises c !! p = Some Pending)) as [Hpp|Hpp].
        - destruct (Hl1 Hpp) as [Hs _]. rewrite Hs in Hq.
          by apply list_elem_of_singleton in Hq.
        - rewrite (Hl2 Hpp) in Hq. by apply not_elem_of_nil in Hq. }
      apply sublist_cons_r in Hsub as [Hsub|(ps' & -> & Hsub)].
      * assert (Hnotin : p ∉ ps).
        { intros Hin. apply Hp. by eapply sublist_subseteq. }
        destruct (IH c1 ps Hnd Hbound1 Hsub) as (t' & Ht' & Hf' & Hq').
        { apply Forall_forall. intros q Hq. apply Hother; [by apply Hpend|].
          intros [= ->]. done. }
        exists (t ++ t'). split_and!.
        -- by rewrite Ht', Ht, app_assoc.
        -- rewrite settled_app, filter_app, Hf'.
           rewrite (filter_none_of ps (settled t)); [done|].
           intros q Hq. by rewrite (Honly q Hq).
        -- by apply Hthird.
      * assert (Hpp : pending c p) by apply Hpend, list_elem_of_here.
        destruct (Hl1 Hpp) as [Hs Hnp].
        assert (Hnotin : p ∉ ps').
        { intros Hin. apply Hp. by eapply sublist_subseteq. }
        destruct (IH c1 ps' Hnd Hbound1 Hsub) as (t' & Ht' & Hf' & Hq').
        { apply Forall_forall. intros q Hq. apply Hother.
          - by apply Hpend, list_elem_of_further.
          - intros [= ->]. done. }
        exists (t ++ t'). split_and!.
        -- by rewrite Ht', Ht, app_assoc.
        -- rewrite settled_app, filter_app, Hs.
           rewrite filter_cons_True by apply list_elem_of_here. rewrite filter_nil.
           rewrite filter_elem_of_cons_absent; [by rewrite Hf'|].
           intros Hin. destruct (Hq' p Hin) as [?|?]; [done|lia].
        -- by apply Hthird.
    + assert (Hbound1 : Forall (fun p => p < length (promises c1)) (omap send_promise ls)).
      { eapply Forall_impl; [done|]. simpl. intros; lia. }
      destruct (IH c1 ps Hnd Hbound1 Hsub) as (t' & Ht' & Hf' & Hq').
      { apply Forall_forall. intros q Hq. apply Hother; [by apply Hpend|done]. }
      exists (t ++ t'). split_and!.
      * by rewrite Ht', Ht, app_assoc.
      * rewrite settled_app, filter_app, Hf'.
        rewrite (filter_none_of ps (settled t)); [done|].
        intros q Hq Hin. pose proof (Hl q Hq). pose proof (pending_lt _ _ (Hpend q Hin)). lia.
      * apply Hthird; [|done]. intros q Hq. right. by apply Hl.
Qed.

Ltac returns_auto :=
  repeat first
    [ apply returns_ret | apply returns_gets | apply returns_modify
    | apply returns_send | apply returns_dispatch | apply returns_setTimer
    | apply returns_bind; [|intros ?]
    | match goal with |- returns (match ?x with _ => _ end) => destruct x end
    | match goal with |- returns (if ?b then _ else _) => destruct b end ].

(** *** The listeners that a listener of ['open'] leaves *)

#[export] Instance same_listeners_preorder : PreOrder same_listeners.
Proof.
  split.
  - by intros c.
  - intros c1 c2 c3 [H1 H2] [H3 H4]. split; [by rewrite H3|].
    intros name Hn. by rewrite H4, H2.
Qed.

Lemma same_listeners_settle p ok : keeps same_listeners (Core.settle p ok).
Proof. intros c. unfold Core.settle. by destruct (promises c !! p) as [[[] rs]|]. Qed.

Lemma same_listeners_transmit e p : keeps same_listeners (Core.transmit e p).
Proof.
  intros c. rewrite transmit_eq.
  destruct (live_socket c); [|apply same_listeners_settle].
  etrans; [|apply same_listeners_settle]. done.
Qed.

Lemma same_listeners_send event message receiver :
  keeps same_listeners (Core.send event message receiver).
Proof.
  intros c. rewrite send_eq. cbn zeta.
  destruct (Core.isOpened c); cbn [fst].
  - etrans; [|apply same_listeners_transmit]. done.
  - destruct (once_lookup "open"
                (SendWhenOpen (Envelope event message receiver) (length (promises c)))
                (eventEmitter c)) as (Hon & _ & Hother).
    split; cbn [eventEmitter set_eventEmitter set_promises]; [done|].
    intros name Hn. by apply Hother.
Qed.

Lemma same_listeners_call name cv l : keeps same_listeners (Core.call name cv l).
Proof.
  destruct l as [id|e p|e]; cbn [Core.call].
  - by intros c.
  - apply same_listeners_transmit.
  - apply keeps_bind; [apply _|apply same_listeners_send|]. intros. apply keeps_ret, _.
Qed.

Lemma same_listeners_forEach name cv ls :
  keeps same_listeners (forEach (Core.call name cv) ls).
Proof. apply keeps_forEach_in; [apply _|]. intros. apply same_listeners_call. Qed.

(** After [dispatch('open')] no send is left in the queue. *)
Lemma waiting_dispatch_open ps c : waiting ps c → waiting [] (Core.dispatch "open" c).1.
Proof.
  intros [H1 H2 _ _ _ _].
  assert (Hd : ∃ c', (Core.dispatch "open" c).1 = c' ∧ same_listeners c c'
                     ∧ once_ (eventEmitter c') !! "open" = None).
  { unfold Core.dispatch, RTC_EventEmitter.dispatch. unfold bind at 1, gets at 1.
    set (M1 := match on_ (eventEmitter c) !! "open" with
               | Some ls => forEach (Core.call "open" Spread) ls
               | None => ret tt
               end).
    assert (Hret1 : returns M1).
    { subst M1. destruct (on_ (eventEmitter c) !! "open"); [|apply returns_ret].
      apply returns_forEach. intros; apply returns_call. }
    assert (Hkeep1 : same_listeners c (M1 c).1).
    { subst M1. destruct (on_ (eventEmitter c) !! "open"); [|done].
      apply same_listeners_forEach. }
    match goal with |- context [bind M1 ?k] =>
      destruct (bind_returns_state M1 k c Hret1) as ([] & _ & ->) end.
    set (c1 := (M1 c).1) in *. clearbody c1.
    unfold bind at 1, gets at 1.
    destruct (once_ (eventEmitter c1) !! "open") as [ls|] eqn:E;
      [|eexists; split; [reflexivity|by split]].
    match goal with |- context [bind ?m ?k c1] =>
      destruct (bind_returns_state m k c1) as ([] & _ & ->) end.
    { apply returns_forEach. intros; apply returns_call. }
    pose proof (same_listeners_forEach "open" Aggregate ls c1) as Hkeep2.
    set (c2 := (forEach _ ls c1).1) in *. clearbody c2.
    eexists; split; [reflexivity|].
    unfold modify. cbn [fst eventEmitter set_eventEmitter on_ once_].
    split; [|by rewrite lookup_delete_eq].
    etrans; [done|]. etrans; [done|].
    split; cbn [eventEmitter set_eventEmitter on_ once_]; [done|].
    intros name Hn. by rewrite lookup_delete_ne. }
  destruct Hd as (c' & -> & [Hon Honce] & Hopen).
  assert (Hq : queued c' = []) by (unfold queued; by rewrite Hopen).
  constructor; rewrite ?Hq.
  - intros name ls. rewrite Hon. apply H1.
  - intros name ls Hn. rewrite Honce by done. by apply H2.
  - constructor.
  - apply NoDup_nil_2.
  - done.
  - constructor.
Qed.

Section Flush.
Context (ps : list nat).

Lemma flushes_bind {A B} (m : M conn A) (k : A → M conn B) :
  keeps (holds_back ps) m → returns m → (∀ a, flushes ps (k a)) → flushes ps (bind m k).
Proof.
  intros Hm Hret Hk c Hw.
  destruct (bind_returns_state m k c Hret) as (a & _ & ->).
  destruct (Hm c Hw) as (Hw1 & t1 & Ht1 & Hf1).
  destruct (Hk a _ Hw1) as (Hw2 & t2 & Ht2 & Hf2).
  split; [done|]. exists (t1 ++ t2). split.
  - by rewrite Ht2, Ht1, app_assoc.
  - by rewrite settled_app, filter_app, Hf1, Hf2.
Qed.

(** [dispatch('open')] settles the waiting sends, in the order of the queue. *)
Lemma flushes_dispatch_open : flushes ps (Core.dispatch "open").
Proof.
  intros c Hw. split; [by eapply waiting_dispatch_open|].
  unfold Core.dispatch, RTC_EventEmitter.dispatch.
  unfold bind at 1, gets at 1.
  set (M1 := match on_ (eventEmitter c) !! "open" with
             | Some ls => forEach (Core.call "open" Spread) ls
             | None => ret tt
             end).
  assert (Hret1 : returns M1).
  { subst M1. destruct (on_ (eventEmitter c) !! "open"); [|apply returns_ret].
    apply returns_forEach. intros; apply returns_call. }
  assert (Hkeep1 : keeps (holds_back ps) M1).
  { subst M1. destruct (on_ (eventEmitter c) !! "open") as [ls|] eqn:E; [|apply keeps_ret, _].
    apply holds_back_forEach. by eapply (w_on _ _ Hw). }
  match goal with |- context [bind M1 ?k] =>
    destruct (bind_returns_state M1 k c Hret1) as ([] & _ & ->) end.
  destruct (Hkeep1 c Hw) as (Hw1 & t1 & Ht1 & Hf1).
  set (c1 := (M1 c).1) in *. clearbody c1.
  unfold bind at 1, gets at 1.
  destruct (once_ (eventEmitter c1) !! "open") as [ls|] eqn:E.
  - destruct (flush_queue ls c1 ps) as (t2 & Ht2 & Hf2 & _).
    + pose proof (w_nodup _ _ Hw1) as Hnd. unfold queued in Hnd. by rewrite E in Hnd.
    + pose proof (w_bound _ _ Hw1) as Hb. unfold queued in Hb. by rewrite E in Hb.
    + pose proof (w_sub _ _ Hw1) as Hs. unfold queued in Hs. by rewrite E in Hs.
    + apply (w_pending _ _ Hw1).
    + match goal with |- context [bind ?m ?k c1] =>
        destruct (bind_returns_state m k c1) as ([] & _ & ->) end.
      { apply returns_forEach. intros; apply returns_call. }
      exists (t1 ++ t2). split.
      * simpl. by rewrite Ht2, Ht1, app_assoc.
      * by rewrite settled_app, filter_app, Hf1, Hf2.
  - exists t1. split; [done|].
    pose proof (w_sub _ _ Hw1) as Hs. unfold queued in Hs. rewrite E in Hs.
    simpl in Hs. apply sublist_nil_r in Hs. by rewrite Hs in *.
Qed.

Lemma flushes_Index_changeState_open : flushes ps (Index.changeState "open").
Proof.
  unfold Index.changeState.
  apply flushes_bind; [hb_auto|returns_auto|]. intros _.
  apply flushes_bind; [hb_auto|returns_auto|]. intros will.
  rewrite bool_decide_eq_false_2 by done. cbn [andb].
  apply flushes_bind; [hb_auto|returns_auto|]. intros _.
  apply flushes_dispatch_open.
Qed.

Lemma flushes_WebsocketTs_changeState_open : flushes ps (WebsocketTs.changeState "open").
Proof.
  unfold WebsocketTs.changeState.
  apply flushes_bind; [hb_auto|returns_auto|]. intros _.
  apply flushes_bind; [hb_auto|returns_auto|]. intros will.
  rewrite bool_decide_eq_false_2 by done. cbn [andb].
  apply flushes_bind; [hb_auto|returns_auto|]. intros _.
  apply flushes_dispatch_open.
Qed.

Lemma flushes_Index_on_open : flushes ps Index.on_open.
Proof.
  unfold Index.on_open.
  repeat first [ apply flushes_Index_changeState_open
               | apply flushes_bind; [solve [hb_auto]|solve [returns_auto]|intros ?] ].
Qed.

Lemma flushes_WebsocketTs_on_open : flushes ps WebsocketTs.on_open.
Proof.
  unfold WebsocketTs.on_open, WebsocketTs.startPingPong.
  repeat first [ apply flushes_WebsocketTs_changeState_open
               | apply flushes_bind; [solve [hb_auto]|solve [returns_auto]|intros ?] ].
Qed.

(** The ['open'] notification of any socket settles the waiting sends in the
    order in which they were queued. *)
Lemma open_notification_flushes c sock :
  waiting ps c → is_Some (sockets c !! sock) →
  filter (.∈ ps) (settled (added c (Index.notify sock NOpen c).1)) = ps
  ∧ filter (.∈ ps) (settled (added c (WebsocketTs.notify sock NOpen c).1)) = ps.
Proof.
  intros Hw [st Hst].
  assert (H1 : flushes ps (modify (fun c => set_sockets (<[sock := OPEN]> (sockets c)) c)
                           ;;; Index.on_open)%js).
  { apply flushes_bind; [hb_auto|returns_auto|]. intros _. apply flushes_Index_on_open. }
  assert (H2 : flushes ps (modify (fun c => set_sockets (<[sock := OPEN]> (sockets c)) c)
                           ;;; WebsocketTs.on_open)%js).
  { apply flushes_bind; [hb_auto|returns_auto|]. intros _. apply flushes_WebsocketTs_on_open. }
  unfold Index.notify, WebsocketTs.notify. unfold bind at 1 3, gets at 1 2.
  rewrite Hst.
  destruct (H1 c Hw) as (_ & t1 & Ht1 & Hf1). destruct (H2 c Hw) as (_ & t2 & Ht2 & Hf2).
  by rewrite (added_app _ _ _ Ht1), (added_app _ _ _ Ht2).
Qed.
End Flush.

(** *** Sends made while the connection is not open *)

Lemma send_all_cons e msgs c :
  Core.isOpened c = false →
  send_all (e :: msgs) c =
    let p := length (promises c) in
    let c1 := set_eventEmitter
                (pushed_once "open" (SendWhenOpen e p) (eventEmitter c))
                (set_promises (promises c ++ [Promise Pending []]) c) in
    match send_all msgs c1 with
    | (c2, Returned ps) => (c2, Returned (p :: ps))
    | (c2, Thrown x) => (c2, Thrown x)
    end.
Proof.
  intros Hopen. cbn [send_all]. unfold bind at 1. rewrite send_eq. cbn zeta.
  rewrite Hopen. destruct e as [event data receiver]. cbn [e_event e_payload e_receiver].
  unfold bind. by destruct (send_all msgs _) as [c2 [ps|x]].
Qed.

Lemma send_all_spec msgs : ∀ c,
  Core.isOpened c = false →
  let r := send_all msgs c in
  let ps := seq (length (promises c)) (length msgs) in
  r.2 = Returned ps
  ∧ trace r.1 = trace c
  ∧ promises r.1 = promises c ++ replicate (length msgs) (Promise Pending [])
  ∧ on_ (eventEmitter r.1) = on_ (eventEmitter c)
  ∧ (∀ name, name ≠ "open" →
       once_ (eventEmitter r.1) !! name = once_ (eventEmitter c) !! name)
  ∧ default [] (once_ (eventEmitter r.1) !! "open")
    = default [] (once_ (eventEmitter c) !! "open")
      ++ zip_with SendWhenOpen msgs ps
  ∧ Core.isOpened r.1 = false.
Proof.
  induction msgs as [|e msgs IH]; intros c Hopen; cbn zeta.
  - simpl. rewrite !app_nil_r. done.
  - rewrite (send_all_cons e msgs c Hopen). cbn zeta.
    set (p := length (promises c)).
    set (l := SendWhenOpen e p).
    set (c1 := set_eventEmitter _ _).
    destruct (once_lookup "open" l (eventEmitter c)) as (Hon & Hq & Hother).
    assert (Hopen1 : Core.isOpened c1 = false) by done.
    destruct (IH c1 Hopen1) as (Hr & Ht & Hp & Hon' & Hother' & Hq' & Ho').
    assert (Hlen : length (promises c1) = S p).
    { unfold c1. cbn [promises set_eventEmitter set_promises].
      rewrite length_app. simpl. unfold p. lia. }
    rewrite Hlen in Hr, Hq'.
    assert (Hp1 : promises c1 = promises c ++ [Promise Pending []]) by done.
    assert (He1 : eventEmitter c1 = pushed_once "open" l (eventEmitter c)) by done.
    assert (Ht1 : trace c1 = trace c) by done.
    rewrite Hp1 in Hp. rewrite He1 in Hon', Hother', Hq'. rewrite Hq in Hq'.
    rewrite Ht1 in Ht.
    clearbody c1.
    destruct (send_all msgs c1) as [c2 [ps2|e2]]; cbn [fst snd] in *; [|done].
    injection Hr as ->. cbn [length seq replicate zip_with].
    split_and!.
    + done.
    + done.
    + rewrite Hp. by rewrite <- app_assoc.
    + by rewrite Hon'.
    + intros name Hn. rewrite Hother' by done. by apply Hother.
    + rewrite Hq'. cbn [default from_option id]. by rewrite <- app_assoc.
    + done.
Qed.

Lemma queued_zip (msgs : list envelope) (ps : list nat) :
  length msgs = length ps → omap send_promise (zip_with SendWhenOpen msgs ps) = ps.
Proof.
  revert ps. induction msgs as [|e msgs IH]; intros [|p ps] Hlen; simpl in *; try done.
  rewrite IH; [done|lia].
Qed.

Lemma send_all_waiting msgs c :
  Core.isOpened c = false → waiting [] c →
  let ps := seq (length (promises c)) (length msgs) in
  waiting ps (send_all msgs c).1
  ∧ queued (send_all msgs c).1 = queued c ++ ps.
Proof.
  intros Hopen [H1 H2 H3 H4 _ _]. cbn zeta.
  destruct (send_all_spec msgs c Hopen) as (_ & Ht & Hp & Hon & Hother & Hq & _).
  set (c' := (send_all msgs c).1) in *. clearbody c'.
  set (ps := seq (length (promises c)) (length msgs)) in *.
  assert (Hqueue : queued c' = queued c ++ ps).
  { unfold queued. rewrite Hq, omap_app, queued_zip; [done|]. unfold ps. by rewrite length_seq. }
  split; [|done]. constructor.
  - intros name ls. rewrite Hon. apply H1.
  - intros name ls Hn. rewrite Hother by done. by apply H2.
  - rewrite Hqueue, Hp, length_app, length_replicate. apply Forall_app. split.
    + eapply Forall_impl; [done|]. simpl. intros; lia.
    + apply Forall_forall. intros q Hq1. unfold ps in Hq1. apply elem_of_seq in Hq1. lia.
  - rewrite Hqueue. apply NoDup_app. split_and!; [done| |apply NoDup_seq].
    intros q Hq1 Hq2. apply (proj1 (Forall_forall _ _) H3) in Hq1.
    unfold ps in Hq2. apply elem_of_seq in Hq2. lia.
  - rewrite Hqueue. apply sublist_inserts_l. done.
  - apply Forall_forall. intros q Hq1. unfold ps in Hq1. apply elem_of_seq in Hq1.
    unfold pending. rewrite Hp, lookup_app_r by lia.
    rewrite lookup_replicate_2 by lia. done.
Qed.

(** C1: [send] called while the connection is not open does not throw, sends
    and settles nothing, and appends one one-shot listener of ['open'] per
    call; the promises stay pending through every input that is not an
    ['open'] notification, and the ['open'] notification of a socket settles
    them in the order of the calls. This holds for index.ts and for
    Websocket.ts. *)
Theorem queued_sends_settle_on_open_in_call_order c msgs :
  Core.isOpened c = false → waiting [] c →
  let r := send_all msgs c in
  let ps := seq (length (promises c)) (length msgs) in
  r.2 = Returned ps
  ∧ added c r.1 = []
  ∧ default [] (once_ (eventEmitter r.1) !! "open")
    = default [] (once_ (eventEmitter c) !! "open") ++ zip_with SendWhenOpen msgs ps
  ∧ Forall (pending r.1) ps
  ∧ ∀ inputs sock, Forall not_open inputs →
      (let c2 := Index.run inputs r.1 in
       Forall (pending c2) ps
       ∧ filter (.∈ ps) (settled (added r.1 c2)) = []
       ∧ (is_Some (sockets c2 !! sock) →
          filter (.∈ ps) (settled (added c2 (Index.notify sock NOpen c2).1)) = ps))
      ∧ (let c2 := WebsocketTs.run inputs r.1 in
         Forall (pending c2) ps
         ∧ filter (.∈ ps) (settled (added r.1 c2)) = []
         ∧ (is_Some (sockets c2 !! sock) →
            filter (.∈ ps) (settled (added c2 (WebsocketTs.notify sock NOpen c2).1)) = ps)).
Proof.
  intros Hopen Hw. cbn zeta.
  destruct (send_all_spec msgs c Hopen) as (Hr & Ht & _ & _ & _ & Hq & _).
  destruct (send_all_waiting msgs c Hopen Hw) as (Hw1 & _).
  set (c1 := (send_all msgs c).1) in *. clearbody c1.
  set (ps := seq (length (promises c)) (length msgs)) in *.
  split_and!; [done| |done|apply (w_pending _ _ Hw1)|].
  { apply added_app. by rewrite app_nil_r. }
  intros inputs sock Hin. split; cbn zeta.
  - destruct (hb_Index_run ps inputs c1 Hin Hw1) as (Hw2 & t & Ht2 & Hf).
    split_and!.
    + apply (w_pending _ _ Hw2).
    + by rewrite (added_app _ _ _ Ht2).
    + intros Hsock. by apply open_notification_flushes.
  - destruct (hb_WebsocketTs_run ps inputs c1 Hin Hw1) as (Hw2 & t & Ht2 & Hf).
    split_and!.
    + apply (w_pending _ _ Hw2).
    + by rewrite (added_app _ _ _ Ht2).
    + intros Hsock. by apply open_notification_flushes.
Qed.

(** A new connection has the shape that the theorem asks of its start. *)
Lemma waiting_new_conn interval : waiting [] (new_conn interval).
Proof.
  assert (Hq : queued (new_conn interval) = []) by done.
  constructor; rewrite ?Hq.
  - intros name ls H. simpl in H. by rewrite lookup_empty in H.
  - intros name ls _ H. simpl in H. by rewrite lookup_empty in H.
  - constructor.
  - apply NoDup_nil_2.
  - done.
  - constructor.
Qed.

(** The ['open'] notification of a socket leaves no send in the queue. *)
Lemma waiting_open_notification c sock :
  waiting [] c →
  waiting [] (Index.notify sock NOpen c).1 ∧ waiting [] (WebsocketTs.notify sock NOpen c).1.
Proof.
  intros Hw.
  assert (H1 : flushes [] (modify (fun c => set_sockets (<[sock := OPEN]> (sockets c)) c)
                           ;;; Index.on_open)%js).
  { apply flushes_bind; [hb_auto|returns_auto|]. intros _. apply flushes_Index_on_open. }
  assert (H2 : flushes [] (modify (fun c => set_sockets (<[sock := OPEN]> (sockets c)) c)
                           ;;; WebsocketTs.on_open)%js).
  { apply flushes_bind; [hb_auto|returns_auto|]. intros _. apply flushes_WebsocketTs_on_open. }
  unfold Index.notify, WebsocketTs.notify. unfold bind at 1 3, gets at 1 2.
  destruct (sockets c !! sock); [|done].
  split; [apply (H1 c Hw)|apply (H2 c Hw)].
Qed.

Lemma waiting_Index_step i c : waiting [] c → waiting [] (Index.step i c).1.
Proof.
  intros Hw.
  destruct i as [m|sock []| | |];
    try (by apply waiting_open_notification); by apply (hb_Index_step []).
Qed.

Lemma waiting_WebsocketTs_step i c : waiting [] c → waiting [] (WebsocketTs.step i c).1.
Proof.
  intros Hw.
  destruct i as [m|sock []| | |];
    try (by apply waiting_open_notification); by apply (hb_WebsocketTs_step []).
Qed.

Lemma waiting_Index_run inputs : ∀ c, waiting [] c → waiting [] (Index.run inputs c).
Proof.
  induction inputs as [|i inputs IH]; intros c Hw; [done|].
  simpl. by apply IH, waiting_Index_step.
Qed.

Lemma waiting_WebsocketTs_run inputs :
  ∀ c, waiting [] c → waiting [] (WebsocketTs.run inputs c).
Proof.
  induction inputs as [|i inputs IH]; intros c Hw; [done|].
  simpl. by apply IH, waiting_WebsocketTs_step.
Qed.

(** Every state of a run has the shape that the theorem asks of its start. *)
Lemma waiting_run inputs :
  waiting [] (Index.run inputs Index.new_RTC_Websocket)
  ∧ waiting [] (WebsocketTs.run inputs WebsocketTs.new_RTC_Websocket).
Proof.
  split; [apply waiting_Index_run|apply waiting_WebsocketTs_run]; apply waiting_new_conn.
Qed.

Lemma queued_sends_witness :
  let c := Index.new_RTC_Websocket in
  let msgs := [Envelope "a" PNull None; Envelope "b" (PText "x") None] in
  let c2 := Index.run [Api Method.connect] (send_all msgs c).1 in
  Core.isOpened c = false ∧ waiting [] c
  ∧ filter (.∈ seq 0 2) (settled (added c2 (Index.notify 0 NOpen c2).1)) = seq 0 2.
Proof.
  cbn zeta. split; [reflexivity|]. split; [apply waiting_new_conn|].
  destruct (queued_sends_settle_on_open_in_call_order Index.new_RTC_Websocket
              [Envelope "a" PNull None; Envelope "b" (PText "x") None]
              eq_refl (waiting_new_conn 5000)) as (_ & _ & _ & _ & H).
  destruct (H [Api Method.connect] 0) as [(_ & _ & Hflush) _].
  { repeat constructor. }
  apply Hflush. vm_compute. by eexists.
Defined.

(** ** What the rejection does *)

Lemma clearTimer_absent h k c : (h, k) ∉ timers (Core.clearTimer (Some h) c).1.
Proof. simpl. intros [Hne _]%list_elem_of_filter. by apply Hne. Qed.

Lemma clearTimer_subseteq oh c : timers (Core.clearTimer oh c).1 ⊆ timers c.
Proof.
  destruct oh as [h|]; simpl; [|done]. intros t [_ Ht]%list_elem_of_filter. done.
Qed.

(** The run of the listener on a [conn.rejected] frame that decodes: two
    dispatches, the three statements of the rejection, and the dispatch of
    ['message'] unless the log line threw. *)
Lemma rejection_unfold c sock event :
  is_Some (sockets c !! sock) → ev_event event = "conn.rejected" → decodes event →
  ∃ c2, calm c c2
        ∧ calm ((WebsocketTs.stopPingPong ;;; WebsocketTs.stopReconnectionTimeout ;;;
                 modify (set_canReconnect false) ;;;
                 match ev_data event with
                 | None => throw TypeError
                 | Some _ => ret tt
                 end)%js c2).1
               (WebsocketTs.notify sock (NMessage (Json event)) c).1.
Proof.
  intros [st Hst] Hev (sd & Hsd & Hinfo & Huser).
  set (rest := (WebsocketTs.stopPingPong ;;; _)%js).
  assert (Hparse : ∀ o, o ≠ Some NotJson → Core.parse_nested o c = (c, Returned tt)).
  { intros [[]|] Ho; done. }
  assert (Hn : WebsocketTs.notify sock (NMessage (Json event)) c
               = ((Core.dispatch "event" ;;;
                   Core.dispatch (String.append "event." (ev_event event)) ;;;
                   rest) ;;; Core.dispatch "message")%js c).
  { unfold WebsocketTs.notify. unfold bind at 1, gets at 1. rewrite Hst.
    unfold WebsocketTs.on_message.
    rewrite !bool_decide_eq_false_2 by (rewrite Hev; discriminate). rewrite Hsd.
    unfold bind at 1. rewrite (Hparse _ Hinfo). unfold bind at 1. rewrite (Hparse _ Huser).
    unfold WebsocketTs.dispatch_message, WebsocketTs.router.
    rewrite bool_decide_eq_true_2 by (rewrite Hev; discriminate).
    rewrite (bool_decide_eq_true_2 _ Hev). reflexivity. }
  rewrite Hn. clear Hn.
  unfold bind at 1.
  destruct (bind_returns_state (Core.dispatch "event")
              (fun _ => (Core.dispatch (String.append "event." (ev_event event)) ;;; rest)%js)
              c (returns_dispatch _)) as ([] & _ & ->).
  pose proof (calm_dispatch "event" c) as Hc1.
  set (c1 := (Core.dispatch "event" c).1) in *. clearbody c1.
  destruct (bind_returns_state (Core.dispatch (String.append "event." (ev_event event)))
              (fun _ => rest) c1 (returns_dispatch _)) as ([] & _ & ->).
  pose proof (calm_dispatch (String.append "event." (ev_event event)) c1) as Hc2.
  set (c2 := (Core.dispatch _ c1).1) in *. clearbody c2.
  exists c2. split; [by etrans|].
  destruct (rest c2) as [c3 [[]|e]]; cbn [fst].
  - apply calm_dispatch.
  - reflexivity.
Qed.

(** On a [conn.rejected] frame that decodes, the listener of Websocket.ts sets
    [canReconnect] to false and clears the two timers whose handles the
    connection holds. *)
Lemma rejection_stops_the_held_timers c sock event :
  is_Some (sockets c !! sock) → ev_event event = "conn.rejected" → decodes event →
  let c' := (WebsocketTs.notify sock (NMessage (Json event)) c).1 in
  canReconnect c' = false
  ∧ (∀ h k, reconnectionTimeout c = Some h → (h, k) ∉ timers c')
  ∧ (∀ h k, pingPongIntervalTimer c = Some h → (h, k) ∉ timers c').
Proof.
  intros Hsock Hev Hdec. cbn zeta.
  destruct (rejection_unfold c sock event Hsock Hev Hdec) as (c2 & Hc & H3).
  set (c' := (WebsocketTs.notify _ _ c).1) in *. clearbody c'.
  set (rest := (WebsocketTs.stopPingPong ;;; _)%js) in H3.
  assert (Hrest : canReconnect (rest c2).1 = false
            ∧ timers (rest c2).1
              = (Core.clearTimer (reconnectionTimeout c)
                   (Core.clearTimer (pingPongIntervalTimer c) c).1).1.(timers)).
  { subst rest.
    unfold WebsocketTs.stopPingPong, WebsocketTs.stopReconnectionTimeout.
    unfold bind, gets, modify. simpl. rewrite (calm_ping _ _ Hc).
    destruct (pingPongIntervalTimer c); simpl; rewrite (calm_handle _ _ Hc);
      destruct (reconnectionTimeout c), (ev_data event); simpl;
      rewrite ?(calm_timers _ _ Hc); done. }
  destruct Hrest as [Hcan Ht].
  rewrite (calm_can _ _ H3), (calm_timers _ _ H3), Ht. split; [done|]. split.
  - intros h k ->. apply clearTimer_absent.
  - intros h k -> Hin. apply clearTimer_subseteq in Hin.
    by apply clearTimer_absent in Hin.
Qed.

(** ** The message listener around the routing block *)

Lemma room_fired_app t1 t2 : room_fired (t1 ++ t2) = room_fired t1 ++ room_fired t2.
Proof. apply omap_app. Qed.

#[export] Instance rooms_untouched_preorder : PreOrder rooms_untouched.
Proof.
  split.
  - intros c. split_and!; [done..|]. exists []. by rewrite app_nil_r.
  - intros c1 c2 c3 (H1 & H2 & t & Ht & Hf) (H3 & H4 & t' & Ht' & Hf').
    split_and!; [congruence..|]. exists (t ++ t').
    rewrite Ht', Ht, <- app_assoc, room_fired_app, Hf, Hf'. done.
Qed.

Lemma rooms_untouched_frame c c' t :
  rooms c' = rooms c → room_objects c' = room_objects c →
  trace c' = trace c ++ t → room_fired t = [] → rooms_untouched c c'.
Proof. intros. split_and!; [done..|]. by exists t. Qed.

Lemma rooms_untouched_settle p ok : keeps rooms_untouched (Core.settle p ok).
Proof.
  intros c. unfold Core.settle.
  destruct (promises c !! p) as [[[] rs]|]; cbn [fst]; try reflexivity.
  by apply (rooms_untouched_frame _ _ [Settled p ok]).
Qed.

Lemma rooms_untouched_transmit e p : keeps rooms_untouched (Core.transmit e p).
Proof.
  intros c. rewrite transmit_eq.
  destruct (live_socket c) as [sock|]; [|apply rooms_untouched_settle].
  etrans; [|apply rooms_untouched_settle].
  by apply (rooms_untouched_frame _ _ [Wire sock e]).
Qed.

Lemma rooms_untouched_send event message receiver :
  keeps rooms_untouched (Core.send event message receiver).
Proof.
  intros c. rewrite send_eq. cbn zeta.
  destruct (Core.isOpened c); cbn [fst].
  - etrans; [|apply rooms_untouched_transmit].
    apply (rooms_untouched_frame _ _ []); [done..|by rewrite app_nil_r|done].
  - apply (rooms_untouched_frame _ _ []); [done..|by rewrite app_nil_r|done].
Qed.

Lemma rooms_untouched_call name cv l : keeps rooms_untouched (Core.call name cv l).
Proof.
  destruct l as [id|e p|e]; cbn [Core.call].
  - intros c. by apply (rooms_untouched_frame _ _ [Fired ConnBus name cv id]).
  - apply rooms_untouched_transmit.
  - apply keeps_bind; [apply _|apply rooms_untouched_send|]. intros. apply keeps_ret, _.
Qed.

(** A dispatch on the connection's emitter runs no listener of a room. *)
Lemma rooms_untouched_dispatch name : keeps rooms_untouched (Core.dispatch name).
Proof.
  apply keeps_dispatch; [apply _|intros; apply rooms_untouched_call|].
  intros c. apply (rooms_untouched_frame _ _ []); [done..|by rewrite app_nil_r|done].
Qed.

(** For a frame that reaches it, the routing block runs between the two
    dispatches of the event and the dispatch of ['message']; the listeners of
    rooms that a frame reaches are those that the block calls. *)
Lemma Index_message_listener_routes c event :
  ev_event event ≠ "" → ev_event event ≠ "pong" → decodes event →
  ∃ c2, rooms_untouched c c2
        ∧ rooms_untouched (Core.room_events event c2).1
                          (Index.on_message (Json event) c).1.
Proof.
  intros Hne Hpong (sd & Hsd & Hinfo & Huser).
  assert (Hparse : ∀ o, o ≠ Some NotJson → Core.parse_nested o c = (c, Returned tt)).
  { intros [[]|] Ho; done. }
  assert (Hn : Index.on_message (Json event) c
               = ((Core.dispatch "event" ;;;
                   Core.dispatch (String.append "event." (ev_event event)) ;;;
                   Core.room_events event) ;;; Core.dispatch "message")%js c).
  { unfold Index.on_message.
    rewrite bool_decide_eq_false_2 by done. rewrite Hsd.
    unfold bind at 1. rewrite (Hparse _ Hinfo). unfold bind at 1. rewrite (Hparse _ Huser).
    unfold Index.dispatch_message, Index.router.
    by rewrite bool_decide_eq_true_2 by done. }
  rewrite Hn. clear Hn.
  unfold bind at 1.
  destruct (bind_returns_state (Core.dispatch "event")
              (fun _ => (Core.dispatch (String.append "event." (ev_event event)) ;;;
                         Core.room_events event)%js)
              c (returns_dispatch _)) as ([] & _ & ->).
  pose proof (rooms_untouched_dispatch "event" c) as Hc1.
  set (c1 := (Core.dispatch "event" c).1) in *. clearbody c1.
  destruct (bind_returns_state (Core.dispatch (String.append "event." (ev_event event)))
              (fun _ => Core.room_events event) c1 (returns_dispatch _)) as ([] & _ & ->).
  pose proof (rooms_untouched_dispatch (String.append "event." (ev_event event)) c1) as Hc2.
  set (c2 := (Core.dispatch _ c1).1) in *. clearbody c2.
  exists c2. split; [by etrans|].
  destruct (Core.room_events event c2) as [c3 [[]|e]]; cbn [fst].
  - apply rooms_untouched_dispatch.
  - reflexivity.
Qed.

Lemma WebsocketTs_message_listener_routes c event :
  ev_event event ≠ "" → ev_event event ≠ "pong" → ev_event event ≠ "ping" →
  ev_event event ≠ "conn.rejected" → decodes event →
  ∃ c2, rooms_untouched c c2
        ∧ rooms_untouched (Core.room_events event c2).1
                          (WebsocketTs.on_message (Json event) c).1.
Proof.
  intros Hne Hpong Hping Hrej (sd & Hsd & Hinfo & Huser).
  assert (Hparse : ∀ o, o ≠ Some NotJson → Core.parse_nested o c = (c, Returned tt)).
  { intros [[]|] Ho; done. }
  assert (Hn : WebsocketTs.on_message (Json event) c
               = ((Core.dispatch "event" ;;;
                   Core.dispatch (String.append "event." (ev_event event)) ;;;
                   Core.room_events event) ;;; Core.dispatch "message")%js c).
  { unfold WebsocketTs.on_message.
    rewrite !bool_decide_eq_false_2 by done. rewrite Hsd.
    unfold bind at 1. rewrite (Hparse _ Hinfo). unfold bind at 1. rewrite (Hparse _ Huser).
    unfold WebsocketTs.dispatch_message, WebsocketTs.router.
    rewrite bool_decide_eq_true_2 by done.
    by rewrite bool_decide_eq_false_2 by done. }
  rewrite Hn. clear Hn.
  unfold bind at 1.
  destruct (bind_returns_state (Core.dispatch "event")
              (fun _ => (Core.dispatch (String.append "event." (ev_event event)) ;;;
                         Core.room_events event)%js)
              c (returns_dispatch _)) as ([] & _ & ->).
  pose proof (rooms_untouched_dispatch "event" c) as Hc1.
  set (c1 := (Core.dispatch "event" c).1) in *. clearbody c1.
  destruct (bind_returns_state (Core.dispatch (String.append "event." (ev_event event)))
              (fun _ => Core.room_events event) c1 (returns_dispatch _)) as ([] & _ & ->).
  pose proof (rooms_untouched_dispatch (String.append "event." (ev_event event)) c1) as Hc2.
  set (c2 := (Core.dispatch _ c1).1) in *. clearbody c2.
  exists c2. split; [by etrans|].
  destruct (Core.room_events event c2) as [c3 [[]|e]]; cbn [fst].
  - apply rooms_untouched_dispatch.
  - reflexivity.
Qed.

(** What the routing block appends to the trace. *)
Lemma room_events_trace event a c :
  ev_receiver event = Some a → a_type a = "room" →
  trace (Core.room_events event c).1
  = trace c ++ match Core.scan (a_id a) (room_objects c) (rooms c) 0 with
               | Some (_, r) =>
                   dispatched r "all_events" (Core.room_emitter r c)
                   ++ dispatched r (ev_event event)
                        (after_dispatch "all_events" (Core.room_emitter r c))
               | None => []
               end.
Proof.
  intros Hrcv Htype. rewrite (room_events_eq event a c Hrcv Htype).
  destruct (Core.scan _ _ _ _) as [[i r]|] eqn:Hscan; [|by rewrite app_nil_r].
  pose proof (scan_spec _ _ _ _ _ _ Hscan) as (j & -> & Hj & Hname & Hbefore).
  assert (Hro : is_Some (room_objects c !! r)).
  { destruct (room_objects c !! r); [eauto|done]. }
  destruct (emitEvent_spec r "all_events" c Hro) as (Ht1 & He1 & _ & Hn1 & _).
  set (c1 := (Core.emitEvent r "all_events" c).1) in *. clearbody c1.
  assert (Hro1 : is_Some (room_objects c1 !! r)).
  { specialize (Hn1 r). destruct Hro as [ro Hro]. rewrite Hro in Hn1.
    destruct (room_objects c1 !! r); [eauto|done]. }
  destruct (emitEvent_spec r (ev_event event) c1 Hro1) as (Ht2 & _).
  rewrite Ht2, Ht1, He1. by rewrite <- app_assoc.
Qed.

Lemma room_calls_of_frame event a c c2 c' :
  ev_receiver event = Some a → a_type a = "room" →
  rooms_untouched c c2 → rooms_untouched (Core.room_events event c2).1 c' →
  room_fired (added c c')
  = room_fired match Core.scan (a_id a) (room_objects c) (rooms c) 0 with
               | Some (_, r) =>
                   dispatched r "all_events" (Core.room_emitter r c)
                   ++ dispatched r (ev_event event)
                        (after_dispatch "all_events" (Core.room_emitter r c))
               | None => []
               end.
Proof.
  intros Hrcv Htype (Hr & Hro & t1 & Ht1 & Hf1) (_ & _ & t3 & Ht3 & Hf3).
  rewrite (room_events_trace event a c2 Hrcv Htype) in Ht3.
  assert (Hem : ∀ r, Core.room_emitter r c2 = Core.room_emitter r c).
  { intros r. unfold Core.room_emitter. by rewrite Hro. }
  rewrite Hr, Hro in Ht3.
  destruct (Core.scan _ _ _ _) as [[i r]|].
  - rewrite Hem in Ht3. rewrite Ht1, <- !app_assoc in Ht3.
    rewrite (added_app _ _ _ Ht3), !room_fired_app, Hf1, Hf3.
    by rewrite app_nil_r.
  - rewrite Ht1, <- !app_assoc in Ht3.
    by rewrite (added_app _ _ _ Ht3), !room_fired_app, Hf1, Hf3.
Qed.

(** A frame for a room, received from a socket: the listeners of rooms that
    run are those of the first room of that name, for ['all_events'] and then
    for the frame's event name. *)
Lemma frame_for_a_room_reaches_the_first_matching_room c event a :
  ev_event event ≠ "" → ev_event event ≠ "pong" → decodes event →
  ev_receiver event = Some a → a_type a = "room" →
  let calls := room_fired
                 match Core.scan (a_id a) (room_objects c) (rooms c) 0 with
                 | Some (_, r) =>
                     dispatched r "all_events" (Core.room_emitter r c)
                     ++ dispatched r (ev_event event)
                          (after_dispatch "all_events" (Core.room_emitter r c))
                 | None => []
                 end in
  room_fired (added c (Index.on_message (Json event) c).1) = calls
  ∧ (ev_event event ≠ "ping" → ev_event event ≠ "conn.rejected" →
     room_fired (added c (WebsocketTs.on_message (Json event) c).1) = calls).
Proof.
  intros Hne Hpong Hdec Hrcv Htype. cbn zeta. split.
  - destruct (Index_message_listener_routes c event Hne Hpong Hdec) as (c2 & H1 & H2).
    by apply (room_calls_of_frame event a c c2).
  - intros Hping Hrej.
    destruct (WebsocketTs_message_listener_routes c event Hne Hpong Hping Hrej Hdec)
      as (c2 & H1 & H2).
    by apply (room_calls_of_frame event a c c2).
Qed.

(** The calls of one [dispatch(name)] on the emitter of room [r]. *)
Lemma room_fired_dispatched r name (em : emitter nat) :
  room_fired (dispatched r name em)
  = map (pair (r, name)) (default [] (on_ em !! name) ++ default [] (once_ em !! name)).
Proof.
  assert (H : ∀ cv (ls : list nat),
            room_fired (map (Fired (RoomBus r) name cv) ls) = map (pair (r, name)) ls).
  { intros cv ls. induction ls as [|l ls IH]; [done|]. simpl. by rewrite <- IH. }
  unfold dispatched. by rewrite room_fired_app, !H, map_app.
Qed.

(** What a message listener does to the rooms when it runs the routing block
    between computations that leave the rooms alone. *)
Lemma routed_to_the_first_match c c2 c' event a :
  ev_receiver event = Some a → a_type a = "room" →
  rooms_untouched c c2 → rooms_untouched (Core.room_events event c2).1 c' →
  match Core.scan (a_id a) (room_objects c) (rooms c) 0 with
  | Some (i, r) =>
      (rooms c !! i = Some r ∧ named c (a_id a) r
       ∧ ∀ j r', j < i → rooms c !! j = Some r' → ¬ named c (a_id a) r')
      ∧ room_fired (added c c')
        = map (pair (r, "all_events"))
              (default [] (on_ (Core.room_emitter r c) !! "all_events")
               ++ default [] (once_ (Core.room_emitter r c) !! "all_events"))
          ++ map (pair (r, ev_event event))
               (default [] (on_ (Core.room_emitter r c) !! ev_event event)
                ++ default [] (delete "all_events" (once_ (Core.room_emitter r c))
                               !! ev_event event))
      ∧ (∀ r', r' ≠ r → Core.room_emitter r' c' = Core.room_emitter r' c)
  | None =>
      (∀ r', r' ∈ rooms c → ¬ named c (a_id a) r')
      ∧ room_fired (added c c') = []
      ∧ ∀ r', Core.room_emitter r' c' = Core.room_emitter r' c
  end.
Proof.
  intros Hrcv Htype H1 H2.
  pose proof (room_calls_of_frame event a c c2 c' Hrcv Htype H1 H2) as Hcalls.
  pose proof (room_events_reach_the_first_matching_room_only c2 event a Hrcv Htype) as H.
  cbn zeta in H.
  destruct H1 as (Hr & Hro & _). destruct H2 as (_ & Hro' & _).
  assert (Hem : ∀ x y, room_objects x = room_objects y →
                       ∀ r, Core.room_emitter r x = Core.room_emitter r y).
  { intros x y E r. unfold Core.room_emitter. by rewrite E. }
  assert (Hnamed : ∀ n r, named c2 n r ↔ named c n r).
  { intros n r. unfold named. by rewrite Hro. }
  rewrite Hr, Hro in H.
  destruct (Core.scan _ _ _ _) as [[i r]|].
  - destruct H as ((Hi & Hn & Hbefore) & _ & _ & Hother & _).
    rewrite Hcalls, room_fired_app, !room_fired_dispatched.
    split_and!; try done.
    + by apply Hnamed.
    + intros j r' Hj Hj'. rewrite <- Hnamed. by eapply Hbefore.
    + intros r' Hne. rewrite (Hem _ _ Hro'), Hother by done. by apply Hem.
  - destruct H as (Hnone & Hc).
    split_and!; try done.
    + intros r' Hr'. rewrite <- Hnamed. by apply Hnone.
    + intros r'. rewrite (Hem _ _ Hro'), Hc. by apply Hem.
Qed.

(** C9, as amended: a frame for a room that decodes, carries a sender and has
    a non-empty event name other than ['pong'] (in Websocket.ts also other
    than ['ping'] and ['conn.rejected']). Of the listeners of rooms, the
    message listener calls exactly those of the first room of the registry
    whose name is the receiver's id: its listeners of ['all_events'] and then
    those of the frame's event name, the persistent ones before the one-shot
    ones; the emitters of the other rooms are as they were. When no room has
    that name, no listener of a room is called and no room emitter changes. *)
Theorem room_frame_reaches_the_first_matching_room_only c event a :
  ev_event event ≠ "" → ev_event event ≠ "pong" → decodes event →
  ev_receiver event = Some a → a_type a = "room" →
  let routed (c' : conn) :=
    match Core.scan (a_id a) (room_objects c) (rooms c) 0 with
    | Some (i, r) =>
        (rooms c !! i = Some r ∧ named c (a_id a) r
         ∧ ∀ j r', j < i → rooms c !! j = Some r' → ¬ named c (a_id a) r')
        ∧ room_fired (added c c')
          = map (pair (r, "all_events"))
                (default [] (on_ (Core.room_emitter r c) !! "all_events")
                 ++ default [] (once_ (Core.room_emitter r c) !! "all_events"))
            ++ map (pair (r, ev_event event))
                 (default [] (on_ (Core.room_emitter r c) !! ev_event event)
                  ++ default [] (delete "all_events" (once_ (Core.room_emitter r c))
                                 !! ev_event event))
        ∧ (∀ r', r' ≠ r → Core.room_emitter r' c' = Core.room_emitter r' c)
    | None =>
        (∀ r', r' ∈ rooms c → ¬ named c (a_id a) r')
        ∧ room_fired (added c c') = []
        ∧ ∀ r', Core.room_emitter r' c' = Core.room_emitter r' c
    end in
  routed (Index.on_message (Json event) c).1
  ∧ (ev_event event ≠ "ping" → ev_event event ≠ "conn.rejected" →
     routed (WebsocketTs.on_message (Json event) c).1).
Proof.
  intros Hne Hpong Hdec Hrcv Htype. cbn zeta. split.
  - destruct (Index_message_listener_routes c event Hne Hpong Hdec) as (c2 & H1 & H2).
    by apply (routed_to_the_first_match c c2).
  - intros Hping Hrej.
    destruct (WebsocketTs_message_listener_routes c event Hne Hpong Hping Hrej Hdec)
      as (c2 & H1 & H2).
    by apply (routed_to_the_first_match c c2).
Qed.

Lemma room_frame_witness :
  let c := Index.run [Api Method.connect; FromSocket 0 NOpen;
                      Api (Method.joinRoom "hall"); Api (Method.joinRoom "lobby");
                      Api (Method.joinRoom "lobby");
                      Api (Method.room_on 0 "chat" 1); Api (Method.room_on 1 "chat" 2);
                      Api (Method.room_on 1 "all_events" 3);
                      Api (Method.room_once 1 "chat" 4);
                      Api (Method.room_on 2 "chat" 5);
                      Api (Method.subscribe OnMessage 6)] Index.new_RTC_Websocket in
  let event := WSEvent "chat" None (Some (Sender "user" "u1" None))
                       (Some (Address "room" "lobby")) None in
  ev_event event ≠ "" ∧ ev_event event ≠ "pong" ∧ decodes event
  ∧ room_fired (added c (Index.on_message (Json event) c).1)
    = [(1, "all_events", 3); (1, "chat", 2); (1, "chat", 4)].
Proof.
  cbn zeta. set (c := Index.run _ _). set (event := WSEvent _ _ _ _ _).
  assert (H1 : ev_event event ≠ "") by discriminate.
  assert (H2 : ev_event event ≠ "pong") by discriminate.
  assert (H3 : decodes event).
  { exists (Sender "user" "u1" None). split_and!; [reflexivity|discriminate|discriminate]. }
  split; [exact H1|]. split; [exact H2|]. split; [exact H3|].
  pose proof (room_frame_reaches_the_first_matching_room_only c event
                (Address "room" "lobby") H1 H2 H3 eq_refl eq_refl) as [H _].
  cbn zeta in H.
  assert (Hs : Core.scan "lobby" (room_objects c) (rooms c) 0 = Some (1, 1))
    by (vm_compute; reflexivity).
  simpl a_id in H. rewrite Hs in H. destruct H as (_ & H & _).
  rewrite H. vm_compute. reflexivity.
Defined.

(** C9 as stated fails for frames that the message listener does not route. A
    room "lobby" has listeners for ['all_events'], ['chat'] and ['pong']. A
    frame for that room without a sender makes the listener throw before any
    dispatch, and a frame for that room that is named ['pong'], or has an
    empty event name, is dropped or not routed: no listener of the room is
    called, in index.ts and in Websocket.ts. *)
Lemma room_frame_that_reaches_no_room_listener :
  let inputs := [Api Method.connect; FromSocket 0 NOpen; Api (Method.joinRoom "lobby");
                 Api (Method.room_on 0 "all_events" 1); Api (Method.room_on 0 "chat" 2);
                 Api (Method.room_on 0 "pong" 3); Api (Method.room_on 0 "" 4)] in
  let lobby := Some (Address "room" "lobby") in
  let sender := Some (Sender "user" "u1" None) in
  let no_sender := WSEvent "chat" None None lobby None in
  let named_pong := WSEvent "pong" None sender lobby None in
  let unnamed := WSEvent "" None sender lobby None in
  let c := Index.run inputs Index.new_RTC_Websocket in
  let w := WebsocketTs.run inputs WebsocketTs.new_RTC_Websocket in
  (Core.getRoom "lobby" c = Some 0 ∧ Core.getRoom "lobby" w = Some 0)
  ∧ (Index.on_message (Json no_sender) c = (c, Thrown TypeError)
     ∧ WebsocketTs.on_message (Json no_sender) w = (w, Thrown TypeError))
  ∧ (room_fired (added c (Index.run [FromSocket 0 (NMessage (Json named_pong))] c)) = []
     ∧ room_fired (added w (WebsocketTs.run [FromSocket 0 (NMessage (Json named_pong))] w)) = [])
  ∧ (room_fired (added c (Index.run [FromSocket 0 (NMessage (Json unnamed))] c)) = []
     ∧ room_fired (added w (WebsocketTs.run [FromSocket 0 (NMessage (Json unnamed))] w)) = []).
Proof. vm_compute. done. Qed.

(** * Further properties of the code *)

(** ** The emitter: [on], [once] and [dispatch] together *)

Lemma dispatch_all_app names1 names2 (s : Bus.st) :
  dispatch_all (names1 ++ names2) s = dispatch_all names2 (dispatch_all names1 s).
Proof. unfold dispatch_all. apply foldl_app. Qed.

Lemma on_listens name l (em : emitter nat) :
  unknown l em → listening name l (pushed_on name l em).
Proof.
  intros [Hon Honce]. destruct (on_lookup name l em) as (Ho & Hn & Hother).
  split_and!.
  - intros n ls. rewrite Ho. apply Honce.
  - intros n ls Hne. rewrite Hother by done. apply Hon.
  - exists (default [] (on_ em !! name)). split; [done|].
    destruct (on_ em !! name) as [ls|] eqn:E; simpl; [by eapply Hon|apply not_elem_of_nil].
Qed.

Lemma dispatch_listening n name l (em : emitter nat) log :
  listening name l em →
  listening name l (Bus.dispatch n (em, log)).1.1
  ∧ Bus.calls_of l (Bus.dispatch n (em, log)).1.2
    = Bus.calls_of l log + (if bool_decide (n = name) then 1 else 0).
Proof.
  intros (Honce & Hother & ls & Hls & Hl). rewrite Bus_dispatch_eq. cbn [fst snd]. split.
  - split_and!.
    + intros m ls' Hm. cbn [once_] in Hm.
      apply lookup_delete_Some in Hm as [_ Hm]. by eapply Honce.
    + done.
    + by exists ls.
  - assert (Ho : Bus.calls_of l (map (Bus.Call n Aggregate) (default [] (once_ em !! n))) = 0).
    { apply calls_of_map_absent.
      destruct (once_ em !! n) eqn:E; simpl; [by eapply Honce|apply not_elem_of_nil]. }
    rewrite !calls_of_app, Ho. case_bool_decide as Hn.
    + subst n. rewrite Hls. simpl. rewrite calls_of_map_last by done. lia.
    + rewrite calls_of_map_absent; [lia|].
      destruct (on_ em !! n) eqn:E; simpl; [by eapply Hother|apply not_elem_of_nil].
Qed.

Lemma pushed_on_calls names name l (em : emitter nat) log :
  unknown l em →
  Bus.calls_of l (dispatch_all names (pushed_on name l em, log)).2
  = Bus.calls_of l log + length (filter (fun n => n = name) names).
Proof.
  intros Hu. apply (on_listens name) in Hu.
  revert Hu. generalize (pushed_on name l em). clear em.
  revert log. induction names as [|n names IH]; intros log em Hl.
  - simpl. lia.
  - rewrite dispatch_all_cons.
    destruct (dispatch_listening n name l em log Hl) as [Hl' Hc].
    destruct (Bus.dispatch n (em, log)) as [[em' log'] r]. cbn [fst snd] in *.
    rewrite IH by done. rewrite Hc. case_bool_decide as Hn.
    + rewrite filter_cons_True by done. simpl. lia.
    + rewrite filter_cons_False by done. lia.
Qed.

(** X1: [on(name, l)] of RTC_EventEmitter, for a listener that is not
    registered yet. When [name] is not a property of [Object.prototype] (or
    the dictionary owns it), [on] returns and the listener is called once in
    every later dispatch of [name] and in no dispatch of another name. When
    [name] is such a property and the dictionary does not own it, [on] throws
    a TypeError, the emitter is unchanged and no dispatch calls the listener. *)
Theorem on_listener_is_called_in_every_dispatch_of_its_name names name l em log :
  unknown l em →
  let r := RTC_EventEmitter.on name l em in
  let calls := Bus.calls_of l (dispatch_all names (r.1, log)).2 in
  (inherited name = false ∨ is_Some (on_ em !! name) →
     r.2 = Returned tt
     ∧ calls = Bus.calls_of l log + length (filter (fun n => n = name) names))
  ∧ (inherited name = true → on_ em !! name = None →
     r = (em, Thrown TypeError) ∧ calls = Bus.calls_of l log).
Proof.
  intros Hu. cbn zeta. split.
  - intros H. rewrite (on_returns _ _ _ H). split; [done|]. by apply pushed_on_calls.
  - intros Hi Hn. rewrite (on_throws _ _ _ Hi Hn). split; [done|].
    by apply dispatch_all_unknown.
Qed.

Lemma on_listener_witness :
  unknown 7 (@new_emitter nat)
  ∧ Bus.calls_of 7 (dispatch_all ["open"; "close"; "open"]
                      ((RTC_EventEmitter.on "open" 7 new_emitter).1, [])).2 = 2
  ∧ RTC_EventEmitter.on "toString" 7 (@new_emitter nat) = (new_emitter, Thrown TypeError).
Proof.
  assert (Hu : unknown 7 (@new_emitter nat)).
  { split; intros n ls H; simpl in H; by rewrite lookup_empty in H. }
  split; [exact Hu|].
  destruct (on_listener_is_called_in_every_dispatch_of_its_name
              ["open"; "close"; "open"] "open" 7 new_emitter [] Hu) as [H _].
  destruct (on_listener_is_called_in_every_dispatch_of_its_name
              [] "toString" 7 new_emitter [] Hu) as [_ H'].
  split.
  - destruct (H (or_introl eq_refl)) as [_ E]. exact E.
  - destruct (H' eq_refl eq_refl) as [E _]. exact E.
Defined.

(** X2: [once(name, l)] of RTC_EventEmitter, for a listener that is not
    registered yet. When [name] is not a property of [Object.prototype] (or
    the dictionary owns it), [once] returns and the listener is not called
    before the first dispatch of [name], is called once in that dispatch, and
    is never called again. When [name] is such a property and the dictionary
    does not own it, [once] throws a TypeError, the emitter is unchanged and no
    dispatch calls the listener. *)
Theorem once_listener_is_called_in_the_first_dispatch_only names1 names2 name l em log :
  unknown l em → name ∉ names1 →
  let r := RTC_EventEmitter.once name l em in
  let s0 : Bus.st := (r.1, log) in
  (inherited name = false ∨ is_Some (once_ em !! name) →
     r.2 = Returned tt
     ∧ Bus.calls_of l (dispatch_all names1 s0).2 = Bus.calls_of l log
     ∧ Bus.calls_of l (dispatch_all (names1 ++ [name]) s0).2 = S (Bus.calls_of l log)
     ∧ Bus.calls_of l (dispatch_all (names1 ++ (name :: names2)) s0).2
       = S (Bus.calls_of l log))
  ∧ (inherited name = true → once_ em !! name = None →
     r = (em, Thrown TypeError)
     ∧ Bus.calls_of l (dispatch_all (names1 ++ (name :: names2)) s0).2
       = Bus.calls_of l log).
Proof.
  intros Hu Hn. cbn zeta. split.
  - intros H. rewrite (once_returns _ _ _ H). cbn [fst snd].
    rewrite !RTC_EventEmitter_once_at_most_once by done.
    rewrite bool_decide_eq_false_2 by done.
    rewrite !bool_decide_eq_true_2 by (apply elem_of_app; right; apply list_elem_of_here).
    split_and!; [done|lia..].
  - intros Hi Ho. rewrite (once_throws _ _ _ Hi Ho). split; [done|].
    by apply dispatch_all_unknown.
Qed.

Lemma once_listener_witness :
  unknown 7 (@new_emitter nat) ∧ ("open" ∉ ["close"; "error"])
  ∧ Bus.calls_of 7 (dispatch_all ["close"; "error"; "open"; "open"; "open"]
                      ((RTC_EventEmitter.once "open" 7 new_emitter).1, [])).2 = 1.
Proof.
  assert (Hu : unknown 7 (@new_emitter nat)).
  { split; intros n ls H; simpl in H; by rewrite lookup_empty in H. }
  assert (Hn : "open" ∉ ["close"; "error"]).
  { intros H. apply elem_of_cons in H as [H|H]; [discriminate|].
    apply elem_of_cons in H as [H|H]; [discriminate|]. by apply not_elem_of_nil in H. }
  split; [exact Hu|]. split; [exact Hn|].
  destruct (once_listener_is_called_in_the_first_dispatch_only
              ["close"; "error"] ["open"; "open"] "open" 7 new_emitter [] Hu Hn) as [H _].
  destruct (H (or_introl eq_refl)) as (_ & _ & _ & E). exact E.
Defined.

Lemma register_eq name r (em : emitter nat) log :
  inherited name = false →
  register name r (em, log)
  = ((match r with
      | RegOn l => pushed_on name l em
      | RegOnce l => pushed_once name l em
      end, log), Returned tt).
Proof.
  intros Hi. destruct r as [l|l]; unfold register, Bus.on, Bus.once.
  - by erewrite within_eq by (apply on_returns; by left).
  - by erewrite within_eq by (apply once_returns; by left).
Qed.

Lemma register_throws name r (s : Bus.st) :
  inherited name = true → on_ s.1 !! name = None → once_ s.1 !! name = None →
  register name r s = (s, Thrown TypeError).
Proof.
  intros Hi Hon Honce. destruct s as [em log].
  destruct r as [l|l]; unfold register, Bus.on, Bus.once.
  - by erewrite within_eq by (by apply on_throws).
  - by erewrite within_eq by (by apply once_throws).
Qed.

Lemma register_all name rs : inherited name = false → ∀ s : Bus.st,
  let r := forEach (register name) rs s in
  r.2 = Returned tt
  ∧ default [] (on_ r.1.1 !! name) = default [] (on_ s.1 !! name) ++ persistent rs
  ∧ default [] (once_ r.1.1 !! name) = default [] (once_ s.1 !! name) ++ one_shot rs
  ∧ r.1.2 = s.2.
Proof.
  intros Hi. induction rs as [|r rs IH]; intros [em log]; cbn zeta.
  - simpl. by rewrite !app_nil_r.
  - assert (E : forEach (register name) (r :: rs) (em, log)
                 = forEach (register name) rs (register name r (em, log)).1).
    { simpl. unfold bind. by rewrite register_eq. }
    rewrite E, register_eq by done. clear E. cbn [fst].
    destruct r as [l|l].
    + destruct (IH (pushed_on name l em, log)) as (H0 & H1 & H2 & H3).
      destruct (on_lookup name l em) as (Ho & Hn & _).
      cbn [fst snd] in *. rewrite H0, H1, H2, H3, Ho, Hn. cbn [persistent one_shot omap].
      split_and!; [done| |done..]. simpl. by rewrite <- app_assoc.
    + destruct (IH (pushed_once name l em, log)) as (H0 & H1 & H2 & H3).
      destruct (once_lookup name l em) as (Ho & Hn & _).
      cbn [fst snd] in *. rewrite H0, H1, H2, H3, Ho, Hn. cbn [persistent one_shot omap].
      split_and!; [done|done| |done]. simpl. by rewrite <- app_assoc.
Qed.

(** X3: registrations under one name, then two dispatches of it. When [name]
    is not a property of [Object.prototype], every registration returns and,
    whatever the order in which [on] and [once] registered them, a dispatch
    calls the persistent listeners of the name first, in the order of their
    registration and with the data spread over the arguments, and then the
    one-shot listeners, in the order of their registration and with the data
    array as their one argument; the next dispatch of the name calls the
    persistent listeners only. When [name] is such a property and the
    dictionaries do not own it, the first registration throws a TypeError,
    nothing is registered and the dispatches call nothing. *)
Theorem listeners_are_called_in_registration_order name rs (s : Bus.st) :
  let r := forEach (register name) rs s in
  let s2 := (Bus.dispatch name r.1).1 in
  let s3 := (Bus.dispatch name s2).1 in
  let ons := default [] (on_ s.1 !! name) ++ persistent rs in
  let onces := default [] (once_ s.1 !! name) ++ one_shot rs in
  (inherited name = false →
     r.2 = Returned tt
     ∧ s2.2 = s.2 ++ map (Bus.Call name Spread) ons ++ map (Bus.Call name Aggregate) onces
     ∧ s3.2 = s2.2 ++ map (Bus.Call name Spread) ons)
  ∧ (inherited name = true → on_ s.1 !! name = None → once_ s.1 !! name = None →
     rs ≠ [] →
     r = (s, Thrown TypeError) ∧ s2.2 = s.2 ∧ s3.2 = s.2).
Proof.
  cbn zeta. split.
  - intros Hi. destruct (register_all name rs Hi s) as (H0 & H1 & H2 & H3).
    cbn zeta in *.
    destruct (forEach (register name) rs s) as [[em1 log1] o]. cbn [fst snd] in *.
    split; [done|].
    rewrite Bus_dispatch_eq. cbn [fst snd]. rewrite Bus_dispatch_eq. cbn [fst snd on_ once_].
    rewrite lookup_delete_eq, H1, H2, H3. simpl. by rewrite app_nil_r.
  - intros Hi Hon Honce Hrs. destruct rs as [|r rs]; [done|].
    assert (E : forEach (register name) (r :: rs) s = (s, Thrown TypeError)).
    { simpl. unfold bind. by rewrite register_throws. }
    rewrite E. cbn [fst]. split; [done|]. destruct s as [em log]. cbn [fst snd] in *.
    rewrite Bus_dispatch_eq. cbn [fst snd]. rewrite Bus_dispatch_eq. cbn [fst snd on_ once_].
    rewrite lookup_delete_eq, Hon, Honce. simpl. by rewrite !app_nil_r.
Qed.

(** ** The room registry: [joinRoom], [getRoom], [leaveRoom] *)

Lemma scan_more_objects name objs extra rs : ∀ i,
  Forall (fun r => r < length objs) rs →
  Core.scan name (objs ++ extra) rs i = Core.scan name objs rs i.
Proof.
  induction rs as [|r rs IH]; intros i Hrs; [done|].
  apply Forall_cons in Hrs as [Hr Hrs]. simpl.
  rewrite lookup_app_l by done. by rewrite IH.
Qed.

Lemma scan_app name objs rs1 rs2 : ∀ i,
  Core.scan name objs (rs1 ++ rs2) i
  = match Core.scan name objs rs1 i with
    | Some x => Some x
    | None => Core.scan name objs rs2 (i + length rs1)
    end.
Proof.
  induction rs1 as [|r rs1 IH]; intros i; simpl.
  - by rewrite Nat.add_0_r.
  - case_bool_decide; [done|]. rewrite IH. by replace (S i + length rs1) with (i + S (length rs1)) by lia.
Qed.

(** What [joinRoom] returns and what it does to the registry. *)
Lemma joinRoom_spec join name c :
  ∃ c', Core.joinRoom join name c = (c', Returned (length (room_objects c)))
        ∧ rooms c' = rooms c ++ [length (room_objects c)]
        ∧ room_objects c' = room_objects c ++ [Room name new_emitter].
Proof.
  unfold Core.joinRoom, Core.new_RTC_Room.
  set (c1 := set_room_objects (room_objects c ++ [Room name new_emitter]) c).
  unfold bind at 1. unfold bind at 1. cbn beta iota. fold c1.
  unfold bind at 1. unfold gets at 1. cbn beta iota.
  change (Core.isOpened c1) with (Core.isOpened c).
  destruct (Core.isOpened c) eqn:Hopen.
  - unfold bind at 1. unfold bind at 1. rewrite send_eq. cbn zeta.
    change (Core.isOpened c1) with (Core.isOpened c). rewrite Hopen. cbn beta iota.
    pose proof (rooms_untouched_transmit
                  (Envelope join (PText name) (Some (Address "room" name)))
                  (length (promises c1))
                  (set_promises (promises c1 ++ [Promise Pending []]) c1)) as (Hr & Ho & _).
    set (c2 := (Core.transmit _ _ _).1) in *. clearbody c2.
    eexists. split; [reflexivity|]. cbn [fst rooms room_objects set_rooms].
    by rewrite Hr, Ho.
  - unfold bind. rewrite listen_eq by done. eexists. split; [reflexivity|]. done.
Qed.

(** X4: [joinRoom(name)] always appends a new room to the registry, also when
    a room of that name is there already; afterwards [getRoom(name)] returns
    the room that was first in the registry under that name, which is the new
    one only when there was none, and [getRoom] of any other name returns what
    it returned before. *)
Theorem joinRoom_then_getRoom join name c :
  registry_ok c →
  let r := length (room_objects c) in
  let c' := (Core.joinRoom join name c).1 in
  (Core.joinRoom join name c).2 = Returned r
  ∧ rooms c' = rooms c ++ [r]
  ∧ named c' name r
  ∧ registry_ok c'
  ∧ Core.getRoom name c' = Some (default r (Core.getRoom name c))
  ∧ ∀ other, other ≠ name → Core.getRoom other c' = Core.getRoom other c.
Proof.
  intros Hok. cbn zeta.
  destruct (joinRoom_spec join name c) as (c' & -> & Hr & Ho). cbn [fst snd].
  assert (Hnew : room_objects c' !! length (room_objects c) = Some (Room name new_emitter)).
  { rewrite Ho. by rewrite lookup_app_r, Nat.sub_diag by lia. }
  assert (Hscan : ∀ n, Core.scan n (room_objects c') (rooms c') 0
            = match Core.scan n (room_objects c) (rooms c) 0 with
              | Some x => Some x
              | None => if bool_decide (name = n)
                        then Some (length (rooms c), length (room_objects c))
                        else None
              end).
  { intros n. rewrite Hr, scan_app, Ho, scan_more_objects by done.
    destruct (Core.scan n _ _ 0); [done|]. simpl.
    rewrite <- Ho, Hnew. simpl.
    case_bool_decide as H1; case_bool_decide as H2; simplify_eq; done. }
  split_and!.
  - done.
  - done.
  - unfold named. by rewrite Hnew.
  - unfold registry_ok. rewrite Hr, Ho, length_app. simpl. apply Forall_app. split.
    + eapply Forall_impl; [done|]. simpl. intros; lia.
    + apply Forall_singleton. lia.
  - unfold Core.getRoom. rewrite Hscan.
    destruct (Core.scan name _ _ 0) as [[i r0]|]; [done|].
    by rewrite bool_decide_eq_true_2.
  - intros other Hne. unfold Core.getRoom. rewrite Hscan.
    destruct (Core.scan other _ _ 0) as [[i r0]|]; [done|].
    by rewrite bool_decide_eq_false_2 by congruence.
Qed.

Lemma joinRoom_then_getRoom_witness :
  let c := Index.run [Api (Method.joinRoom "lobby"); Api (Method.joinRoom "hall")]
                     Index.new_RTC_Websocket in
  registry_ok c
  ∧ rooms (Core.joinRoom "join" "lobby" c).1 = [0; 1; 2]
  ∧ Core.getRoom "lobby" (Core.joinRoom "join" "lobby" c).1 = Some 0.
Proof.
  cbn zeta. set (c := Index.run _ _).
  assert (Hok : registry_ok c).
  { unfold registry_ok. vm_compute. repeat constructor. }
  split; [exact Hok|].
  destruct (joinRoom_then_getRoom "join" "lobby" c Hok) as (_ & H1 & _ & _ & H2 & _).
  split; [exact H1|exact H2].
Defined.

Lemma scan_absent name objs rs : ∀ i,
  (∀ r, r ∈ rs → room_name <$> objs !! r ≠ Some name) → Core.scan name objs rs i = None.
Proof.
  induction rs as [|r rs IH]; intros i H; [done|]. simpl.
  rewrite bool_decide_eq_false_2 by apply H, list_elem_of_here.
  apply IH. intros r' Hr'. by apply H, list_elem_of_further.
Qed.

(** X5: when no room of the registry has the name, [getRoom(name)] returns
    null and [leaveRoom(name)] does nothing at all: it sends nothing, creates
    no promise and leaves the registry as it is. *)
Theorem leaveRoom_of_an_unknown_name_does_nothing leave data name c :
  (∀ r, r ∈ rooms c → ¬ named c name r) →
  Core.getRoom name c = None
  ∧ Core.leaveRoom leave data name c = (c, Returned tt).
Proof.
  intros H. pose proof (scan_absent name (room_objects c) (rooms c) 0 H) as Hs.
  unfold Core.getRoom, Core.leaveRoom. unfold bind at 1. unfold gets at 1.
  cbn beta iota. by rewrite Hs.
Qed.

Lemma leaveRoom_of_an_unknown_name_witness :
  let c := Index.run [Api (Method.joinRoom "lobby")] Index.new_RTC_Websocket in
  (∀ r, r ∈ rooms c → ¬ named c "hall" r)
  ∧ Core.leaveRoom "leave" PNull "hall" c = (c, Returned tt).
Proof.
  cbn zeta. set (c := Index.run _ _).
  assert (H : ∀ r, r ∈ rooms c → ¬ named c "hall" r).
  { intros r Hr. change (rooms c) with [0] in Hr.
    apply list_elem_of_singleton in Hr as ->. vm_compute. discriminate. }
  split; [exact H|].
  apply (leaveRoom_of_an_unknown_name_does_nothing "leave" PNull "hall" c H).
Defined.

(** [leaveRoom] on an open connection whose socket is writable. *)
Lemma leaveRoom_open leave data name c i r sock :
  Core.isOpened c = true → live_socket c = Some sock →
  Core.scan name (room_objects c) (rooms c) 0 = Some (i, r) →
  ∃ c1, (Core.leaveRoom leave data name c).1 = c1
        ∧ rooms c1 = rooms c ∧ room_objects c1 = room_objects c
        ∧ jobs c1 = jobs c ++ [Splice i]
        ∧ Core.isOpened c1 = true ∧ live_socket c1 = Some sock
        ∧ length (promises c1) = S (length (promises c))
        ∧ trace c1 = trace c ++ [Wire sock (Envelope leave data (Some (Address "room" name)));
                                 Settled (length (promises c)) true].
Proof.
  intros Hopen Hlive Hscan. rewrite (leaveRoom_eq leave data name c i r Hscan).
  rewrite send_eq. cbn zeta. rewrite Hopen. cbn [fst].
  rewrite transmit_eq.
  change (live_socket (set_promises _ c)) with (live_socket c). rewrite Hlive.
  rewrite (settle_pending _ true []) by apply lookup_fresh_promise. cbn [fst].
  rewrite (then_fulfilled _ _ _ []) by apply lookup_insert_fresh.
  eexists. split; [reflexivity|].
  split_and!; try done.
  - simpl. by rewrite app_nil_r.
  - simpl. rewrite length_insert, length_app. simpl. lia.
  - simpl. by rewrite <- app_assoc.
Qed.

Lemma run_jobs_two i j c :
  jobs c = [Splice i; Splice j] → rooms (Core.run_jobs c).1 = delete j (delete i (rooms c)).
Proof. intros H. unfold Core.run_jobs, bind, gets, modify. simpl. by rewrite H. Qed.

(** X6: two rooms left in one turn on an open connection. Both leave
    envelopes are written and both sends are fulfilled, and each removal uses
    the index its room had when [leaveRoom] was called: the registry ends as
    [delete j (delete i rooms)]. When the first room stood before the second,
    the second room is therefore still in the registry afterwards. *)
Theorem leaving_two_rooms_in_one_turn c leave data a b i j ra rb sock :
  Core.isOpened c = true → live_socket c = Some sock → jobs c = [] →
  Core.scan a (room_objects c) (rooms c) 0 = Some (i, ra) →
  Core.scan b (room_objects c) (rooms c) 0 = Some (j, rb) →
  let c2 := (Core.leaveRoom leave data b (Core.leaveRoom leave data a c).1).1 in
  let c3 := (Core.run_jobs c2).1 in
  wired (added c c2)
  = [(sock, Envelope leave data (Some (Address "room" a)));
     (sock, Envelope leave data (Some (Address "room" b)))]
  ∧ settled (added c c2) = [length (promises c); S (length (promises c))]
  ∧ rooms c3 = delete j (delete i (rooms c))
  ∧ (i < j → rooms c3 !! (j - 1) = Some rb).
Proof.
  intros Hopen Hlive Hjobs Ha Hb. cbn zeta.
  destruct (leaveRoom_open leave data a c i ra sock Hopen Hlive Ha)
    as (c1 & E1 & Hr1 & Ho1 & Hj1 & Hopen1 & Hlive1 & Hp1 & Ht1).
  rewrite E1.
  rewrite <- Hr1, <- Ho1 in Hb.
  destruct (leaveRoom_open leave data b c1 j rb sock Hopen1 Hlive1 Hb)
    as (c2 & E2 & Hr2 & Ho2 & Hj2 & _ & _ & _ & Ht2).
  rewrite E2. clear E1 E2.
  rewrite Ht1, Hp1, <- app_assoc in Ht2. rewrite Hj1, Hjobs in Hj2. simpl in Hj2.
  rewrite (added_app _ _ _ Ht2).
  rewrite (run_jobs_two i j c2 Hj2), Hr2, Hr1.
  split_and!; [done..|].
  intros Hlt. apply scan_spec in Hb as (k & -> & Hk & _). simpl in Hlt.
  rewrite Hr1 in Hk.
  rewrite list_lookup_delete_lt by lia. rewrite list_lookup_delete_ge by lia.
  by replace (S (0 + k - 1)) with k by lia.
Qed.

Lemma leaving_two_rooms_witness :
  let c := Index.run [Api Method.connect; FromSocket 0 NOpen;
                      Api (Method.joinRoom "a"); Api (Method.joinRoom "b"); RunJobs]
                     Index.new_RTC_Websocket in
  Core.isOpened c = true ∧ live_socket c = Some 0 ∧ jobs c = []
  ∧ Core.scan "a" (room_objects c) (rooms c) 0 = Some (0, 0)
  ∧ Core.scan "b" (room_objects c) (rooms c) 0 = Some (1, 1)
  ∧ rooms (Core.run_jobs (Core.leaveRoom "leave" PNull "b"
                            (Core.leaveRoom "leave" PNull "a" c).1).1).1 = [1].
Proof.
  cbn zeta. set (c := Index.run _ _).
  assert (H1 : Core.isOpened c = true) by (vm_compute; reflexivity).
  assert (H2 : live_socket c = Some 0) by (vm_compute; reflexivity).
  assert (H3 : jobs c = []) by (vm_compute; reflexivity).
  assert (H4 : Core.scan "a" (room_objects c) (rooms c) 0 = Some (0, 0))
    by (vm_compute; reflexivity).
  assert (H5 : Core.scan "b" (room_objects c) (rooms c) 0 = Some (1, 1))
    by (vm_compute; reflexivity).
  split_and!; [exact H1|exact H2|exact H3|exact H4|exact H5|].
  destruct (leaving_two_rooms_in_one_turn c "leave" PNull "a" "b" 0 1 0 1 0 H1 H2 H3 H4 H5)
    as (_ & _ & -> & _).
  vm_compute. reflexivity.
Defined.

(** ** Reconnection switched off *)

Lemma allowed_no_reconnect inputs :
  Forall (fun i => i ≠ Api Method.reconnect) inputs → Forall (allowed true false) inputs.
Proof.
  intros H. eapply Forall_impl; [done|].
  intros [[]| | | |] Hi; simpl; try done. by left.
Qed.

(** X7: [close()] of index.ts switches reconnection off. Whatever happens
    afterwards, as long as the application does not call [reconnect()]:
    [willReconnect] stays false, no reconnect timer is set, no reconnect timer
    is live that was not live before, and the timer that [reconnectionTimeout]
    held when [close()] ran on a connection with a socket is not live. *)
Theorem after_close_nothing_schedules_a_reconnection c inputs :
  Forall (fun i => i ≠ Api Method.reconnect) inputs →
  let c2 := Index.run inputs (Index.close c).1 in
  willReconnect c2 = false
  ∧ scheduled (added c c2) = []
  ∧ reconnect_timers c2 `sublist_of` reconnect_timers c
  ∧ ∀ sock h, websocket c = Some sock → reconnectionTimeout c = Some h →
      h ∉ reconnect_timers c2.
Proof.
  intros Hin%allowed_no_reconnect. cbn zeta.
  destruct (after_close_no_timer_is_set c inputs Hin) as (Hw0 & Hw & Hs1 & Hs2 & Hsub).
  cbn zeta in *. split_and!; [done| |done|].
  - pose proof (quiet_Index_close true false false (set_willReconnect false c)) as Hq.
    destruct Hq as (_ & _ & [t1 Ht1] & _); [repeat split; done|].
    rewrite <- Index_close_idempotent_start in Ht1. change (trace (set_willReconnect false c)) with (trace c) in Ht1.
    pose proof (quiet_Index_run true false false I inputs (Index.close c).1 Hin) as Hr.
    destruct Hr as (_ & _ & [t2 Ht2] & _).
    { repeat split; done. }
    rewrite (added_app _ _ _ Ht1) in Hs1. rewrite (added_app _ _ _ Ht2) in Hs2.
    rewrite Ht1, <- app_assoc in Ht2.
    by rewrite (added_app _ _ _ Ht2), scheduled_app, Hs1, Hs2.
  - intros sock h Hsock Hh. by eapply close_clears_the_held_timer.
Qed.

Lemma after_close_witness :
  let c := Index.run [Api Method.connect; FromSocket 0 NOpen; Api Method.reconnect]
                     Index.new_RTC_Websocket in
  let inputs := [FromSocket 0 NClose; TimerFires 1; FromSocket 1 NOpen;
                 FromSocket 1 NClose; FromSocket 1 NError] in
  Forall (fun i => i ≠ Api Method.reconnect) inputs
  ∧ reconnect_timers c = [1]
  ∧ reconnect_timers (Index.run inputs (Index.close c).1) = [].
Proof.
  cbn zeta.
  set (c := Index.run [Api Method.connect; FromSocket 0 NOpen; Api Method.reconnect] _).
  set (inputs := [FromSocket 0 NClose; _; _; _; _]).
  assert (Hin : Forall (fun i => i ≠ Api Method.reconnect) inputs)
    by (repeat constructor; discriminate).
  assert (Hc : reconnect_timers c = [1]) by (vm_compute; reflexivity).
  split; [exact Hin|]. split; [exact Hc|].
  destruct (after_close_nothing_schedules_a_reconnection c inputs Hin) as (_ & _ & Hsub & Hh).
  cbn zeta in *.
  assert (H1 : 1 ∉ reconnect_timers (Index.run inputs (Index.close c).1)).
  { apply (Hh 0 1); vm_compute; reflexivity. }
  rewrite Hc in Hsub.
  destruct (reconnect_timers (Index.run inputs (Index.close c).1)) as [|h l]; [reflexivity|].
  exfalso. apply sublist_cons_l in Hsub as (k1 & k2 & Heq & _).
  destruct k1 as [|x [|? ?]]; simpl in Heq; simplify_eq. apply H1, list_elem_of_here.
Defined.

(** X8: a [conn.rejected] frame that decodes switches reconnection off in
    Websocket.ts for good. The listener clears the reconnect timer and the
    keepalive timer whose handles the connection holds and sets
    [canReconnect] to false; after that no input whatsoever, a close
    notification and [reconnect()] included, sets a reconnect timer, and the
    timer that [reconnectionTimeout] held never becomes live again. *)
Theorem after_a_rejection_nothing_schedules_a_reconnection c sock event inputs :
  is_Some (sockets c !! sock) → ev_event event = "conn.rejected" → decodes event →
  let c1 := (WebsocketTs.notify sock (NMessage (Json event)) c).1 in
  let c2 := WebsocketTs.run inputs c1 in
  canReconnect c2 = false
  ∧ scheduled (added c1 c2) = []
  ∧ reconnect_timers c2 `sublist_of` reconnect_timers c1
  ∧ (∀ h, reconnectionTimeout c = Some h → h ∉ reconnect_timers c2)
  ∧ (∀ h k, pingPongIntervalTimer c = Some h → (h, k) ∉ timers c1).
Proof.
  intros Hsock Hev Hdec. cbn zeta.
  destruct (rejection_stops_the_held_timers c sock event Hsock Hev Hdec) as (Hcan & Hr & Hp).
  cbn zeta in *.
  destruct (after_rejection_no_timer_is_set _ inputs Hcan) as (Hcan2 & Hs & Hsub).
  split_and!; [done..| |done].
  intros h Hh Hin. apply (sublist_subseteq _ _ Hsub) in Hin.
  apply list_elem_of_omap in Hin as ([h' k] & Ht & Hk).
  destruct k; simpl in Hk; simplify_eq. by eapply Hr.
Qed.

Lemma after_a_rejection_witness :
  let c := WebsocketTs.run [Api Method.connect; FromSocket 0 NOpen]
                           WebsocketTs.new_RTC_Websocket in
  let c1 := (WebsocketTs.notify 0 (NMessage (Json rejected)) c).1 in
  is_Some (sockets c !! 0) ∧ ev_event rejected = "conn.rejected" ∧ decodes rejected
  ∧ scheduled (added c1 (WebsocketTs.run [FromSocket 0 NClose; Api Method.reconnect] c1)) = [].
Proof.
  cbn zeta. set (c := WebsocketTs.run _ _).
  assert (H1 : is_Some (sockets c !! 0)) by (vm_compute; eauto).
  assert (H2 : ev_event rejected = "conn.rejected") by reflexivity.
  assert (H3 : decodes rejected).
  { eexists. split; [reflexivity|]. split; discriminate. }
  split_and!; [exact H1|exact H2|exact H3|].
  apply (after_a_rejection_nothing_schedules_a_reconnection c 0 rejected
           [FromSocket 0 NClose; Api Method.reconnect] H1 H2 H3).
Defined.

(** X9: with [reconnectionInterval] set to zero nothing in index.ts sets a
    reconnect timer: not [reconnect()], not a close notification, for any
    inputs that do not set another interval. The interval stays zero and no
    reconnect timer is live that was not live before. *)
Theorem zero_interval_schedules_no_reconnection c inputs :
  reconnectionInterval c = 0%Z →
  Forall (fun i => ∀ v, i = Api (Method.setReconnectionInterval v) → v = 0%Z) inputs →
  let c' := Index.run inputs c in
  reconnectionInterval c' = 0%Z
  ∧ scheduled (added c c') = []
  ∧ reconnect_timers c' `sublist_of` reconnect_timers c.
Proof.
  intros Hz Hin. cbn zeta.
  assert (Hall : Forall (allowed false true) inputs).
  { eapply Forall_impl; [done|]. intros [[]| | | |] Hi; simpl; try done.
    right. by apply Hi. }
  pose proof (quiet_Index_run false false true I inputs c Hall) as Hrun.
  destruct Hrun as ((_ & _ & Hz') & _ & _ & Hsub); [repeat split; done|].
  split_and!; [by apply Hz'| |done].
  eapply quiet_added; [apply (quiet_Index_run false false true I inputs c Hall)|].
  repeat split; done.
Qed.

Lemma zero_interval_witness :
  let c := Index.run [Api (Method.setReconnectionInterval 0); Api Method.connect;
                      FromSocket 0 NOpen] Index.new_RTC_Websocket in
  let inputs := [FromSocket 0 NClose; Api Method.reconnect; FromSocket 0 NError] in
  reconnectionInterval c = 0%Z
  ∧ Forall (fun i => ∀ v, i = Api (Method.setReconnectionInterval v) → v = 0%Z) inputs
  ∧ scheduled (added c (Index.run inputs c)) = [].
Proof.
  cbn zeta. set (c := Index.run _ _).
  assert (H1 : reconnectionInterval c = 0%Z) by (vm_compute; reflexivity).
  assert (H2 : Forall (fun i => ∀ v, i = Api (Method.setReconnectionInterval v) → v = 0%Z)
                 [FromSocket 0 NClose; Api Method.reconnect; FromSocket 0 NError])
    by (repeat constructor; intros v Hv; discriminate).
  split; [exact H1|]. split; [exact H2|].
  apply (zero_interval_schedules_no_reconnection c _ H1 H2).
Defined.

(** ** Methods called before [connect()] *)

(** X10: on a connection that has no socket yet, [reconnect()] and [close()]
    of index.ts throw a TypeError at [this.websocket.close()]. [reconnect()]
    has by then set [willReconnect] and the state ['internal_reconnection']
    and sets no timer; [close()] has set [willReconnect] to false and neither
    clears a timer nor dispatches ['custom.disconnect']. In Websocket.ts the
    socket is closed from a [setImmediate] callback instead: [reconnect()]
    returns and, with a non-zero interval, sets its timer, and it is the
    callback that throws. *)
Theorem reconnect_and_close_before_connect c :
  websocket c = None →
  Index.reconnect c
  = (set_connectionState "internal_reconnection" (set_willReconnect true c), Thrown TypeError)
  ∧ Index.close c = (set_willReconnect false c, Thrown TypeError)
  ∧ (canReconnect c = true → reconnectionInterval c ≠ 0%Z →
     let r := WebsocketTs.reconnect c in
     r.2 = Returned tt
     ∧ timers r.1 = timers c ++ [(next_timer c, ReconnectTimer)]
     ∧ immediates r.1 = immediates c ++ [CloseSocket]
     ∧ trace r.1 = trace c ++ [Scheduled (next_timer c)]
     ∧ (WebsocketTs.run_task CloseSocket r.1).2 = Thrown TypeError).
Proof.
  intros Hw. split_and!.
  - unfold Index.reconnect, Index.closeConnection, Core.websocket_close.
    unfold bind, gets, modify. simpl. by rewrite Hw.
  - unfold Index.close, Index.closeConnection, Core.websocket_close.
    unfold bind, gets, modify. simpl. by rewrite Hw.
  - intros Hcan Hz. cbn zeta.
    unfold WebsocketTs.reconnect, WebsocketTs.closeConnection, WebsocketTs.run_task,
      Core.websocket_close, Core.setTimer, Core.emit.
    unfold bind, gets, modify. simpl. rewrite Hcan. simpl.
    rewrite bool_decide_eq_true_2 by done. simpl. by rewrite Hw.
Qed.

Lemma reconnect_and_close_before_connect_witness :
  websocket Index.new_RTC_Websocket = None
  ∧ (Index.close Index.new_RTC_Websocket).2 = Thrown TypeError
  ∧ (Index.reconnect Index.new_RTC_Websocket).2 = Thrown TypeError.
Proof.
  assert (Hw : websocket Index.new_RTC_Websocket = None) by reflexivity.
  split; [exact Hw|].
  destruct (reconnect_and_close_before_connect Index.new_RTC_Websocket Hw) as (-> & -> & _).
  split; reflexivity.
Defined.

(** ** What a dispatch leaves alone *)

#[export] Instance anchored_preorder : PreOrder anchored.
Proof.
  split.
  - by intros c.
  - intros c1 c2 c3 (H1 & H2 & H3) (H4 & H5 & H6). split_and!; congruence.
Qed.

#[export] Instance moored_preorder : PreOrder moored.
Proof.
  split.
  - by intros c.
  - intros c1 c2 c3 (H1 & H2 & H3) (H4 & H5 & H6). split_and!; [congruence..|by etrans].
Qed.

Lemma anchored_settle p ok : keeps anchored (Core.settle p ok).
Proof. intros c. unfold Core.settle. by destruct (promises c !! p) as [[[] rs]|]. Qed.

Lemma anchored_transmit e p : keeps anchored (Core.transmit e p).
Proof.
  intros c. rewrite transmit_eq.
  destruct (live_socket c); [|apply anchored_settle].
  etrans; [|apply anchored_settle]. done.
Qed.

Lemma anchored_send event message receiver :
  keeps anchored (Core.send event message receiver).
Proof.
  intros c. rewrite send_eq. cbn zeta.
  destruct (Core.isOpened c); cbn [fst]; [|done].
  etrans; [|apply anchored_transmit]. done.
Qed.

Lemma anchored_call name cv l : keeps anchored (Core.call name cv l).
Proof.
  destruct l as [id|e p|e]; cbn [Core.call].
  - by intros c.
  - apply anchored_transmit.
  - apply keeps_bind; [apply _|apply anchored_send|]. intros. apply keeps_ret, _.
Qed.

(** A dispatch changes neither the state name nor the sockets. *)
Lemma anchored_dispatch name : keeps anchored (Core.dispatch name).
Proof.
  apply keeps_dispatch; [apply _|intros; apply anchored_call|]. by intros c.
Qed.

Lemma anchored_calm_moored c c' : anchored c c' → calm c c' → moored c c'.
Proof. intros (_ & H1 & H2) Hc. split_and!; [done..|]. by rewrite (calm_timers _ _ Hc). Qed.

Lemma moored_send event message receiver : keeps moored (Core.send event message receiver).
Proof. intros c. apply anchored_calm_moored; [apply anchored_send|apply calm_send]. Qed.

Lemma moored_dispatch name : keeps moored (Core.dispatch name).
Proof. intros c. apply anchored_calm_moored; [apply anchored_dispatch|apply calm_dispatch]. Qed.

Lemma moored_setTimer k : keeps moored (Core.setTimer k).
Proof. intros c. split_and!; [done..|]. simpl. by eexists. Qed.

(** ** The state after a close notification *)

Lemma ws_close_lookup_closed w sock c :
  sockets c !! sock = Some CLOSED →
  sockets (Core.ws_close w c).1 !! sock = Some CLOSED
  ∧ connectionState (Core.ws_close w c).1 = connectionState c
  ∧ willReconnect (Core.ws_close w c).1 = willReconnect c.
Proof.
  intros Hs. unfold Core.ws_close, modify. cbn [fst].
  destruct (decide (w = sock)) as [->|Hne].
  - by rewrite Hs.
  - destruct (sockets c !! w) as [[]|]; simpl; rewrite ?list_lookup_insert_ne by done; done.
Qed.

Lemma Index_close_notification c sock w :
  is_Some (sockets c !! sock) → websocket c = Some w →
  ∃ cx, Index.notify sock NClose c = Core.dispatch "close" cx
        ∧ connectionState cx = (if willReconnect c then "internal_reconnection" else "close")
        ∧ willReconnect cx = willReconnect c
        ∧ sockets cx !! sock = Some CLOSED.
Proof.
  intros [st Hst] Hw.
  assert (Hlk : <[sock := CLOSED]> (sockets c) !! sock = Some CLOSED).
  { apply list_lookup_insert_eq. apply lookup_lt_is_Some. eauto. }
  unfold Index.notify, Index.on_close, Index.clearPingPongInterval, Index.changeState.
  unfold bind at 1. unfold gets at 1. cbn beta iota. rewrite Hst. cbn beta iota.
  unfold bind at 1. unfold modify at 1. cbn beta iota.
  unfold bind at 1. unfold bind at 1. unfold gets at 1. cbn beta iota.
  set (c0 := set_sockets _ c).
  assert (H0 : websocket (Core.clearTimer (pingPongIntervalTimer c0) c0).1 = Some w
               ∧ willReconnect (Core.clearTimer (pingPongIntervalTimer c0) c0).1
                 = willReconnect c
               ∧ sockets (Core.clearTimer (pingPongIntervalTimer c0) c0).1 !! sock
                 = Some CLOSED).
  { unfold Core.clearTimer, modify. cbn [fst]. by destruct (pingPongIntervalTimer c0). }
  destruct (Core.clearTimer (pingPongIntervalTimer c0) c0) as [c1 []] eqn:E1; [|done].
  cbn [fst] in H0. destruct H0 as (Hw1 & Hwill1 & Hs1). clear E1. clearbody c0.
  unfold bind at 1. unfold modify at 1. cbn beta iota.
  unfold bind at 1. unfold gets at 1. cbn beta iota. cbn [willReconnect set_connectionState].
  rewrite Hwill1. rewrite bool_decide_eq_true_2 by done. cbn [andb].
  destruct (willReconnect c).
  - unfold bind at 1.
    rewrite (Index_reconnect_eq (set_connectionState "close" c1) w) by done. cbn zeta.
    destruct (ws_close_lookup_closed w sock
                (set_connectionState "internal_reconnection"
                   (set_willReconnect true (set_connectionState "close" c1)))) as (H1 & H2 & H3);
      [done|].
    set (c2 := (Core.ws_close w _).1) in *. clearbody c2.
    case_bool_decide; eexists; (split; [reflexivity|]); done.
  - unfold bind at 1. cbn [ret]. eexists. split; [reflexivity|]. done.
Qed.

(** What [reconnect()] of Websocket.ts does. *)
Lemma WebsocketTs_reconnect_eq c :
  WebsocketTs.reconnect c =
    if canReconnect c
    then let c1 := set_immediates (immediates c ++ [CloseSocket])
                     (set_connectionState "internal_reconnection" (set_willReconnect true c)) in
         if bool_decide (reconnectionInterval c ≠ 0%Z)
         then (set_reconnectionTimeout (Some (next_timer c))
                 (set_trace (trace c ++ [Scheduled (next_timer c)])
                    (set_next_timer (S (next_timer c))
                       (set_timers (timers c ++ [(next_timer c, ReconnectTimer)]) c1))),
               Returned tt)
         else (c1, Returned tt)
    else (c, Returned tt).
Proof.
  unfold WebsocketTs.reconnect. unfold bind at 1. unfold gets at 1. cbn beta iota.
  destruct (canReconnect c); [|done].
  unfold WebsocketTs.closeConnection.
  unfold bind at 1. unfold bind at 1. unfold modify at 1. cbn beta iota.
  unfold bind at 1. unfold gets at 1. cbn beta iota.
  unfold Core.isOpened. cbn [connectionState set_connectionState].
  rewrite (bool_decide_eq_false_2 (_ = "open")) by discriminate. cbn beta iota.
  unfold bind, gets, modify, ret, Core.setTimer, Core.emit. cbn.
  by case_bool_decide.
Qed.

Lemma WebsocketTs_close_notification c sock :
  is_Some (sockets c !! sock) →
  ∃ cx, WebsocketTs.notify sock NClose c = Core.dispatch "close" cx
        ∧ connectionState cx
          = (if willReconnect c && canReconnect c then "internal_reconnection" else "close")
        ∧ willReconnect cx = willReconnect c
        ∧ sockets cx !! sock = Some CLOSED.
Proof.
  intros [st Hst].
  assert (Hlk : <[sock := CLOSED]> (sockets c) !! sock = Some CLOSED).
  { apply list_lookup_insert_eq. apply lookup_lt_is_Some. eauto. }
  unfold WebsocketTs.notify, WebsocketTs.on_close, WebsocketTs.stopPingPong,
    WebsocketTs.changeState.
  unfold bind at 1. unfold gets at 1. cbn beta iota. rewrite Hst. cbn beta iota.
  unfold bind at 1. unfold modify at 1. cbn beta iota.
  unfold bind at 1. unfold bind at 1. unfold gets at 1. cbn beta iota.
  set (c0 := set_sockets _ c).
  assert (H0 : canReconnect (Core.clearTimer (pingPongIntervalTimer c0) c0).1 = canReconnect c
               ∧ willReconnect (Core.clearTimer (pingPongIntervalTimer c0) c0).1
                 = willReconnect c
               ∧ sockets (Core.clearTimer (pingPongIntervalTimer c0) c0).1 !! sock
                 = Some CLOSED).
  { unfold Core.clearTimer, modify. cbn [fst]. by destruct (pingPongIntervalTimer c0). }
  destruct (Core.clearTimer (pingPongIntervalTimer c0) c0) as [c1 []] eqn:E1; [|done].
  cbn [fst] in H0. destruct H0 as (Hcan1 & Hwill1 & Hs1). clear E1. clearbody c0.
  unfold bind at 1. unfold modify at 1. cbn beta iota.
  unfold bind at 1. unfold gets at 1. cbn beta iota. cbn [willReconnect set_connectionState].
  rewrite Hwill1. rewrite bool_decide_eq_true_2 by done. cbn [andb].
  destruct (willReconnect c); cbn [andb].
  - unfold bind at 1. rewrite WebsocketTs_reconnect_eq.
    cbn [canReconnect set_connectionState]. rewrite Hcan1.
    destruct (canReconnect c); cbn zeta.
    + case_bool_decide; eexists; (split; [reflexivity|]); done.
    + eexists. split; [reflexivity|]. done.
  - unfold bind at 1. cbn [ret]. eexists. split; [reflexivity|]. done.
Qed.

(** X11: the state that a close notification leaves. In index.ts, on a
    connection that has a socket, the state is ['internal_reconnection'] when
    [willReconnect] is set, since [changeState('close')] calls [reconnect()]
    before it dispatches ['close'], and ['close'] only when it is not; in
    Websocket.ts [canReconnect] must be set as well. The listeners of
    ['close'] change neither the state nor [willReconnect], and the socket
    that notified is closed. *)
Theorem state_after_a_close_notification c sock w :
  is_Some (sockets c !! sock) → websocket c = Some w →
  let c1 := (Index.notify sock NClose c).1 in
  let c2 := (WebsocketTs.notify sock NClose c).1 in
  (connectionState c1 = (if willReconnect c then "internal_reconnection" else "close")
   ∧ willReconnect c1 = willReconnect c
   ∧ sockets c1 !! sock = Some CLOSED)
  ∧ (connectionState c2
     = (if willReconnect c && canReconnect c then "internal_reconnection" else "close")
     ∧ willReconnect c2 = willReconnect c
     ∧ sockets c2 !! sock = Some CLOSED).
Proof.
  intros Hsock Hw. cbn zeta. split.
  - destruct (Index_close_notification c sock w Hsock Hw) as (cx & -> & Hst & Hwill & Hs).
    destruct (anchored_dispatch "close" cx) as (H1 & _ & H3).
    rewrite H1, H3, (calm_will _ _ (calm_dispatch "close" cx)). done.
  - destruct (WebsocketTs_close_notification c sock Hsock) as (cx & -> & Hst & Hwill & Hs).
    destruct (anchored_dispatch "close" cx) as (H1 & _ & H3).
    rewrite H1, H3, (calm_will _ _ (calm_dispatch "close" cx)). done.
Qed.

Lemma state_after_a_close_notification_witness :
  let c := Index.run [Api Method.connect; FromSocket 0 NOpen] Index.new_RTC_Websocket in
  is_Some (sockets c !! 0) ∧ websocket c = Some 0
  ∧ connectionState (Index.notify 0 NClose c).1 = "internal_reconnection".
Proof.
  cbn zeta. set (c := Index.run _ _).
  assert (H1 : is_Some (sockets c !! 0)) by (vm_compute; eauto).
  assert (H2 : websocket c = Some 0) by (vm_compute; reflexivity).
  split; [exact H1|]. split; [exact H2|].
  destruct (state_after_a_close_notification c 0 0 H1 H2) as ((-> & _) & _).
  vm_compute. reflexivity.
Defined.

(** ** A socket replaced while it is connecting *)

Lemma closeNative_while_connecting c s0 :
  websocket c = Some s0 → sockets c !! s0 = Some CONNECTING →
  Core.closeNativeWebsocketConnection c
  = (set_next_timer (S (next_timer c)) (set_timers (timers c ++ [(next_timer c, PollTimer)]) c),
     Returned tt).
Proof.
  intros Hw Hs. unfold Core.closeNativeWebsocketConnection, Core.setTimer.
  unfold bind, gets, ret. cbn beta iota. rewrite Hw. cbn beta iota. rewrite Hs.
  rewrite bool_decide_eq_false_2 by discriminate. cbn beta iota. rewrite Hs.
  by rewrite bool_decide_eq_true_2.
Qed.

Lemma Index_createSocket_while_connecting b c s0 :
  websocket c = Some s0 → sockets c !! s0 = Some CONNECTING →
  let c1 := (Index.createSocket b c).1 in
  websocket c1 = Some (length (sockets c))
  ∧ sockets c1 = sockets c ++ [CONNECTING]
  ∧ timers c1 = timers c ++ [(next_timer c, PollTimer)].
Proof.
  intros Hw Hs.
  set (name := if b then "reconnecting" else "connecting").
  assert (E : ∃ c0, anchored (set_connectionState name c) c0
                    ∧ calm (set_connectionState name c) c0
                    ∧ Index.createSocket b c
                      = ((Core.closeNativeWebsocketConnection ;;;
                          let* sock := Core.newWebSocket in
                          modify (set_websocket (Some sock)))%js c0)).
  { exists (Core.dispatch name (set_connectionState name c)).1.
    split; [apply anchored_dispatch|]. split; [apply calm_dispatch|].
    destruct (bind_returns_state (Core.dispatch name)
                (fun _ => (Core.closeNativeWebsocketConnection ;;;
                           let* sock := Core.newWebSocket in
                           modify (set_websocket (Some sock)))%js)
                (set_connectionState name c) (returns_dispatch _)) as ([] & _ & <-).
    unfold Index.createSocket, name. by destruct b. }
  destruct E as (c0 & (_ & Hw1 & Hs1) & Hcalm & E). cbn zeta. rewrite E. clear E.
  cbn [websocket sockets set_connectionState] in Hw1, Hs1.
  assert (E : (Core.closeNativeWebsocketConnection ;;;
               let* sock := Core.newWebSocket in
               modify (set_websocket (Some sock)))%js c0
              = (set_websocket (Some (length (sockets c0)))
                   (set_trace (trace c0 ++ [Created (length (sockets c0))])
                      (set_sockets (sockets c0 ++ [CONNECTING])
                         (set_next_timer (S (next_timer c0))
                            (set_timers (timers c0 ++ [(next_timer c0, PollTimer)]) c0)))),
                 Returned tt)).
  { unfold bind at 1. by rewrite (closeNative_while_connecting c0 s0) by congruence. }
  rewrite E. cbn.
  by rewrite Hs1, (calm_timers _ _ Hcalm), (calm_next _ _ Hcalm).
Qed.

(** The open listener of index.ts replaces no socket and clears no timer. *)
Lemma moored_Index_on_open : keeps moored Index.on_open.
Proof.
  unfold Index.on_open, Index.changeState.
  rewrite (bool_decide_eq_false_2 ("open" = "close")) by discriminate. cbn [andb].
  repeat first
    [ apply moored_send | apply moored_dispatch | apply moored_setTimer
    | apply keeps_modify; by intros ?
    | keeps_step ].
Qed.

Lemma list_find_fresh (ts more : list (nat * timer)) h k :
  Forall (fun t : nat * timer => t.1 < h) ts →
  list_find (fun t : nat * timer => t.1 = h) (ts ++ (h, k) :: more)
  = Some (length ts, (h, k)).
Proof.
  induction 1 as [|t ts Ht _ IH]; simpl.
  - by rewrite decide_True.
  - rewrite decide_False by lia. by rewrite IH.
Qed.

Lemma Index_open_notification_moored c sock :
  is_Some (sockets c !! sock) →
  let c' := (Index.notify sock NOpen c).1 in
  websocket c' = websocket c ∧ sockets c' = <[sock := OPEN]> (sockets c)
  ∧ timers c `prefix_of` timers c'.
Proof.
  intros [st Hst]. cbn zeta.
  assert (E : Index.notify sock NOpen c
              = Index.on_open (set_sockets (<[sock := OPEN]> (sockets c)) c)).
  { unfold Index.notify. unfold bind at 1. unfold gets at 1. cbn beta iota.
    by rewrite Hst. }
  rewrite E. apply (moored_Index_on_open (set_sockets _ c)).
Qed.

(** X12: [connect()] (or a reconnect timer) on a connection whose socket is
    still connecting. [createSocket] leaves that socket as it is, starts the
    poll of [closeNativeWebsocketConnection] and replaces [this.websocket];
    the poll reads [this.websocket] when it runs: it does nothing while the
    new socket is connecting, and once the new socket has opened it closes the
    new socket and stops, while the socket it was started for is still
    connecting. *)
Theorem poll_closes_the_socket_that_replaced_the_connecting_one b c s0 :
  websocket c = Some s0 → sockets c !! s0 = Some CONNECTING → timers_fresh c →
  let s1 := length (sockets c) in
  let h := next_timer c in
  let c1 := (Index.createSocket b c).1 in
  let c2 := (Index.notify s1 NOpen c1).1 in
  let c3 := (Index.fire h c2).1 in
  (websocket c1 = Some s1 ∧ sockets c1 = sockets c ++ [CONNECTING]
   ∧ timers c1 = timers c ++ [(h, PollTimer)])
  ∧ Index.fire h c1 = (c1, Returned tt)
  ∧ (sockets c3 !! s1 = Some CLOSING ∧ sockets c3 !! s0 = Some CONNECTING
     ∧ ∀ k, (h, k) ∉ timers c3).
Proof.
  intros Hw Hs Hfresh. cbn zeta.
  destruct (Index_createSocket_while_connecting b c s0 Hw Hs) as (Hw1 & Hs1 & Ht1).
  set (c1 := (Index.createSocket b c).1) in *. clearbody c1.
  assert (Hlt : s0 < length (sockets c)) by (apply lookup_lt_is_Some; eauto).
  assert (Hnew : sockets c1 !! length (sockets c) = Some CONNECTING).
  { rewrite Hs1. by rewrite lookup_app_r, Nat.sub_diag by lia. }
  split; [done|]. split.
  - unfold Index.fire. unfold bind at 1. unfold gets at 1. cbn beta iota.
    rewrite Ht1, (list_find_fresh (timers c) [] _ PollTimer Hfresh). cbn beta iota.
    unfold Core.poll, bind, gets, ret. cbn beta iota. rewrite Hw1. cbn beta iota.
    rewrite Hnew. by rewrite bool_decide_eq_false_2 by discriminate.
  - destruct (Index_open_notification_moored c1 (length (sockets c))) as (Hw2 & Hs2 & [more Ht2]);
      [eauto|].
    set (c2 := (Index.notify _ NOpen c1).1) in *. clearbody c2.
    assert (Hopen : sockets c2 !! length (sockets c) = Some OPEN).
    { rewrite Hs2. apply list_lookup_insert_eq. apply lookup_lt_is_Some. eauto. }
    assert (E : Index.fire (next_timer c) c2
                = (Core.ws_close (length (sockets c)) ;;;
                   Core.clearTimer (Some (next_timer c)))%js c2).
    { unfold Index.fire. unfold bind at 1. unfold gets at 1. cbn beta iota.
      rewrite Ht2, Ht1, <- app_assoc. cbn [app].
      rewrite (list_find_fresh (timers c) more _ PollTimer Hfresh). cbn beta iota.
      unfold Core.poll. unfold bind at 1. unfold gets at 1. cbn beta iota.
      rewrite Hw2, Hw1. cbn beta iota.
      unfold bind at 1. unfold gets at 1. cbn beta iota. rewrite Hopen.
      by rewrite bool_decide_eq_true_2. }
    rewrite E. unfold Core.ws_close, Core.clearTimer, bind, modify. cbn [fst snd].
    rewrite Hopen. cbn [sockets set_sockets set_timers timers].
    split_and!.
    + apply list_lookup_insert_eq. apply lookup_lt_is_Some. eauto.
    + rewrite list_lookup_insert_ne by lia. rewrite Hs2.
      rewrite list_lookup_insert_ne by lia. rewrite Hs1. by rewrite lookup_app_l.
    + intros k [Hne _]%list_elem_of_filter. by apply Hne.
Qed.

Lemma poll_witness :
  let c := Index.run [Api Method.connect] Index.new_RTC_Websocket in
  let c3 := Index.run [Api Method.connect; FromSocket 1 NOpen; TimerFires 0] c in
  websocket c = Some 0 ∧ sockets c !! 0 = Some CONNECTING ∧ timers_fresh c
  ∧ sockets c3 !! 1 = Some CLOSING ∧ sockets c3 !! 0 = Some CONNECTING.
Proof.
  cbn zeta. set (c := Index.run [Api Method.connect] _).
  assert (H1 : websocket c = Some 0) by reflexivity.
  assert (H2 : sockets c !! 0 = Some CONNECTING) by reflexivity.
  assert (H3 : timers_fresh c) by (unfold timers_fresh; vm_compute; constructor).
  split_and!; [exact H1|exact H2|exact H3|..];
    destruct (poll_closes_the_socket_that_replaced_the_connecting_one false c 0 H1 H2 H3)
      as (_ & _ & Ha & Hb & _); [exact Ha|exact Hb].
Defined.

(** ** What is written when the socket opens *)

Lemma anchored_open c c' sock :
  anchored c c' → Core.isOpened c = true → live_socket c = Some sock →
  Core.isOpened c' = true ∧ live_socket c' = Some sock.
Proof.
  intros (H1 & H2 & H3) Ho Hl. unfold Core.isOpened, live_socket in *.
  by rewrite H1, H2, H3.
Qed.

Lemma settle_wires p ok c :
  eventEmitter (Core.settle p ok c).1 = eventEmitter c
  ∧ ∃ t, trace (Core.settle p ok c).1 = trace c ++ t ∧ wired t = [].
Proof.
  unfold Core.settle. destruct (promises c !! p) as [[[] rs]|]; cbn [fst];
    (split; [done|]); try (exists []; by rewrite app_nil_r).
  by exists [Settled p ok].
Qed.

Lemma transmit_wires e p c sock :
  live_socket c = Some sock →
  eventEmitter (Core.transmit e p c).1 = eventEmitter c
  ∧ ∃ t, trace (Core.transmit e p c).1 = trace c ++ t ∧ wired t = [(sock, e)].
Proof.
  intros Hl. rewrite transmit_eq, Hl.
  destruct (settle_wires p true (set_trace (trace c ++ [Wire sock e]) c)) as (He & t & Ht & Hw).
  split; [done|]. exists (Wire sock e :: t). split.
  - rewrite Ht. simpl. by rewrite <- app_assoc.
  - simpl. by rewrite Hw.
Qed.

Lemma call_wires name cv l c sock :
  Core.isOpened c = true → live_socket c = Some sock →
  eventEmitter (Core.call name cv l c).1 = eventEmitter c
  ∧ ∃ t, trace (Core.call name cv l c).1 = trace c ++ t
         ∧ wired t = map (pair sock) (wire_of l).
Proof.
  intros Ho Hl. destruct l as [id|e p|e]; cbn [Core.call wire_of].
  - split; [done|]. by exists [Fired ConnBus name cv id].
  - by apply transmit_wires.
  - destruct (bind_returns_state (Core.send (e_event e) (e_payload e) (e_receiver e))
                (fun _ => ret tt) c (returns_send _ _ _)) as (p & _ & ->). cbn [ret fst].
    rewrite send_eq. cbn zeta. rewrite Ho. cbn [fst].
    destruct (transmit_wires (Envelope (e_event e) (e_payload e) (e_receiver e))
                (length (promises c))
                (set_promises (promises c ++ [Promise Pending []]) c) sock Hl)
      as (He & t & Ht & Hw).
    split; [done|]. exists t. split; [done|]. by destruct e.
Qed.

Lemma forEach_wires name cv ls : ∀ c sock,
  Core.isOpened c = true → live_socket c = Some sock →
  let c' := (forEach (Core.call name cv) ls c).1 in
  eventEmitter c' = eventEmitter c
  ∧ Core.isOpened c' = true ∧ live_socket c' = Some sock
  ∧ ∃ t, trace c' = trace c ++ t ∧ wired t = map (pair sock) (flat_map wire_of ls).
Proof.
  induction ls as [|l ls IH]; intros c sock Ho Hl; cbn zeta.
  - simpl. split_and!; [done..|]. exists []. by rewrite app_nil_r.
  - rewrite forEach_cons_state by apply returns_call.
    destruct (call_wires name cv l c sock Ho Hl) as (He & t & Ht & Hw).
    destruct (anchored_open _ _ sock (anchored_call name cv l c) Ho Hl) as (Ho1 & Hl1).
    set (c1 := (Core.call name cv l c).1) in *. clearbody c1.
    destruct (IH c1 sock Ho1 Hl1) as (He2 & Ho2 & Hl2 & t2 & Ht2 & Hw2).
    split_and!; [congruence|done..|].
    exists (t ++ t2). split.
    + by rewrite Ht2, Ht, app_assoc.
    + by rewrite wired_app, Hw, Hw2, <- map_app.
Qed.

(** On an open connection a dispatch writes the envelopes of the persistent
    listeners of the name and then those of its one-shot listeners, each in
    the order of the list. *)
Lemma dispatch_wires name c sock :
  Core.isOpened c = true → live_socket c = Some sock →
  wired (added c (Core.dispatch name c).1)
  = map (pair sock)
      (flat_map wire_of (default [] (on_ (eventEmitter c) !! name))
       ++ flat_map wire_of (default [] (once_ (eventEmitter c) !! name))).
Proof.
  intros Ho Hl.
  assert (H : ∃ t, trace (Core.dispatch name c).1 = trace c ++ t
              ∧ wired t = map (pair sock)
                            (flat_map wire_of (default [] (on_ (eventEmitter c) !! name))
                             ++ flat_map wire_of
                                  (default [] (once_ (eventEmitter c) !! name)))).
  { unfold Core.dispatch, RTC_EventEmitter.dispatch. unfold bind at 1, gets at 1.
    set (M1 := match on_ (eventEmitter c) !! name with
               | Some ls => forEach (Core.call name Spread) ls
               | None => ret tt
               end).
    assert (Hret1 : returns M1).
    { subst M1. destruct (on_ (eventEmitter c) !! name); [|apply returns_ret].
      apply returns_forEach. intros; apply returns_call. }
    assert (H1 : eventEmitter (M1 c).1 = eventEmitter c
                 ∧ Core.isOpened (M1 c).1 = true ∧ live_socket (M1 c).1 = Some sock
                 ∧ ∃ t, trace (M1 c).1 = trace c ++ t
                        ∧ wired t = map (pair sock)
                            (flat_map wire_of (default [] (on_ (eventEmitter c) !! name)))).
    { subst M1. destruct (on_ (eventEmitter c) !! name) as [ls|]; cbn [default].
      - by apply forEach_wires.
      - split_and!; [done..|]. exists []. by rewrite app_nil_r. }
    match goal with |- context [bind M1 ?k] =>
      destruct (bind_returns_state M1 k c Hret1) as ([] & _ & ->) end.
    destruct H1 as (He1 & Ho1 & Hl1 & t1 & Ht1 & Hw1).
    set (c1 := (M1 c).1) in *. clearbody c1.
    unfold bind at 1, gets at 1. rewrite He1.
    destruct (once_ (eventEmitter c) !! name) as [ls|]; cbn [default].
    - match goal with |- context [bind ?m ?k c1] =>
        destruct (bind_returns_state m k c1) as ([] & _ & ->) end.
      { apply returns_forEach. intros; apply returns_call. }
      destruct (forEach_wires name Aggregate ls c1 sock Ho1 Hl1) as (_ & _ & _ & t2 & Ht2 & Hw2).
      exists (t1 ++ t2). split.
      + cbn [modify fst trace set_eventEmitter]. by rewrite Ht2, Ht1, app_assoc.
      + by rewrite wired_app, Hw1, Hw2, <- map_app.
    - exists t1. split; [done|]. by rewrite Hw1, app_nil_r. }
  destruct H as (t & Ht & Hw). by rewrite (added_app _ _ _ Ht).
Qed.

#[export] Instance silent_preorder : PreOrder silent.
Proof.
  split.
  - intros c. split_and!; [done..|]. exists []. by rewrite app_nil_r.
  - intros c1 c2 c3 (Ha & H1 & H2 & t & Ht & Hw) (Ha' & H3 & H4 & t' & Ht' & Hw').
    split_and!; [by etrans|congruence..|]. exists (t ++ t').
    rewrite Ht', Ht, <- app_assoc, wired_app, Hw, Hw'. done.
Qed.

Lemma silent_frame c c' t :
  anchored c c' → eventEmitter c' = eventEmitter c →
  trace c' = trace c ++ t → wired t = [] → silent c c'.
Proof. intros Ha He Ht Hw. split_and!; [done|by rewrite He..|by exists t]. Qed.

(** A dispatch whose listeners are all callbacks of the application writes
    nothing and leaves the listeners of ['open'] alone. *)
Lemma silent_dispatch name c :
  name ≠ "open" → plain name c → silent c (Core.dispatch name c).1.
Proof.
  intros Hname Hplain.
  assert (Hcall : ∀ cv l c0, (∃ id, l = App id) → silent c0 (Core.call name cv l c0).1).
  { intros cv l c0 [id ->]. by apply (silent_frame _ _ [Fired ConnBus name cv id]). }
  assert (Hem : ∀ cv ls c0, (∀ l, l ∈ ls → ∃ id, l = App id) →
            eventEmitter (forEach (Core.call name cv) ls c0).1 = eventEmitter c0).
  { intros cv ls. induction ls as [|l ls IH]; intros c0 Hls; [done|].
    rewrite forEach_cons_state by apply returns_call.
    rewrite IH by (intros; apply Hls; by apply list_elem_of_further).
    destruct (Hls l (list_elem_of_here _ _)) as [id ->]. done. }
  unfold Core.dispatch, RTC_EventEmitter.dispatch. unfold bind at 1, gets at 1.
  set (M1 := match on_ (eventEmitter c) !! name with
             | Some ls => forEach (Core.call name Spread) ls
             | None => ret tt
             end).
  assert (Hret1 : returns M1).
  { subst M1. destruct (on_ (eventEmitter c) !! name); [|apply returns_ret].
    apply returns_forEach. intros; apply returns_call. }
  assert (H1 : silent c (M1 c).1 ∧ eventEmitter (M1 c).1 = eventEmitter c).
  { subst M1. destruct (on_ (eventEmitter c) !! name) as [ls|] eqn:E; [|done].
    assert (Hls : ∀ l, l ∈ ls → ∃ id, l = App id).
    { intros l Hl. apply Hplain. rewrite E. apply elem_of_app. by left. }
    split; [|by apply Hem].
    apply (keeps_forEach_in silent). intros l Hl c0. by apply Hcall, Hls. }
  match goal with |- context [bind M1 ?k] =>
    destruct (bind_returns_state M1 k c Hret1) as ([] & _ & ->) end.
  destruct H1 as (Hs1 & He1).
  set (c1 := (M1 c).1) in *. clearbody c1.
  unfold bind at 1, gets at 1. rewrite He1.
  destruct (once_ (eventEmitter c) !! name) as [ls|] eqn:E; [|done].
  assert (Hls : ∀ l, l ∈ ls → ∃ id, l = App id).
  { intros l Hl. apply Hplain. rewrite E. apply elem_of_app. by right. }
  match goal with |- context [bind ?m ?k c1] =>
    destruct (bind_returns_state m k c1) as ([] & _ & ->) end.
  { apply returns_forEach. intros; apply returns_call. }
  assert (H2 : silent c1 (forEach (Core.call name Aggregate) ls c1).1).
  { apply (keeps_forEach_in silent). intros l Hl c0. by apply Hcall, Hls. }
  set (c2 := (forEach _ ls c1).1) in *. clearbody c2.
  etrans; [done|]. etrans; [done|].
  cbn [modify fst]. destruct H2 as (_ & _ & _ & _).
  split_and!; [done|done| |exists []; by rewrite app_nil_r].
  cbn [eventEmitter set_eventEmitter once_]. by rewrite lookup_delete_ne.
Qed.

Lemma changeState_open_eq c :
  Index.changeState "open" c = Core.dispatch "open" (set_connectionState "open" c)
  ∧ WebsocketTs.changeState "open" c = Core.dispatch "open" (set_connectionState "open" c).
Proof.
  unfold Index.changeState, WebsocketTs.changeState.
  rewrite (bool_decide_eq_false_2 ("open" = "close")) by discriminate. cbn [andb].
  split; reflexivity.
Qed.

(** The open listener of index.ts after the token: what comes before
    [changeState('open')] writes nothing. *)
Lemma Index_on_open_rest c :
  plain "reconnect" c →
  ∃ cB, (let* st := gets connectionState in
         (if bool_decide (st = "reconnecting") then Core.dispatch "reconnect" else ret tt) ;;;
         let* h := Core.setTimer PingTimer in
         modify (set_pingPongIntervalTimer (Some h)) ;;;
         Index.changeState "open")%js c
        = Core.dispatch "open" (set_connectionState "open" cB)
        ∧ silent c cB.
Proof.
  intros Hplain. unfold bind at 1, gets at 1.
  assert (H1 : ∃ c1, (if bool_decide (connectionState c = "reconnecting")
                      then Core.dispatch "reconnect" else ret tt) c = (c1, Returned tt)
                     ∧ silent c c1).
  { case_bool_decide.
    - destruct (returns_dispatch "reconnect" c) as [[] Hr].
      exists (Core.dispatch "reconnect" c).1. split.
      + by destruct (Core.dispatch "reconnect" c) as [? []]; simplify_eq/=.
      + by apply silent_dispatch.
    - by exists c. }
  destruct H1 as (c1 & E1 & Hs1). unfold bind at 1. rewrite E1.
  unfold bind at 1. unfold Core.setTimer at 1. cbn beta iota zeta.
  unfold bind at 1. unfold modify at 1. cbn beta iota.
  rewrite (proj1 (changeState_open_eq _)).
  eexists. split; [reflexivity|].
  etrans; [done|]. apply (silent_frame _ _ []); [done..|by rewrite app_nil_r|done].
Qed.

Lemma Index_on_open_eq c :
  Core.isOpened c = false → plain "reconnect" c →
  ∃ cB, Index.on_open c = Core.dispatch "open" (set_connectionState "open" cB)
        ∧ websocket cB = websocket c ∧ sockets cB = sockets c
        ∧ on_ (eventEmitter cB) !! "open" = on_ (eventEmitter c) !! "open"
        ∧ flat_map wire_of (default [] (once_ (eventEmitter cB) !! "open"))
          = flat_map wire_of (default [] (once_ (eventEmitter c) !! "open")) ++ auth_envelope c
        ∧ ∃ t, trace cB = trace c ++ t ∧ wired t = [].
Proof.
  intros Hopen Hplain. unfold Index.on_open. unfold bind at 1, gets at 1.
  unfold auth_envelope.
  assert (Hnone : ∃ cB, (ret tt ;;;
                         let* st := gets connectionState in
                         (if bool_decide (st = "reconnecting")
                          then Core.dispatch "reconnect" else ret tt) ;;;
                         let* h := Core.setTimer PingTimer in
                         modify (set_pingPongIntervalTimer (Some h)) ;;;
                         Index.changeState "open")%js c
                        = Core.dispatch "open" (set_connectionState "open" cB)
                        ∧ websocket cB = websocket c ∧ sockets cB = sockets c
                        ∧ on_ (eventEmitter cB) !! "open" = on_ (eventEmitter c) !! "open"
                        ∧ flat_map wire_of (default [] (once_ (eventEmitter cB) !! "open"))
                          = flat_map wire_of (default [] (once_ (eventEmitter c) !! "open")) ++ []
                        ∧ ∃ t, trace cB = trace c ++ t ∧ wired t = []).
  { destruct (Index_on_open_rest c Hplain) as (cB & E & (_ & Hw & Hs) & Hon & Honce & Ht).
    exists cB. unfold bind at 1. cbn [ret]. rewrite E. rewrite Honce, app_nil_r. done. }
  destruct (defaultAuthToken c) as [tok|]; [|done].
  case_bool_decide as Htok; [|done].
  set (e := Envelope "auth.token" (PText tok) None).
  set (cA := set_eventEmitter
               (pushed_once "open" (SendWhenOpen e (length (promises c)))
                  (eventEmitter c))
               (set_promises (promises c ++ [Promise Pending []]) c)).
  assert (E : (Core.send "auth.token" (PText tok) None ;;; ret tt)%js c = (cA, Returned tt)).
  { unfold bind. rewrite send_eq. cbn zeta. by rewrite Hopen. }
  unfold bind at 1. rewrite E. clear Hnone E.
  destruct (once_lookup "open" (SendWhenOpen e (length (promises c))) (eventEmitter c))
    as (Hon & Honce & Hother).
  destruct (Index_on_open_rest cA) as (cB & E & (_ & Hw & Hs) & Hon' & Honce' & t & Ht & Hwt).
  { intros l. unfold cA. cbn [eventEmitter set_eventEmitter].
    rewrite Hon, Hother by discriminate. apply Hplain. }
  exists cB. rewrite E. split; [done|].
  split_and!; [done|done| | |].
  - rewrite Hon'. unfold cA. cbn [eventEmitter set_eventEmitter]. by rewrite Hon.
  - rewrite Honce'. unfold cA. cbn [eventEmitter set_eventEmitter]. rewrite Honce.
    cbn [default from_option id]. by rewrite flat_map_app.
  - by exists t.
Qed.

Lemma open_dispatch_wires c cB sock (ons onces : list envelope) :
  websocket cB = Some sock → sockets cB !! sock = Some OPEN →
  flat_map wire_of (default [] (on_ (eventEmitter cB) !! "open")) = ons →
  flat_map wire_of (default [] (once_ (eventEmitter cB) !! "open")) = onces →
  (∃ t, trace cB = trace c ++ t ∧ wired t = []) →
  wired (added c (Core.dispatch "open" (set_connectionState "open" cB)).1)
  = map (pair sock) (ons ++ onces).
Proof.
  intros Hw Hs Hon Honce (t & Ht & Hwt).
  set (c1 := set_connectionState "open" cB).
  assert (Hlive : live_socket c1 = Some sock).
  { unfold live_socket, c1. cbn [websocket sockets set_connectionState].
    rewrite Hw. by rewrite bool_decide_eq_true_2. }
  pose proof (dispatch_wires "open" c1 sock eq_refl Hlive) as Hd.
  destruct (calm_trace _ _ (calm_dispatch "open" c1)) as [t2 Ht2].
  rewrite (added_app _ _ _ Ht2) in Hd.
  change (trace c1) with (trace cB) in Ht2. rewrite Ht, <- app_assoc in Ht2.
  rewrite (added_app _ _ _ Ht2), wired_app, Hwt, Hd. cbn [app].
  unfold c1. cbn [eventEmitter set_connectionState]. by rewrite Hon, Honce.
Qed.


Lemma WebsocketTs_on_open_rest c :
  plain "reconnect" c →
  ∃ cB, (let* st := gets connectionState in
         (if bool_decide (st = "reconnecting") then Core.dispatch "reconnect" else ret tt) ;;;
         let* enabled := gets isClientPingEnabled in
         (if enabled : bool then WebsocketTs.startPingPong else ret tt) ;;;
         WebsocketTs.changeState "open")%js c
        = Core.dispatch "open" (set_connectionState "open" cB)
        ∧ silent c cB.
Proof.
  intros Hplain. unfold bind at 1, gets at 1.
  assert (H1 : ∃ c1, (if bool_decide (connectionState c = "reconnecting")
                      then Core.dispatch "reconnect" else ret tt) c = (c1, Returned tt)
                     ∧ silent c c1).
  { case_bool_decide.
    - destruct (returns_dispatch "reconnect" c) as [[] Hr].
      exists (Core.dispatch "reconnect" c).1. split.
      + by destruct (Core.dispatch "reconnect" c) as [? []]; simplify_eq/=.
      + by apply silent_dispatch.
    - by exists c. }
  destruct H1 as (c1 & E1 & Hs1). unfold bind at 1. rewrite E1.
  unfold bind at 1. unfold gets at 1. cbn beta iota.
  assert (H2 : ∃ c2, (if isClientPingEnabled c1 then WebsocketTs.startPingPong else ret tt) c1
                     = (c2, Returned tt) ∧ silent c1 c2).
  { destruct (isClientPingEnabled c1).
    - eexists. split; [reflexivity|].
      apply (silent_frame _ _ []); [done..|by rewrite app_nil_r|done].
    - by exists c1. }
  destruct H2 as (c2 & E2 & Hs2). unfold bind at 1. rewrite E2.
  rewrite (proj2 (changeState_open_eq _)).
  exists c2. split; [reflexivity|]. by etrans.
Qed.

Lemma WebsocketTs_on_open_eq c :
  Core.isOpened c = false → plain "reconnect" c →
  ∃ cB, WebsocketTs.on_open c = Core.dispatch "open" (set_connectionState "open" cB)
        ∧ websocket cB = websocket c ∧ sockets cB = sockets c
        ∧ on_ (eventEmitter cB) !! "open" = on_ (eventEmitter c) !! "open"
        ∧ flat_map wire_of (default [] (once_ (eventEmitter cB) !! "open"))
          = flat_map wire_of (default [] (once_ (eventEmitter c) !! "open")) ++ auth_envelope c
        ∧ ∃ t, trace cB = trace c ++ t ∧ wired t = [].
Proof.
  intros Hopen Hplain. unfold WebsocketTs.on_open. unfold bind at 1, gets at 1.
  unfold auth_envelope.
  assert (Hnone : ∃ cB, (ret tt ;;;
                         let* st := gets connectionState in
                         (if bool_decide (st = "reconnecting")
                          then Core.dispatch "reconnect" else ret tt) ;;;
                         let* enabled := gets isClientPingEnabled in
                         (if enabled : bool then WebsocketTs.startPingPong else ret tt) ;;;
                         WebsocketTs.changeState "open")%js c
                        = Core.dispatch "open" (set_connectionState "open" cB)
                        ∧ websocket cB = websocket c ∧ sockets cB = sockets c
                        ∧ on_ (eventEmitter cB) !! "open" = on_ (eventEmitter c) !! "open"
                        ∧ flat_map wire_of (default [] (once_ (eventEmitter cB) !! "open"))
                          = flat_map wire_of (default [] (once_ (eventEmitter c) !! "open")) ++ []
                        ∧ ∃ t, trace cB = trace c ++ t ∧ wired t = []).
  { destruct (WebsocketTs_on_open_rest c Hplain) as (cB & E & (_ & Hw & Hs) & Hon & Honce & Ht).
    exists cB. unfold bind at 1. cbn [ret]. rewrite E. rewrite Honce, app_nil_r. done. }
  destruct (defaultAuthToken c) as [tok|]; [|done].
  case_bool_decide as Htok; [|done].
  set (e := Envelope "auth.token" (PText tok) None).
  set (cA := set_eventEmitter
               (pushed_once "open" (SendWhenOpen e (length (promises c)))
                  (eventEmitter c))
               (set_promises (promises c ++ [Promise Pending []]) c)).
  assert (E : (Core.send "auth.token" (PText tok) None ;;; ret tt)%js c = (cA, Returned tt)).
  { unfold bind. rewrite send_eq. cbn zeta. by rewrite Hopen. }
  unfold bind at 1. rewrite E. clear Hnone E.
  destruct (once_lookup "open" (SendWhenOpen e (length (promises c))) (eventEmitter c))
    as (Hon & Honce & Hother).
  destruct (WebsocketTs_on_open_rest cA)
    as (cB & E & (_ & Hw & Hs) & Hon' & Honce' & t & Ht & Hwt).
  { intros l. unfold cA. cbn [eventEmitter set_eventEmitter].
    rewrite Hon, Hother by discriminate. apply Hplain. }
  exists cB. rewrite E. split; [done|].
  split_and!; [done|done| | |].
  - rewrite Hon'. unfold cA. cbn [eventEmitter set_eventEmitter]. by rewrite Hon.
  - rewrite Honce'. unfold cA. cbn [eventEmitter set_eventEmitter]. rewrite Honce.
    cbn [default from_option id]. by rewrite flat_map_app.
  - by exists t.
Qed.

(** X13: what is written when the socket opens, in index.ts and in
    Websocket.ts. The open listener calls [send('auth.token', ...)] while the
    state is not yet ['open'], so the token is queued behind the sends that are
    waiting already; then [changeState('open')] dispatches ['open']: the rooms
    that were joined while the connection was not open send their join
    envelopes first, in the order of [joinRoom], then the queued sends are
    written in the order of the calls, and the token is written last. *)
Theorem open_writes_the_joins_the_queue_and_then_the_token c sock :
  websocket c = Some sock → is_Some (sockets c !! sock) →
  Core.isOpened c = false → plain "reconnect" c →
  let written := map (pair sock)
                   (flat_map wire_of (default [] (on_ (eventEmitter c) !! "open"))
                    ++ flat_map wire_of (default [] (once_ (eventEmitter c) !! "open"))
                    ++ auth_envelope c) in
  wired (added c (Index.notify sock NOpen c).1) = written
  ∧ wired (added c (WebsocketTs.notify sock NOpen c).1) = written.
Proof.
  intros Hw [st Hst] Hopen Hplain. cbn zeta.
  set (c0 := set_sockets (<[sock := OPEN]> (sockets c)) c).
  assert (E1 : Index.notify sock NOpen c = Index.on_open c0).
  { unfold Index.notify. unfold bind at 1. unfold gets at 1. cbn beta iota.
    by rewrite Hst. }
  assert (E2 : WebsocketTs.notify sock NOpen c = WebsocketTs.on_open c0).
  { unfold WebsocketTs.notify. unfold bind at 1. unfold gets at 1. cbn beta iota.
    by rewrite Hst. }
  rewrite E1, E2.
  assert (Hlk : <[sock := OPEN]> (sockets c) !! sock = Some OPEN).
  { apply list_lookup_insert_eq. apply lookup_lt_is_Some. eauto. }
  split.
  - destruct (Index_on_open_eq c0 Hopen Hplain) as (cB & -> & Hw1 & Hs1 & Hon & Honce & Ht).
    apply (open_dispatch_wires c cB sock);
      [by rewrite Hw1|by rewrite Hs1|by rewrite Hon|by rewrite Honce|done].
  - destruct (WebsocketTs_on_open_eq c0 Hopen Hplain)
      as (cB & -> & Hw1 & Hs1 & Hon & Honce & Ht).
    apply (open_dispatch_wires c cB sock);
      [by rewrite Hw1|by rewrite Hs1|by rewrite Hon|by rewrite Honce|done].
Qed.

Lemma open_writes_witness :
  let c := Index.run [Api (Method.setAuthToken "secret"); Api (Method.joinRoom "lobby");
                      Api (Method.send "hello" (PText "world") None);
                      Api Method.connect] Index.new_RTC_Websocket in
  websocket c = Some 0 ∧ is_Some (sockets c !! 0) ∧ Core.isOpened c = false
  ∧ plain "reconnect" c
  ∧ wired (added c (Index.notify 0 NOpen c).1)
    = [(0, Envelope "join" (PText "lobby") (Some (Address "room" "lobby")));
       (0, Envelope "hello" (PText "world") None);
       (0, Envelope "auth.token" (PText "secret") None)].
Proof.
  cbn zeta. set (c := Index.run _ _).
  assert (H1 : websocket c = Some 0) by (vm_compute; reflexivity).
  assert (H2 : is_Some (sockets c !! 0)) by (vm_compute; eauto).
  assert (H3 : Core.isOpened c = false) by (vm_compute; reflexivity).
  assert (H4 : plain "reconnect" c).
  { intros l Hl.
    assert (Hnil : default [] (on_ (eventEmitter c) !! "reconnect")
                   ++ default [] (once_ (eventEmitter c) !! "reconnect") = [])
      by (vm_compute; reflexivity).
    rewrite Hnil in Hl. by apply not_elem_of_nil in Hl. }
  split_and!; [exact H1|exact H2|exact H3|exact H4|].
  destruct (open_writes_the_joins_the_queue_and_then_the_token c 0 H1 H2 H3 H4) as [-> _].
  vm_compute. reflexivity.
Defined.

(** ** The order of the callbacks for an inbound frame *)

Lemma forEach_apps name cv ls : ∀ c,
  (∀ l, l ∈ ls → ∃ id, l = App id) →
  forEach (Core.call name cv) ls c
  = (set_trace (trace c ++ map (Fired ConnBus name cv) (app_ids ls)) c, Returned tt).
Proof.
  induction ls as [|l ls IH]; intros c Hls.
  - simpl. by rewrite app_nil_r, set_trace_id.
  - destruct (Hls l (list_elem_of_here _ _)) as [id ->].
    cbn [forEach Core.call]. unfold bind at 1. cbn [Core.emit modify].
    rewrite IH by (intros; apply Hls; by apply list_elem_of_further).
    simpl. by rewrite <- app_assoc.
Qed.

(** A dispatch whose listeners are callbacks of the application calls them
    and removes the one-shot list; nothing else changes. *)
Lemma dispatch_plain_eq name c :
  plain name c →
  Core.dispatch name c
  = (set_eventEmitter (after_dispatch name (eventEmitter c))
       (set_trace (trace c ++ calls name c) c), Returned tt).
Proof.
  intros Hplain. unfold calls.
  assert (Hon : ∀ l, l ∈ default [] (on_ (eventEmitter c) !! name) → ∃ id, l = App id).
  { intros l Hl. apply Hplain, elem_of_app. by left. }
  assert (Honce : ∀ l, l ∈ default [] (once_ (eventEmitter c) !! name) → ∃ id, l = App id).
  { intros l Hl. apply Hplain, elem_of_app. by right. }
  unfold Core.dispatch, RTC_EventEmitter.dispatch, after_dispatch.
  unfold bind at 1, gets at 1.
  destruct (on_ (eventEmitter c) !! name) as [ls|]; cbn [default from_option id] in *.
  - unfold bind at 1. rewrite forEach_apps by done.
    unfold bind at 1, gets at 1. cbn [eventEmitter set_trace].
    destruct (once_ (eventEmitter c) !! name) as [os|] eqn:E; cbn [default from_option id] in *.
    + unfold bind at 1. rewrite forEach_apps by done.
      unfold modify. simpl. by rewrite <- app_assoc.
    + simpl. rewrite app_nil_r, delete_id by done. by destruct c as [? ? ? ? ? ? []].
  - unfold bind at 1. cbn [ret].
    unfold bind at 1, gets at 1.
    destruct (once_ (eventEmitter c) !! name) as [os|] eqn:E; cbn [default from_option id] in *.
    + unfold bind at 1. rewrite forEach_apps by done. unfold modify. by simpl.
    + simpl. rewrite delete_id by done. unfold ret.
      destruct c as [? ? ? ? ? ? []]; simpl. by rewrite app_nil_r.
Qed.

Lemma plain_after name name' t c :
  name ≠ name' → plain name c →
  plain name (set_eventEmitter (after_dispatch name' (eventEmitter c)) (set_trace t c))
  ∧ calls name (set_eventEmitter (after_dispatch name' (eventEmitter c)) (set_trace t c))
    = calls name c.
Proof.
  intros Hne Hplain. unfold plain, calls, after_dispatch.
  cbn [eventEmitter set_eventEmitter on_ once_]. by rewrite lookup_delete_ne.
Qed.

Lemma room_events_full event a c :
  ev_receiver event = Some a →
  ∃ c', Core.room_events event c = (c', Returned tt)
        ∧ trace c' = trace c ++ room_calls event a c
        ∧ eventEmitter c' = eventEmitter c.
Proof.
  intros Hrcv. unfold room_calls. case_bool_decide as Htype.
  - rewrite (room_events_eq event a c Hrcv Htype).
    destruct (Core.scan _ _ _ _) as [[i r]|] eqn:Hscan.
    + pose proof (room_events_trace event a c Hrcv Htype) as Ht.
      rewrite (room_events_eq event a c Hrcv Htype), Hscan in Ht.
      rewrite !emitEvent_eq in *. cbn zeta in *. eexists. split; [reflexivity|].
      split; [done|].
      by repeat case_match.
    + exists c. by rewrite app_nil_r.
  - exists c. rewrite app_nil_r. split; [|done].
    unfold Core.room_events. rewrite Hrcv. by rewrite bool_decide_eq_false_2.
Qed.

Lemma routed_frame c event a :
  ev_receiver event = Some a →
  plain "event" c → plain (String.append "event." (ev_event event)) c → plain "message" c →
  ∃ c', ((Core.dispatch "event" ;;;
          Core.dispatch (String.append "event." (ev_event event)) ;;;
          Core.room_events event) ;;; Core.dispatch "message")%js c = (c', Returned tt)
        ∧ trace c' = trace c ++ calls "event" c
                     ++ calls (String.append "event." (ev_event event)) c
                     ++ room_calls event a c ++ calls "message" c.
Proof.
  intros Hrcv Hp1 Hp2 Hp3.
  assert (Hn1 : String.append "event." (ev_event event) ≠ "event") by (simpl; discriminate).
  assert (Hn2 : "message" ≠ "event") by discriminate.
  assert (Hn3 : "message" ≠ String.append "event." (ev_event event)) by (simpl; discriminate).
  set (name := String.append "event." (ev_event event)) in *.
  pose proof (dispatch_plain_eq "event" c Hp1) as E1.
  set (c1 := set_eventEmitter _ (set_trace (trace c ++ calls "event" c) c)) in E1.
  destruct (plain_after name "event" (trace c ++ calls "event" c) c Hn1 Hp2) as (Hp21 & Hc21).
  destruct (plain_after "message" "event" (trace c ++ calls "event" c) c Hn2 Hp3)
    as (Hp31 & Hc31).
  fold c1 in Hp21, Hc21, Hp31, Hc31.
  pose proof (dispatch_plain_eq name c1 Hp21) as E2.
  set (c2 := set_eventEmitter _ (set_trace (trace c1 ++ calls name c1) c1)) in E2.
  destruct (plain_after "message" name (trace c1 ++ calls name c1) c1 Hn3 Hp31)
    as (Hp32 & Hc32).
  fold c2 in Hp32, Hc32.
  destruct (room_events_full event a c2 Hrcv) as (c3 & E3 & Ht3 & He3).
  assert (Hp33 : plain "message" c3) by (unfold plain; by rewrite He3).
  assert (Hc33 : calls "message" c3 = calls "message" c2) by (unfold calls; by rewrite He3).
  pose proof (dispatch_plain_eq "message" c3 Hp33) as E4.
  eexists. split.
  - unfold bind. rewrite E1. cbn beta iota. rewrite E2. cbn beta iota.
    rewrite E3. cbn beta iota. rewrite E4. reflexivity.
  - cbn [trace set_eventEmitter set_trace]. rewrite Ht3, Hc33, Hc32, Hc31.
    unfold c2. cbn [trace set_eventEmitter set_trace]. rewrite Hc21.
    unfold c1. cbn [trace set_eventEmitter set_trace].
    by rewrite <- !app_assoc.
Qed.

(** X14: the order in which an inbound frame reaches the callbacks. For a
    frame that decodes and has an event name and a receiver, the message
    listener calls, in this order: the listeners of ['event'] ([onAnyEvent]),
    the listeners of ['event.' + name] ([onEvent]), for a room receiver the
    listeners of the first room of that name (['all_events'], then the event
    name), and last the listeners of ['message'] ([onMessage]), which come
    after the listener that the constructor registered. It then returns. In
    Websocket.ts this holds for every event but ['ping'] and
    ['conn.rejected']. *)
Theorem callbacks_of_a_frame_run_in_this_order c event a :
  ev_event event ≠ "" → ev_event event ≠ "pong" → decodes event →
  ev_receiver event = Some a →
  plain "event" c → plain (String.append "event." (ev_event event)) c → plain "message" c →
  let order := calls "event" c ++ calls (String.append "event." (ev_event event)) c
               ++ room_calls event a c ++ calls "message" c in
  ((Index.on_message (Json event) c).2 = Returned tt
   ∧ trace (Index.on_message (Json event) c).1 = trace c ++ order)
  ∧ (ev_event event ≠ "ping" → ev_event event ≠ "conn.rejected" →
     (WebsocketTs.on_message (Json event) c).2 = Returned tt
     ∧ trace (WebsocketTs.on_message (Json event) c).1 = trace c ++ order).
Proof.
  intros Hne Hpong (sd & Hsd & Hinfo & Huser) Hrcv Hp1 Hp2 Hp3. cbn zeta.
  assert (Hparse : ∀ o, o ≠ Some NotJson → Core.parse_nested o c = (c, Returned tt)).
  { intros [[]|] Ho; done. }
  destruct (routed_frame c event a Hrcv Hp1 Hp2 Hp3) as (c' & E & Ht).
  split.
  - assert (Hn : Index.on_message (Json event) c = (c', Returned tt)).
    { rewrite <- E. unfold Index.on_message.
      rewrite bool_decide_eq_false_2 by done. rewrite Hsd.
      unfold bind at 1. rewrite (Hparse _ Hinfo). unfold bind at 1. rewrite (Hparse _ Huser).
      unfold Index.dispatch_message, Index.router.
      by rewrite bool_decide_eq_true_2 by done. }
    by rewrite Hn.
  - intros Hping Hrej.
    assert (Hn : WebsocketTs.on_message (Json event) c = (c', Returned tt)).
    { rewrite <- E. unfold WebsocketTs.on_message.
      rewrite !bool_decide_eq_false_2 by done. rewrite Hsd.
      unfold bind at 1. rewrite (Hparse _ Hinfo). unfold bind at 1. rewrite (Hparse _ Huser).
      unfold WebsocketTs.dispatch_message, WebsocketTs.router.
      rewrite bool_decide_eq_true_2 by done.
      by rewrite bool_decide_eq_false_2 by done. }
    by rewrite Hn.
Qed.

Lemma callbacks_of_a_frame_witness :
  let c := Index.run [Api (Method.subscribe OnMessage 1);
                      Api (Method.subscribe (OnEvent "chat") 2);
                      Api (Method.subscribe OnAnyEvent 3);
                      Api (Method.joinRoom "lobby");
                      Api (Method.room_on 0 "chat" 4)] Index.new_RTC_Websocket in
  let event := WSEvent "chat" None (Some (Sender "user" "u1" None))
                       (Some (Address "room" "lobby")) None in
  ev_event event ≠ "" ∧ ev_event event ≠ "pong" ∧ decodes event
  ∧ ev_receiver event = Some (Address "room" "lobby")
  ∧ plain "event" c ∧ plain "event.chat" c ∧ plain "message" c
  ∧ added c (Index.on_message (Json event) c).1
    = [Fired ConnBus "event" Spread 3; Fired ConnBus "event.chat" Spread 2;
       Fired (RoomBus 0) "chat" Spread 4; Fired ConnBus "message" Spread 1].
Proof.
  cbn zeta. set (c := Index.run _ _). set (event := WSEvent _ _ _ _ _).
  assert (H1 : ev_event event ≠ "") by discriminate.
  assert (H2 : ev_event event ≠ "pong") by discriminate.
  assert (H3 : decodes event).
  { eexists. split; [reflexivity|]. split; discriminate. }
  assert (H4 : ev_receiver event = Some (Address "room" "lobby")) by reflexivity.
  assert (Hp : ∀ name ids,
            default [] (on_ (eventEmitter c) !! name)
            ++ default [] (once_ (eventEmitter c) !! name) = map App ids → plain name c).
  { intros name ids Hl l. rewrite Hl. intros (id & -> & _)%list_elem_of_fmap. eauto. }
  assert (H5 : plain "event" c) by (apply (Hp _ [3]); vm_compute; reflexivity).
  assert (H6 : plain "event.chat" c) by (apply (Hp _ [2]); vm_compute; reflexivity).
  assert (H7 : plain "message" c) by (apply (Hp _ [1]); vm_compute; reflexivity).
  split_and!; [exact H1|exact H2|exact H3|exact H4|exact H5|exact H6|exact H7|].
  destruct (callbacks_of_a_frame_run_in_this_order c event (Address "room" "lobby")
              H1 H2 H3 H4 H5 H6 H7) as [[_ Ht] _].
  apply added_app. rewrite Ht. vm_compute. reflexivity.
Defined.

(** ** [close()] of Websocket.ts *)

Lemma send_wires event data receiver c sock :
  Core.isOpened c = true → live_socket c = Some sock →
  let c' := (Core.send event data receiver c).1 in
  (Core.isOpened c' = true ∧ live_socket c' = Some sock)
  ∧ rooms_untouched c c' ∧ calm c c' ∧ immediates c' = immediates c
  ∧ eventEmitter c' = eventEmitter c
  ∧ ∃ t, trace c' = trace c ++ t ∧ wired t = [(sock, Envelope event data receiver)].
Proof.
  intros Ho Hl. cbn zeta.
  split; [by apply (anchored_open c _ sock (anchored_send event data receiver c))|].
  split; [apply rooms_untouched_send|]. split; [apply calm_send|].
  rewrite send_eq. cbn zeta. rewrite Ho. cbn [fst].
  destruct (transmit_wires (Envelope event data receiver) (length (promises c))
              (set_promises (promises c ++ [Promise Pending []]) c) sock Hl) as (He & t & Ht & Hw).
  split_and!; [|done|by exists t].
  rewrite transmit_eq. change (live_socket (set_promises _ c)) with (live_socket c).
  rewrite Hl. unfold Core.settle. by repeat case_match.
Qed.

Lemma leave_all_wires rs : ∀ c sock,
  Core.isOpened c = true → live_socket c = Some sock →
  Forall (fun r => r < length (room_objects c)) rs →
  ∃ c', forEach (fun r => WebsocketTs.leave r ;;; ret tt)%js rs c = (c', Returned tt)
        ∧ (Core.isOpened c' = true ∧ live_socket c' = Some sock)
        ∧ calm c c' ∧ immediates c' = immediates c ∧ eventEmitter c' = eventEmitter c
        ∧ ∃ t, trace c' = trace c ++ t
               ∧ wired t = map (pair sock)
                             (omap (fun r => (fun ro =>
                                      Envelope "room_leave" (PObject [("reason", "conn_close")])
                                               (Some (Address "room" (room_name ro))))
                                    <$> room_objects c !! r) rs).
Proof.
  induction rs as [|r rs IH]; intros c sock Ho Hl Hrs.
  - exists c. split_and!; try done. exists []. by rewrite app_nil_r.
  - apply Forall_cons in Hrs as [Hr Hrs].
    destruct (lookup_lt_is_Some_2 _ _ Hr) as [ro Hro].
    set (e := Envelope "room_leave" (PObject [("reason", "conn_close")])
                       (Some (Address "room" (room_name ro)))).
    destruct (send_wires (e_event e) (e_payload e) (e_receiver e) c sock Ho Hl)
      as ((Ho1 & Hl1) & (_ & Hobj & _) & Hcalm & Him & Hem & t & Ht & Hw).
    destruct (returns_send (e_event e) (e_payload e) (e_receiver e) c) as [p Hp].
    assert (E : (WebsocketTs.leave r ;;; ret tt)%js c
                = ((Core.send (e_event e) (e_payload e) (e_receiver e) c).1, Returned tt)).
    { unfold WebsocketTs.leave, Core.room_send. unfold bind at 1. unfold bind at 1.
      unfold gets at 1. cbn beta iota. rewrite Hro. cbn beta iota.
      by destruct (Core.send _ _ _ c) as [? []]; simplify_eq/=. }
    set (c1 := (Core.send (e_event e) (e_payload e) (e_receiver e) c).1) in *. clearbody c1.
    destruct (IH c1 sock Ho1 Hl1) as (c' & E' & Hopen' & Hcalm' & Him' & Hem' & t' & Ht' & Hw').
    { by rewrite Hobj. }
    exists c'. split.
    { cbn [forEach]. unfold bind at 1. rewrite E. cbn beta iota. exact E'. }
    destruct Hopen' as [Ho' Hl'].
    split_and!; [done|done|by etrans|congruence|congruence|].
    exists (t ++ t'). split.
    + by rewrite Ht', Ht, app_assoc.
    + rewrite wired_app, Hw, Hw', Hobj. simpl. by rewrite Hro.
Qed.

Lemma WebsocketTs_close_eq c sock :
  Core.isOpened c = true → live_socket c = Some sock → registry_ok c →
  ∃ c1 t, WebsocketTs.close c = (c1, Returned tt)
          ∧ (Core.isOpened c1 = true ∧ live_socket c1 = Some sock)
          ∧ willReconnect c1 = false
          ∧ immediates c1 = immediates c ++ [Disconnect]
          ∧ eventEmitter c1 = eventEmitter c
          ∧ trace c1 = trace c ++ t
          ∧ wired t = map (pair sock) (leave_envelopes c).
Proof.
  intros Ho Hl Hok.
  set (cP := (Core.clearTimer (reconnectionTimeout c)
                (Core.clearTimer (pingPongIntervalTimer c) (set_willReconnect false c)).1).1).
  assert (HP : Core.isOpened cP = true ∧ live_socket cP = Some sock
               ∧ willReconnect cP = false ∧ immediates cP = immediates c
               ∧ eventEmitter cP = eventEmitter c ∧ trace cP = trace c
               ∧ rooms cP = rooms c ∧ room_objects cP = room_objects c).
  { unfold cP, Core.clearTimer, modify. cbn [fst].
    destruct (pingPongIntervalTimer c), (reconnectionTimeout c); done. }
  destruct HP as (Ho1 & Hl1 & Hw1 & Hi1 & He1 & Ht1 & Hr1 & Hobj1).
  assert (E : WebsocketTs.close c
              = ((let* rs := gets rooms in
                  forEach (fun r => WebsocketTs.leave r ;;; ret tt) rs) ;;;
                 modify (fun c => set_immediates (immediates c ++ [Disconnect]) c))%js cP).
  { unfold WebsocketTs.close, WebsocketTs.stopPingPong, WebsocketTs.stopReconnectionTimeout.
    unfold bind at 1. unfold modify at 1. cbn beta iota.
    unfold bind at 1. unfold bind at 1. unfold gets at 1. cbn beta iota.
    cbn [pingPongIntervalTimer set_willReconnect].
    assert (R1 : ∀ oh c0, Core.clearTimer oh c0 = ((Core.clearTimer oh c0).1, Returned tt))
      by done.
    rewrite (R1 (pingPongIntervalTimer c)). cbn beta iota.
    unfold bind at 1. unfold bind at 1. unfold gets at 1. cbn beta iota.
    assert (R2 : reconnectionTimeout
                   (Core.clearTimer (pingPongIntervalTimer c) (set_willReconnect false c)).1
                 = reconnectionTimeout c).
    { unfold Core.clearTimer, modify. cbn [fst]. by destruct (pingPongIntervalTimer c). }
    rewrite R2, (R1 (reconnectionTimeout c)). cbn beta iota. reflexivity. }
  destruct (leave_all_wires (rooms c) cP sock Ho1 Hl1)
    as (cL & EL & (HoL & HlL) & HcalmL & HiL & HeL & t & HtL & HwL).
  { by rewrite Hobj1. }
  exists (set_immediates (immediates cL ++ [Disconnect]) cL), t. split.
  { rewrite E. unfold bind at 1. unfold bind at 1. unfold gets at 1. cbn beta iota.
    rewrite Hr1, EL. reflexivity. }
  split_and!; try done.
  - cbn [willReconnect set_immediates]. by rewrite (calm_will _ _ HcalmL).
  - cbn [immediates set_immediates]. by rewrite HiL, Hi1.
  - cbn [eventEmitter set_immediates]. by rewrite HeL.
  - cbn [trace set_immediates]. by rewrite HtL, Ht1.
  - rewrite HwL. unfold leave_envelopes. by rewrite Hobj1.
Qed.

Lemma live_socket_Some c sock :
  live_socket c = Some sock → websocket c = Some sock ∧ sockets c !! sock = Some OPEN.
Proof.
  unfold live_socket. destruct (websocket c) as [w|]; [|done].
  case_bool_decide; [|done]. by intros [= ->].
Qed.

(** X15: an orderly shutdown in Websocket.ts. On an open connection with a
    writable socket, [close()] followed by its two [setImmediate] callbacks
    writes one [room_leave] envelope per room, in the order of the registry,
    and then [conn_close] to the system receiver; only after that are the
    listeners of ['custom.disconnect'] called, and the socket is closed last.
    [willReconnect] is false from then on. *)
Theorem close_leaves_the_rooms_then_closes c sock :
  Core.isOpened c = true → live_socket c = Some sock → registry_ok c →
  immediates c = [] → plain "custom.disconnect" c →
  let c' := WebsocketTs.run [Api Method.close; RunImmediate; RunImmediate] c in
  (∃ t, trace c' = trace c ++ t ++ calls "custom.disconnect" c
        ∧ wired t = map (pair sock)
                      (leave_envelopes c
                       ++ [Envelope "conn_close" (PObject [("reason", "general")])
                                    (Some (Address "system" "system"))]))
  ∧ sockets c' !! sock = Some CLOSING
  ∧ willReconnect c' = false
  ∧ immediates c' = [].
Proof.
  intros Ho Hl Hok Him Hplain. cbn zeta.
  destruct (WebsocketTs_close_eq c sock Ho Hl Hok)
    as (c1 & t1 & E1 & (Ho1 & Hl1) & Hw1 & Hi1 & He1 & Ht1 & Hwt1).
  rewrite Him in Hi1. cbn [app] in Hi1.
  unfold WebsocketTs.run. cbn [foldl WebsocketTs.step WebsocketTs.api].
  rewrite E1. cbn [fst].
  (* the callback of close() *)
  set (c1' := set_immediates [] c1).
  set (e := Envelope "conn_close" (PObject [("reason", "general")])
                     (Some (Address "system" "system"))).
  destruct (send_wires (e_event e) (e_payload e) (e_receiver e) c1' sock Ho1 Hl1)
    as ((Ho2 & Hl2) & _ & Hcalm2 & Hi2 & He2 & t2 & Ht2 & Hwt2).
  destruct (returns_send (e_event e) (e_payload e) (e_receiver e) c1') as [p Hp].
  set (cS := (Core.send (e_event e) (e_payload e) (e_receiver e) c1').1) in *.
  set (cI := set_immediates (immediates cS ++ [CloseSocket]) cS).
  assert (Hplain2 : plain "custom.disconnect" cI).
  { unfold plain, cI. cbn [eventEmitter set_immediates]. rewrite He2. unfold c1'.
    cbn [eventEmitter set_immediates]. by rewrite He1. }
  assert (Hcalls : calls "custom.disconnect" cI = calls "custom.disconnect" c).
  { unfold calls, cI. cbn [eventEmitter set_immediates]. rewrite He2. unfold c1'.
    cbn [eventEmitter set_immediates]. by rewrite He1. }
  assert (E2 : WebsocketTs.run_immediate c1
               = (set_eventEmitter (after_dispatch "custom.disconnect" (eventEmitter cI))
                    (set_trace (trace cI ++ calls "custom.disconnect" cI) cI), Returned tt)).
  { rewrite <- (dispatch_plain_eq "custom.disconnect" cI Hplain2).
    unfold WebsocketTs.run_immediate. unfold bind at 1. unfold gets at 1. cbn beta iota.
    rewrite Hi1. unfold bind at 1. unfold modify at 1. cbn beta iota. fold c1'.
    unfold WebsocketTs.run_task, WebsocketTs.closeConnection, WebsocketTs.sendToSystem.
    unfold bind at 1. unfold bind at 1. unfold bind at 1. cbn [ret]. cbn beta iota.
    unfold bind at 1. unfold gets at 1. cbn beta iota.
    change (Core.isOpened c1') with (Core.isOpened c1). rewrite Ho1.
    unfold bind at 1.
    change (Core.send "conn_close" (PObject [("reason", "general")])
              (Some (Address "system" "system")) c1')
      with (Core.send (e_event e) (e_payload e) (e_receiver e) c1').
    destruct (Core.send (e_event e) (e_payload e) (e_receiver e) c1') as [cS' []] eqn:ES;
      [|done]. subst cS. cbn [fst ret]. reflexivity. }
  rewrite E2. cbn [fst].
  set (c2 := set_eventEmitter _ _).
  (* the callback of closeConnection *)
  destruct (live_socket_Some _ _ Hl2) as (Hws & Hss).
  assert (E3 : WebsocketTs.run_immediate c2
               = ((Core.ws_close sock (set_immediates [] c2)).1, Returned tt)).
  { unfold WebsocketTs.run_immediate. unfold bind at 1. unfold gets at 1. cbn beta iota.
    unfold c2, cI. cbn [immediates set_eventEmitter set_trace set_immediates].
    rewrite Hi2. unfold c1'. cbn [immediates set_immediates app].
    unfold bind at 1. unfold modify at 1. cbn beta iota.
    unfold WebsocketTs.run_task, Core.websocket_close. unfold bind at 1. unfold gets at 1.
    cbn beta iota. cbn [websocket set_eventEmitter set_trace set_immediates].
    by rewrite Hws. }
  rewrite E3. cbn [fst].
  unfold Core.ws_close, modify. cbn [fst].
  unfold c2, cI. cbn [sockets set_eventEmitter set_trace set_immediates]. rewrite Hss.
  cbn [sockets trace willReconnect immediates set_sockets set_eventEmitter set_trace
       set_immediates].
  split_and!.
  - exists (t1 ++ t2). split.
    + fold cI. rewrite Hcalls, Ht2. unfold c1'. cbn [trace set_immediates].
      by rewrite Ht1, <- !app_assoc.
    + by rewrite wired_app, Hwt1, Hwt2, map_app.
  - apply list_lookup_insert_eq. apply lookup_lt_is_Some. eauto.
  - rewrite (calm_will _ _ Hcalm2). done.
  - done.
Qed.

Lemma close_leaves_the_rooms_witness :
  let c := WebsocketTs.run [Api Method.connect; FromSocket 0 NOpen;
                            Api (Method.joinRoom "a"); Api (Method.joinRoom "b");
                            Api (Method.subscribe OnDisconnect 9)]
                           WebsocketTs.new_RTC_Websocket in
  let c' := WebsocketTs.run [Api Method.close; RunImmediate; RunImmediate] c in
  Core.isOpened c = true ∧ live_socket c = Some 0 ∧ registry_ok c ∧ immediates c = []
  ∧ plain "custom.disconnect" c
  ∧ sockets c' !! 0 = Some CLOSING ∧ willReconnect c' = false.
Proof.
  cbn zeta. set (c := WebsocketTs.run [Api Method.connect; _; _; _; _] _).
  assert (H1 : Core.isOpened c = true) by (vm_compute; reflexivity).
  assert (H2 : live_socket c = Some 0) by (vm_compute; reflexivity).
  assert (H3 : registry_ok c) by (unfold registry_ok; vm_compute; repeat constructor).
  assert (H4 : immediates c = []) by (vm_compute; reflexivity).
  assert (H5 : plain "custom.disconnect" c).
  { intros l Hl.
    assert (Hls : default [] (on_ (eventEmitter c) !! "custom.disconnect")
                  ++ default [] (once_ (eventEmitter c) !! "custom.disconnect") = [App 9])
      by (vm_compute; reflexivity).
    rewrite Hls in Hl. apply list_elem_of_singleton in Hl as ->. by exists 9. }
  split_and!; [exact H1|exact H2|exact H3|exact H4|exact H5|..];
    destruct (close_leaves_the_rooms_then_closes c 0 H1 H2 H3 H4 H5) as (_ & Ha & Hb & _);
    [exact Ha|exact Hb].
Defined.

(** ** [send] on an open connection, and what every run keeps *)

(** [send] when the state is ['open'] and the socket writable: one write, and
    the promise is fulfilled before [send] returns. *)
Lemma send_while_writable event data receiver c sock :
  Core.isOpened c = true → live_socket c = Some sock →
  let p := length (promises c) in
  let c' := (Core.send event data receiver c).1 in
  (Core.send event data receiver c).2 = Returned p
  ∧ added c c' = [Wire sock (Envelope event data receiver); Settled p true]
  ∧ promises c' = promises c ++ [Promise Fulfilled []]
  ∧ eventEmitter c' = eventEmitter c
  ∧ jobs c' = jobs c.
Proof.
  intros Ho Hl. cbn zeta. rewrite send_eq. cbn zeta. rewrite Ho. cbn [fst snd].
  rewrite transmit_eq. change (live_socket (set_promises _ c)) with (live_socket c).
  rewrite Hl. rewrite (settle_pending _ true []) by apply lookup_fresh_promise.
  cbn [fst]. split_and!; try done.
  - apply added_app. simpl. by rewrite <- app_assoc.
  - simpl. apply list_eq. intros i. destruct (decide (i = length (promises c))) as [->|Hne].
    + by rewrite lookup_insert_fresh, lookup_app_r, Nat.sub_diag by lia.
    + rewrite list_lookup_insert_ne by done.
      destruct (decide (i < length (promises c))).
      * by rewrite !lookup_app_l by done.
      * rewrite !lookup_app_r by lia.
        destruct (i - length (promises c)) as [|k] eqn:E; [lia|done].
  - simpl. by rewrite app_nil_r.
Qed.

(** X16: [send] on an open connection whose socket is writable returns the
    new promise, writes exactly the envelope to the current socket and
    fulfils the promise before it returns; it registers no listener. *)
Theorem send_on_an_open_connection_writes_at_once event data receiver c sock :
  Core.isOpened c = true → live_socket c = Some sock →
  let p := length (promises c) in
  let c' := (Core.send event data receiver c).1 in
  (Core.send event data receiver c).2 = Returned p
  ∧ added c c' = [Wire sock (Envelope event data receiver); Settled p true]
  ∧ promises c' = promises c ++ [Promise Fulfilled []]
  ∧ eventEmitter c' = eventEmitter c
  ∧ jobs c' = jobs c.
Proof. apply send_while_writable. Qed.

Lemma send_on_an_open_connection_witness :
  let c := Index.run [Api Method.connect; FromSocket 0 NOpen] Index.new_RTC_Websocket in
  Core.isOpened c = true ∧ live_socket c = Some 0
  ∧ added c (Core.send "chat" (PText "hi") None c).1
    = [Wire 0 (Envelope "chat" (PText "hi") None); Settled 0 true].
Proof.
  cbn zeta. set (c := Index.run _ _).
  assert (H1 : Core.isOpened c = true) by (vm_compute; reflexivity).
  assert (H2 : live_socket c = Some 0) by (vm_compute; reflexivity).
  split; [exact H1|]. split; [exact H2|].
  destruct (send_on_an_open_connection_writes_at_once "chat" (PText "hi") None c 0 H1 H2)
    as (_ & H & _).
  exact H.
Defined.

(** X17: in every state that a run of index.ts or of Websocket.ts reaches from
    a new connection, the closures that [send] registered sit among the
    one-shot listeners of ['open'] and nowhere else, each of them holds a
    promise that exists, and no two of them hold the same promise. *)
Theorem send_closures_wait_among_the_one_shot_listeners_of_open inputs :
  let good c :=
    (∀ name ls, on_ (eventEmitter c) !! name = Some ls → no_send ls)
    ∧ (∀ name ls, name ≠ "open" → once_ (eventEmitter c) !! name = Some ls → no_send ls)
    ∧ Forall (fun p => p < length (promises c)) (queued c)
    ∧ NoDup (queued c) in
  good (Index.run inputs Index.new_RTC_Websocket)
  ∧ good (WebsocketTs.run inputs WebsocketTs.new_RTC_Websocket).
Proof.
  cbn zeta. destruct (waiting_run inputs) as [[H1 H2 H3 H4 _ _] [H5 H6 H7 H8 _ _]].
  split; split_and!; done.
Qed.

(** X18: a frame with a field that was encoded twice and does not decode.
    When [sender.info], or else [meta.user_info], is set and is not JSON, the
    message listener throws a SyntaxError at the nested [JSON.parse] before it
    dispatches anything, and so does a frame that is not JSON at all; the
    state is left as it was. *)
Theorem frame_that_does_not_decode_reaches_no_listener c event sd :
  ev_event event ≠ "pong" → ev_sender event = Some sd →
  s_info sd = Some NotJson
  ∨ (s_info sd ≠ Some NotJson ∧ ev_user_info event = Some NotJson) →
  Index.on_message (Json event) c = (c, Thrown SyntaxError)
  ∧ Index.on_message Garbled c = (c, Thrown SyntaxError)
  ∧ WebsocketTs.on_message Garbled c = (c, Thrown SyntaxError)
  ∧ (ev_event event ≠ "ping" →
     WebsocketTs.on_message (Json event) c = (c, Thrown SyntaxError)).
Proof.
  intros Hpong Hsd Hbad.
  assert (H : (Core.parse_nested (s_info sd) ;;; Core.parse_nested (ev_user_info event) ;;;
               Index.dispatch_message event)%js c = (c, Thrown SyntaxError)
              ∧ (Core.parse_nested (s_info sd) ;;; Core.parse_nested (ev_user_info event) ;;;
                 WebsocketTs.dispatch_message event)%js c = (c, Thrown SyntaxError)).
  { destruct Hbad as [Hi|[Hi Hu]].
    - unfold bind. by rewrite Hi.
    - unfold bind. rewrite Hu. by destruct (s_info sd) as [[]|]. }
  destruct H as [H1 H2]. split_and!; [|done|done|].
  - unfold Index.on_message. rewrite bool_decide_eq_false_2 by done. by rewrite Hsd.
  - intros Hping. unfold WebsocketTs.on_message.
    rewrite !bool_decide_eq_false_2 by done. by rewrite Hsd.
Qed.

Lemma frame_that_does_not_decode_witness :
  let event := WSEvent "chat" None (Some (Sender "user" "u1" (Some NotJson)))
                       (Some (Address "room" "lobby")) None in
  ev_event event ≠ "pong"
  ∧ ev_sender event = Some (Sender "user" "u1" (Some NotJson))
  ∧ Index.on_message (Json event) Index.new_RTC_Websocket
    = (Index.new_RTC_Websocket, Thrown SyntaxError).
Proof.
  cbn zeta. set (event := WSEvent _ _ _ _ _).
  assert (H1 : ev_event event ≠ "pong") by discriminate.
  assert (H2 : ev_sender event = Some (Sender "user" "u1" (Some NotJson))) by reflexivity.
  split; [exact H1|]. split; [exact H2|].
  destruct (frame_that_does_not_decode_reaches_no_listener Index.new_RTC_Websocket event
              (Sender "user" "u1" (Some NotJson)) H1 H2 (or_introl eq_refl)) as [H _].
  exact H.
Defined.

(** X19: a ['ping'] frame in Websocket.ts. On an open connection with a
    writable socket the message listener answers it with one ['pong'] envelope
    to the system receiver and returns: no listener is called, whatever is
    registered, and the frame is not decoded further. *)
Theorem server_ping_is_answered_and_not_dispatched c sock event :
  ev_event event = "ping" → Core.isOpened c = true → live_socket c = Some sock →
  let c' := (WebsocketTs.on_message (Json event) c).1 in
  (WebsocketTs.on_message (Json event) c).2 = Returned tt
  ∧ added c c'
    = [Wire sock (Envelope "pong" (PObject [("message", "pong")])
                           (Some (Address "system" "system")));
       Settled (length (promises c)) true]
  ∧ fired (added c c') = []
  ∧ eventEmitter c' = eventEmitter c.
Proof.
  intros Hev Ho Hl. cbn zeta.
  assert (E : WebsocketTs.on_message (Json event) c
              = ((Core.send "pong" (PObject [("message", "pong")])
                            (Some (Address "system" "system")) c).1, Returned tt)).
  { unfold WebsocketTs.on_message. rewrite Hev.
    rewrite bool_decide_eq_false_2 by done. rewrite bool_decide_eq_true_2 by done.
    unfold WebsocketTs.sendToSystem, bind.
    destruct (send_while_writable "pong" (PObject [("message", "pong")])
                (Some (Address "system" "system")) c sock Ho Hl) as (H & _).
    destruct (Core.send _ _ _ c) as [c1 o]. simpl in *. by rewrite H. }
  rewrite E. cbn [fst snd].
  destruct (send_while_writable "pong" (PObject [("message", "pong")])
              (Some (Address "system" "system")) c sock Ho Hl) as (_ & Ha & _ & He & _).
  rewrite Ha. by split_and!.
Qed.

Lemma server_ping_witness :
  let c := WebsocketTs.run [Api Method.connect; FromSocket 0 NOpen]
                           WebsocketTs.new_RTC_Websocket in
  let event := WSEvent "ping" None None None None in
  Core.isOpened c = true ∧ live_socket c = Some 0
  ∧ (WebsocketTs.on_message (Json event) c).2 = Returned tt.
Proof.
  cbn zeta. set (c := WebsocketTs.run _ _).
  assert (H1 : Core.isOpened c = true) by (vm_compute; reflexivity).
  assert (H2 : live_socket c = Some 0) by (vm_compute; reflexivity).
  split; [exact H1|]. split; [exact H2|].
  destruct (server_ping_is_answered_and_not_dispatched c 0 (WSEvent "ping" None None None None)
              eq_refl H1 H2) as [H _].
  exact H.
Defined.
